(** * mkv_edit: track selection, property editing and mkvmerge command synthesis

    A shallow embedding of [src/mkv/mkv_edit.py].

    - A Python [str] is a [string]; a character is an [ascii], read as a code
      point below 256.  [len] is [String.length].
    - A JSON scalar held in a [properties] dict is a [pyval].
    - A Python dict with string keys is a [gmap string _]; the dict
      [track_map_to_original_data], keyed by display number, is a [gmap Z _].
    - The dicts produced by [json.loads] are objects shared between the lists
      that hold them: a track object is a location in a [heap], and a Python
      list of tracks is a list of locations.
    - [input()] reads the next line of a finite list of lines and raises
      [EOFError] when the list is exhausted; what [print] writes is not
      modelled.
    - What [main] meets outside the program (the [mkvmerge] executable, the
      file system, the document that [mkvmerge -J] prints) is a [World]. *)

From stdpp Require Import gmap strings list pretty.
From Stdlib Require Import ZArith Ascii Sorted.

Local Open Scope Z_scope.

(** ** Python string primitives *)

(** [str.isspace] on the code points below 256. *)
Definition py_isspace (c : ascii) : bool :=
  let n := Z.of_N (N_of_ascii c) in
  ((9 <=? n) && (n <=? 13)) || ((28 <=? n) && (n <=? 32))
  || (n =? 133) || (n =? 160).

(** What [int] skips around its literal: the same, but for 28..31. *)
Definition int_isspace (c : ascii) : bool :=
  let n := Z.of_N (N_of_ascii c) in
  ((9 <=? n) && (n <=? 13)) || (n =? 32) || (n =? 133) || (n =? 160).

Fixpoint lstrip_with (space : ascii → bool) (s : string) : string :=
  match s with
  | EmptyString => EmptyString
  | String c s' => if space c then lstrip_with space s' else s
  end.

Fixpoint rstrip_with (space : ascii → bool) (s : string) : string :=
  match s with
  | EmptyString => EmptyString
  | String c s' =>
      match rstrip_with space s' with
      | EmptyString => if space c then EmptyString else String c EmptyString
      | r => String c r
      end
  end.

(** [s.strip()] *)
Definition py_strip (s : string) : string :=
  rstrip_with py_isspace (lstrip_with py_isspace s).

(** [str.lower] on one code point below 256: the ASCII capitals and the
    Latin-1 capitals (all of 192..222 but the multiplication sign 215). *)
Definition py_lower_char (c : ascii) : ascii :=
  let n := Z.of_N (N_of_ascii c) in
  if ((65 <=? n) && (n <=? 90))
     || ((192 <=? n) && (n <=? 222) && negb (n =? 215))
  then ascii_of_N (Z.to_N (n + 32)) else c.

(** [s.lower()] *)
Fixpoint py_lower (s : string) : string :=
  match s with
  | EmptyString => EmptyString
  | String c s' => String (py_lower_char c) (py_lower s')
  end.

(** [s.split(sep)] for a one-character separator: never the empty list. *)
Fixpoint py_split (sep : ascii) (s : string) : list string :=
  match s with
  | EmptyString => [EmptyString]
  | String c s' =>
      match py_split sep s' with
      | [] => []
      | t :: ts =>
          if bool_decide (c = sep) then EmptyString :: t :: ts
          else String c t :: ts
      end
  end.

Definition digit_of (c : ascii) : option Z :=
  let n := Z.of_N (N_of_ascii c) in
  if (48 <=? n) && (n <=? 57) then Some (n - 48) else None.

(** The digits of a decimal literal accepted by [int]: one or more digits,
    single underscores allowed between two digits.  [after_digit] says that
    the previous character was a digit. *)
Fixpoint int_digits (acc : Z) (after_digit : bool) (s : string) : option Z :=
  match s with
  | EmptyString => if after_digit then Some acc else None
  | String c s' =>
      match digit_of c with
      | Some d => int_digits (10 * acc + d) true s'
      | None =>
          if bool_decide (c = "_"%char) && after_digit
          then int_digits acc false s' else None
      end
  end.

(** [int(s)] for a [str]: [None] stands for [ValueError].  Surrounding white
    space is ignored and one sign is accepted.  (CPython 3.11 and later also
    raise [ValueError] beyond 4300 digits; both callers treat a number that
    large as out of range, so the difference is only in the message.) *)
Definition py_int (s : string) : option Z :=
  match rstrip_with int_isspace (lstrip_with int_isspace s) with
  | String "+" r => int_digits 0 false r
  | String "-" r => Z.opp <$> int_digits 0 false r
  | r => int_digits 0 false r
  end.

(** [sep.join(l)] *)
Definition py_join (sep : string) (l : list string) : string :=
  String.concat sep l.

(** ** Data model *)

(** A JSON scalar as [json.loads] returns it. *)
Inductive pyval :=
  | PNone
  | PBool (b : bool)
  | PInt (z : Z)
  | PStr (s : string).

Global Instance pyval_eq_dec : EqDecision pyval.
Proof. solve_decision. Defined.

(** [str(v)], which is also what an f-string field without a format spec
    gives. *)
Definition py_str (v : pyval) : string :=
  match v with
  | PNone => "None"
  | PBool true => "True"
  | PBool false => "False"
  | PInt z => pretty z
  | PStr s => s
  end.

(** Truth value of [v] in a condition. *)
Definition py_truthy (v : pyval) : bool :=
  match v with
  | PNone => false
  | PBool b => b
  | PInt z => negb (z =? 0)
  | PStr s => negb (bool_decide (s = ""))
  end.

(** One entry of the ["tracks"] array of [mkvmerge -J]. *)
Record Track := mkTrack {
  track_id : Z;                       (* t['id'] *)
  track_type : string;                (* t['type'] *)
  codec : string;                     (* t['codec'] *)
  properties : gmap string pyval      (* t['properties'] *)
}.

Global Instance Track_inhabited : Inhabited Track :=
  populate (mkTrack 0 "" "" ∅).

(** [original_mkv_data]: the ["tracks"] key may be missing. *)
Record MkvData := mkMkvData { tracks : option (list Track) }.

(** ** build_mkvmerge_command *)

(** [[str(t['id']) for t in final_tracks if t['type'] == ty]] *)
Definition track_ids_of_type (ty : string) (final_tracks : list Track)
  : list string :=
  (λ t, pretty (track_id t)) <$> filter (λ t, track_type t = ty) final_tracks.

(** One of the three [if ids: ... elif any(...): ...] blocks. *)
Definition track_selection_args (ty incl excl : string)
    (final_tracks original_tracks_info : list Track) : list string :=
  let ids := track_ids_of_type ty final_tracks in
  if bool_decide (ids ≠ []) then [incl; py_join "," ids]
  else if existsb (λ t, bool_decide (track_type t = ty)) original_tracks_info
       then [excl]
       else [].

(** The body of [for track in final_tracks]. *)
Definition track_property_args (track : Track) : list string :=
  let track_id_str := pretty (track_id track) in
  let track_name_to_set := default PNone (properties track !! "track_name") in
  let name_args :=
    if bool_decide (track_name_to_set ≠ PNone)
    then ["--track-name"; track_id_str +:+ ":" +:+ py_str track_name_to_set]
    else if bool_decide (properties track !! "track_name" = None)
         then ["--track-name"; track_id_str +:+ ":"]
         else [] in
  let is_default_explicitly_set :=
    bool_decide (is_Some (properties track !! "default_track")) in
  let is_default :=
    default (PBool false) (properties track !! "default_track") in
  let default_args :=
    if is_default_explicitly_set
    then ["--default-track";
          track_id_str +:+ ":" +:+ (if py_truthy is_default then "1" else "0")]
    else [] in
  name_args ++ default_args.

Definition build_mkvmerge_command (input_filepath output_filepath : string)
    (final_tracks : list Track) (original_mkv_data : MkvData) : list string :=
  let command := ["mkvmerge"; "-q"] in
  let command := command ++ ["-o"; output_filepath] in
  let original_tracks_info := default [] (tracks original_mkv_data) in
  let command := command ++
    track_selection_args "video" "--video-tracks" "--no-video"
      final_tracks original_tracks_info in
  let command := command ++
    track_selection_args "audio" "--audio-tracks" "--no-audio"
      final_tracks original_tracks_info in
  let command := command ++
    track_selection_args "subtitles" "--subtitle-tracks" "--no-subtitles"
      final_tracks original_tracks_info in
  let command := command ++ mjoin (track_property_args <$> final_tracks) in
  command ++ [input_filepath].

(** ** display_tracks *)

Definition w_codec : nat := 18.
Definition w_name : nat := 30.

(** [s[:w-3] + "..." if len(s) > w else s] *)
Definition ellipsize (w : nat) (s : string) : string :=
  if (w <? String.length s)%nat
  then String.substring 0 (w - 3) s +:+ "..."
  else s.

(** The cells of a table row that depend on the track's strings and flag.
    [default_display] is [true] for the cell that reads yes. *)
Record Row := mkRow {
  codec_display : string;
  name_display : string;
  default_display : bool
}.

(** The one-character defaults of [.get('language', _)] and
    [.get('track_name', _)] lie outside Latin-1; a placeholder of the same
    length stands for each. *)
Definition lang_unknown : pyval := PStr "?".
Definition name_none : pyval := PStr "-".

(** One iteration of [for i, track in enumerate(tracks_data)]; [None] stands
    for [TypeError]: [len] of a value that is not a [str], or a format spec
    applied to [None]. *)
Definition display_row (track : Track) : option Row :=
  let lang := default lang_unknown (properties track !! "language") in
  let codec_orig := codec track in
  let name_orig := default name_none (properties track !! "track_name") in
  let is_default :=
    default (PBool false) (properties track !! "default_track") in
  match name_orig with
  | PStr name_orig =>
      if bool_decide (lang = PNone) then None
      else Some (mkRow (ellipsize w_codec codec_orig)
                       (ellipsize w_name name_orig)
                       (py_truthy is_default))
  | _ => None
  end.

(** ** Track objects *)

(** The address of a track dict, and the store of all of them.  A Python
    list of tracks is a [list loc]; [h !!! t] reads the dict at [t]. *)
Definition loc := nat.
Abbreviation heap := (list Track).

Inductive exn := EOFError | TypeError.

Inductive result (A : Type) :=
  | Ok (a : A)
  | Raised (e : exn).
Global Arguments Ok {A} a.
Global Arguments Raised {A} e.

(** [display_tracks(tracks_data, title)]: the rows, or the exception. *)
Definition display_tracks (h : heap) (tracks_data : list loc)
  : option (list Row) :=
  mapM (λ t, display_row (h !!! t)) tracks_data.

(** [l.sort(key=...)]: the sort is stable, so its result is that of the
    stable insertion sort. *)
Fixpoint insert_by_key {A} (key : A → Z) (x : A) (l : list A) : list A :=
  match l with
  | [] => [x]
  | y :: l' =>
      if key x <=? key y then x :: y :: l' else y :: insert_by_key key x l'
  end.

Definition py_sort {A} (key : A → Z) (l : list A) : list A :=
  foldr (insert_by_key key) [] l.

(** ** select_tracks_to_keep *)

(** [for track in group: track_map[current_display_num] = track;
    current_display_num += 1] *)
Definition number_tracks (group : list loc)
    (track_map_to_original_data : gmap Z loc) (current_display_num : Z)
  : gmap Z loc * Z :=
  foldl (λ st track, (<[st.2 := track]> st.1, st.2 + 1))
        (track_map_to_original_data, current_display_num) group.

(** What one answer to a selection prompt is read as: the selected display
    numbers, or [None] when [valid_input] ends up [False].  [raw_input] is
    the line after [.strip()]. *)
Definition read_selection (selection_start_num selection_end_num : Z)
    (raw_input : string) : option (list Z) :=
  if bool_decide (py_lower raw_input = "all")
  then Some (seqZ selection_start_num (selection_end_num - selection_start_num))
  else if bool_decide (py_lower raw_input = "none")
          || bool_decide (raw_input = "")
  then Some []
  else
    match mapM (λ x, py_int (py_strip x)) (py_split "," raw_input) with
    | None => None
    | Some selected_indices =>
        if forallb (λ i_val, (selection_start_num <=? i_val)
                             && (i_val <? selection_end_num)) selected_indices
        then Some selected_indices
        else None
    end.

(** [for i_val in selected_indices: if i_val in track_map: kept.append(...)] *)
Definition append_selected (track_map_to_original_data : gmap Z loc)
    (kept_tracks : list loc) (selected_indices : list Z) : list loc :=
  foldl (λ kept i_val,
           match track_map_to_original_data !! i_val with
           | Some t => kept ++ [t]
           | None => kept
           end) kept_tracks selected_indices.

(** The [while True] loop of one group. *)
Fixpoint selection_loop (track_map_to_original_data : gmap Z loc)
    (selection_start_num selection_end_num : Z) (kept_tracks : list loc)
    (stdin : list string) : result (list loc) * list string :=
  match stdin with
  | [] => (Raised EOFError, [])
  | line :: stdin' =>
      match read_selection selection_start_num selection_end_num
                           (py_strip line) with
      | Some selected_indices =>
          (Ok (append_selected track_map_to_original_data kept_tracks
                 selected_indices), stdin')
      | None =>
          selection_loop track_map_to_original_data selection_start_num
            selection_end_num kept_tracks stdin'
      end
  end.

(** The block of one prompted group (audio, then subtitles). *)
Definition select_group (group : list loc)
    (track_map_to_original_data : gmap Z loc) (current_display_num : Z)
    (kept_tracks : list loc) (stdin : list string)
  : result (gmap Z loc * Z * list loc) * list string :=
  let selection_start_num := current_display_num in
  match group with
  | [] => (Ok (track_map_to_original_data, current_display_num, kept_tracks),
           stdin)
  | _ =>
      let '(track_map, selection_end_num) :=
        number_tracks group track_map_to_original_data current_display_num in
      match selection_loop track_map selection_start_num selection_end_num
                           kept_tracks stdin with
      | (Ok kept, stdin') => (Ok (track_map, selection_end_num, kept), stdin')
      | (Raised e, stdin') => (Raised e, stdin')
      end
  end.

Definition tracks_of_type (h : heap) (ty : string) (all_tracks : list loc)
  : list loc :=
  filter (λ t, track_type (h !!! t) = ty) all_tracks.

Definition select_tracks_to_keep (h : heap) (all_tracks : list loc)
    (stdin : list string) : result (list loc) * list string :=
  let video_tracks := tracks_of_type h "video" all_tracks in
  let audio_tracks := tracks_of_type h "audio" all_tracks in
  let subtitle_tracks := tracks_of_type h "subtitles" all_tracks in
  let '(track_map, current_display_num) := number_tracks video_tracks ∅ 1 in
  let kept_tracks := video_tracks in
  match select_group audio_tracks track_map current_display_num kept_tracks
                     stdin with
  | (Raised e, stdin) => (Raised e, stdin)
  | (Ok (track_map, current_display_num, kept_tracks), stdin) =>
      match select_group subtitle_tracks track_map current_display_num
                         kept_tracks stdin with
      | (Raised e, stdin) => (Raised e, stdin)
      | (Ok (_, _, kept_tracks), stdin) =>
          (Ok (py_sort (λ t, track_id (h !!! t)) kept_tracks), stdin)
      end
  end.

(** ** modify_track_properties *)

(** [t['properties'][k] = v] and [del t['properties'][k]] *)
Definition set_property (k : string) (v : pyval) (t : Track) : Track :=
  mkTrack (track_id t) (track_type t) (codec t) (<[k := v]> (properties t)).

Definition del_property (k : string) (t : Track) : Track :=
  mkTrack (track_id t) (track_type t) (codec t) (delete k (properties t)).

Definition enumerate {A} (l : list A) : list (nat * A) :=
  zip (seq 0 (length l)) l.

(** The name prompt, on the stripped answer. *)
Definition edit_name (selected_track : loc) (new_name_input : string)
    (h : heap) : heap :=
  if bool_decide (new_name_input = "-")
  then alter (del_property "track_name") selected_track h
  else if negb (bool_decide (new_name_input = ""))
  then alter (set_property "track_name" (PStr new_name_input)) selected_track h
  else h.

(** The body of [for i, t in enumerate(tracks_to_modify)]: an entry of the
    same type as the selected track, at another index, has its flag set to
    [False] if it carries one. *)
Definition clear_default_step (track_idx : nat) (selected_track : loc)
    (h : heap) (it : nat * loc) : heap :=
  let '(i, t) := it in
  if bool_decide (track_type (h !!! t) = track_type (h !!! selected_track))
     && negb (i =? track_idx)%nat
  then if bool_decide (is_Some (properties (h !!! t) !! "default_track"))
       then alter (set_property "default_track" (PBool false)) t h
       else h
  else h.

Definition clear_other_defaults (tracks_to_modify : list loc)
    (track_idx : nat) (selected_track : loc) (h : heap) : heap :=
  foldl (clear_default_step track_idx selected_track) h
        (enumerate tracks_to_modify).

(** The default-flag prompt, on the stripped and lowered answer. *)
Definition edit_default (tracks_to_modify : list loc) (track_idx : nat)
    (selected_track : loc) (default_str : string) (h : heap) : heap :=
  if bool_decide (default_str = "y")
  then clear_other_defaults tracks_to_modify track_idx selected_track
         (alter (set_property "default_track" (PBool true)) selected_track h)
  else if bool_decide (default_str = "n")
  then alter (set_property "default_track" (PBool false)) selected_track h
  else h.

(** The main [while True] loop.  [EOFError] raised by an [input()] inside the
    [try] is caught by [except Exception] and the loop goes on, to meet the
    end of input again at its first prompt. *)
Fixpoint modify_loop (h : heap) (tracks_to_modify : list loc)
    (stdin : list string) {struct stdin} : result () * heap * list string :=
  match display_tracks h tracks_to_modify with
  | None => (Raised TypeError, h, stdin)
  | Some _ =>
    match stdin with
    | [] => (Raised EOFError, h, [])
    | line :: stdin1 =>
      let track_num_str := py_strip line in
      if bool_decide (py_lower track_num_str = "f") then (Ok (), h, stdin1)
      else
        match py_int track_num_str with
        | None => modify_loop h tracks_to_modify stdin1
        | Some n =>
          let track_idx := n - 1 in
          if negb ((0 <=? track_idx)
                   && (track_idx <? Z.of_nat (length tracks_to_modify)))
          then modify_loop h tracks_to_modify stdin1
          else
            let selected_track := tracks_to_modify !!! Z.to_nat track_idx in
            match stdin1 with
            | [] => modify_loop h tracks_to_modify stdin1
            | line2 :: stdin2 =>
              let h := edit_name selected_track (py_strip line2) h in
              if bool_decide (track_type (h !!! selected_track)
                              ∈ ["audio"; "subtitles"])
              then
                match stdin2 with
                | [] => modify_loop h tracks_to_modify stdin2
                | line3 :: stdin3 =>
                  let h := edit_default tracks_to_modify (Z.to_nat track_idx)
                             selected_track (py_lower (py_strip line3)) h in
                  modify_loop h tracks_to_modify stdin3
                end
              else modify_loop h tracks_to_modify stdin2
            end
        end
    end
  end.

Definition modify_track_properties (h : heap) (tracks_to_modify : list loc)
    (stdin : list string) : result () * heap * list string :=
  match tracks_to_modify with
  | [] => (Ok (), h, stdin)
  | _ =>
    match stdin with
    | [] => (Raised EOFError, h, [])
    | line :: stdin' =>
      let initial_choice := py_lower (py_strip line) in
      if negb (bool_decide (initial_choice = "y")) then (Ok (), h, stdin')
      else modify_loop h tracks_to_modify stdin'
    end
  end.

(** ** main *)

(** [s.endswith(suffix)] *)
Fixpoint py_endswith (s suffix : string) : bool :=
  bool_decide (s = suffix)
  || match s with
     | EmptyString => false
     | String _ s' => py_endswith s' suffix
     end.

(** What the program meets outside itself, taken as it is found and not
    changing while the program runs: whether [mkvmerge --version] runs and
    succeeds, the two file-system tests, [os.path.splitext], and what
    [get_mkv_info] returns for a path ([None] when [mkvmerge -J] fails or its
    output is not JSON).  The two probes are taken to end in one of the ways
    they provide for: an exception of [subprocess.run] or [json.loads] that
    they do not catch, and so let escape, is not represented. *)
Record World := mkWorld {
  mkvmerge_found : bool;
  isfile : string → bool;
  path_exists : string → bool;
  splitext : string → string * string;
  get_mkv_info : string → option MkvData
}.

(** How [main] ends.  [Ran cmd]: [subprocess.Popen(cmd)] was called. *)
Inductive ending :=
  | SysExit
  | NoTrackInfo
  | NoTracks
  | NothingKept
  | OutputCancelled
  | NotConfirmed (mkvmerge_cmd : list string)
  | Ran (mkvmerge_cmd : list string)
  | Uncaught (e : exn).

(** The first [while True] of [main]: the path of the file to work on. *)
Fixpoint read_input_path (w : World) (stdin : list string)
  : result string * list string :=
  match stdin with
  | [] => (Raised EOFError, [])
  | line :: stdin1 =>
      let mkv_filepath := py_strip line in
      if negb (isfile w mkv_filepath) then read_input_path w stdin1
      else if negb (py_endswith (py_lower mkv_filepath) ".mkv") then
        match stdin1 with
        | [] => (Raised EOFError, [])
        | answer :: stdin2 =>
            if negb (bool_decide (py_lower answer = "y"))
            then read_input_path w stdin2
            else (Ok mkv_filepath, stdin2)
        end
      else (Ok mkv_filepath, stdin1)
  end.

(** [while os.path.exists(output_filepath)]: the path to write to, or [None]
    when the user cancels. *)
Fixpoint choose_output_path (w : World) (output_filepath_base ext : string)
    (output_filepath : string) (count : Z) (stdin : list string)
  : result (option string) * list string :=
  if negb (path_exists w output_filepath)
  then (Ok (Some output_filepath), stdin)
  else
    match stdin with
    | [] => (Raised EOFError, [])
    | line :: stdin' =>
        let overwrite_choice := py_lower line in
        if bool_decide (overwrite_choice = "o")
        then (Ok (Some output_filepath), stdin')
        else if bool_decide (overwrite_choice = "r")
        then choose_output_path w output_filepath_base ext
               (output_filepath_base +:+ "_" +:+ pretty count +:+ ext)
               (count + 1) stdin'
        else if bool_decide (overwrite_choice = "c")
        then (Ok None, stdin')
        else choose_output_path w output_filepath_base ext output_filepath
               count stdin'
    end.

(** [main], from the tracks on.  The track dicts of the probed document are
    the store, in the order [all_tracks_original.sort] leaves them, and
    [all_tracks_original] is the list of all their addresses; the document
    that [build_mkvmerge_command] receives holds the same dicts, as the
    editor left them. *)
Definition main_with_tracks (w : World) (mkv_filepath : string)
    (all_tracks_original : list Track) (stdin : list string) : ending :=
  let h := py_sort track_id all_tracks_original in
  let all_tracks_original := seq 0 (length h) in
  match display_tracks h all_tracks_original with
  | None => Uncaught TypeError
  | Some _ =>
    match select_tracks_to_keep h all_tracks_original stdin with
    | (Raised e, _) => Uncaught e
    | (Ok kept_tracks_after_selection, stdin) =>
      match kept_tracks_after_selection with
      | [] => NothingKept
      | _ =>
        let kept := py_sort (λ t, track_id (h !!! t))
                      kept_tracks_after_selection in
        match display_tracks h kept with
        | None => Uncaught TypeError
        | Some _ =>
          match modify_track_properties h kept stdin with
          | (Raised e, _, _) => Uncaught e
          | (Ok _, h, stdin) =>
            let kept := py_sort (λ t, track_id (h !!! t)) kept in
            match display_tracks h kept with
            | None => Uncaught TypeError
            | Some _ =>
              let '(base, ext) := splitext w mkv_filepath in
              let output_filepath_base := base +:+ "_modified" in
              let output_filepath := output_filepath_base +:+ ext in
              match choose_output_path w output_filepath_base ext
                      output_filepath 1 stdin with
              | (Raised e, _) => Uncaught e
              | (Ok None, _) => OutputCancelled
              | (Ok (Some output_filepath), stdin) =>
                let mkvmerge_cmd :=
                  build_mkvmerge_command mkv_filepath output_filepath
                    ((λ t, h !!! t) <$> kept) (mkMkvData (Some h)) in
                match stdin with
                | [] => Uncaught EOFError
                | line :: _ =>
                    let confirm_run := py_lower (py_strip line) in
                    if bool_decide (confirm_run = "y")
                    then Ran mkvmerge_cmd
                    else NotConfirmed mkvmerge_cmd
                end
              end
            end
          end
        end
      end
    end
  end.

Definition main (w : World) (stdin : list string) : ending :=
  if negb (mkvmerge_found w) then SysExit
  else
    match read_input_path w stdin with
    | (Raised e, _) => Uncaught e
    | (Ok mkv_filepath, stdin) =>
      match get_mkv_info w mkv_filepath with
      | None => NoTrackInfo
      | Some mkv_data_original =>
        match tracks mkv_data_original with
        | None => NoTrackInfo
        | Some [] => NoTracks
        | Some all_tracks_original =>
            main_with_tracks w mkv_filepath all_tracks_original stdin
        end
      end
    end.

(** ** Vocabulary of the statements *)

(** The three prompted-or-kept track types, each with its inclusion and its
    exclusion flag, as [build_mkvmerge_command] pairs them. *)
Definition type_flags : list (string * string * string) :=
  [("video", "--video-tracks", "--no-video");
   ("audio", "--audio-tracks", "--no-audio");
   ("subtitles", "--subtitle-tracks", "--no-subtitles")].

(** [command] holds [flag] immediately followed by [value]. *)
Definition has_flag_value (flag value : string) (command : list string)
  : Prop :=
  ∃ pre post, command = pre ++ flag :: value :: post.

(** The values given to [flag] in [args]: every argument that immediately
    follows an occurrence of [flag], in order. *)
Fixpoint option_values (flag : string) (args : list string) : list string :=
  match args with
  | [] => []
  | a :: rest =>
      match rest with
      | [] => []
      | b :: _ =>
          if bool_decide (a = flag) then b :: option_values flag rest
          else option_values flag rest
      end
  end.

(** The value [build_mkvmerge_command] gives to [--track-name] for a track,
    if any, and the one it gives to [--default-track]. *)
Definition name_value (t : Track) : option string :=
  match properties t !! "track_name" with
  | None => Some (pretty (track_id t) +:+ ":")
  | Some PNone => None
  | Some v => Some (pretty (track_id t) +:+ ":" +:+ py_str v)
  end.

Definition default_value (t : Track) : option string :=
  match properties t !! "default_track" with
  | None => None
  | Some v =>
      Some (pretty (track_id t) +:+ ":" +:+ (if py_truthy v then "1" else "0"))
  end.

(** The tracks that display numbers stand for, in a group numbered from
    [start]. *)
Definition selected_tracks (group : list loc) (start : Z) (idxs : list Z)
  : list loc :=
  (λ i, group !!! Z.to_nat (i - start)) <$> idxs.

(** How many entries of [l] are [x]. *)
Definition occurrences {A} `{EqDecision A} (x : A) (l : list A) : nat :=
  length (filter (λ y, y = x) l).


(** [line] is turned down by a prompt whose display numbers run from
    [start] to [stop - 1]: it is not empty and not a keyword, and one of its
    comma-separated tokens is not an integer, or is an integer outside the
    range. *)
Definition rejected_selection (start stop : Z) (line : string) : Prop :=
  let raw := py_strip line in
  py_lower raw ≠ "all" ∧ py_lower raw ≠ "none" ∧ raw ≠ ""
  ∧ ∃ tok, tok ∈ py_split "," raw
           ∧ (py_int (py_strip tok) = None
              ∨ ∃ v, py_int (py_strip tok) = Some v
                     ∧ ¬ (start <= v < stop)).

Definition sorted_by_id (h : heap) (l : list loc) : Prop :=
  Sorted (λ a b, track_id (h !!! a) <= track_id (h !!! b)) l.

(** The track at [t] carries [default_track == True]. *)
Definition is_default_track (h : heap) (t : loc) : Prop :=
  properties (h !!! t) !! "default_track" = Some (PBool true).

(** Among the tracks of [tracks_to_modify] of type [ty], at most one
    carries [default_track == True]. *)
Definition at_most_one_default (h : heap) (tracks_to_modify : list loc)
    (ty : string) : Prop :=
  ∀ t1 t2, t1 ∈ tracks_to_modify → t2 ∈ tracks_to_modify →
    track_type (h !!! t1) = ty → track_type (h !!! t2) = ty →
    is_default_track h t1 → is_default_track h t2 → t1 = t2.

(** Every character of [s] satisfies [P]. *)
Fixpoint string_forallb (P : ascii → bool) (s : string) : bool :=
  match s with
  | EmptyString => true
  | String c s' => P c && string_forallb P s'
  end.

(** A character of a rendered integer: a decimal digit or the minus sign. *)
Definition number_char (c : ascii) : bool :=
  bool_decide (is_Some (digit_of c)) || bool_decide (c = "-"%char).

(** [display_tracks] can render the track: its [language], if present, is
    not [None], and its [track_name], if present, is a string. *)
Definition displayable (t : Track) : Prop :=
  properties t !! "language" ≠ Some PNone
  ∧ ∀ v, properties t !! "track_name" = Some v → ∃ s, v = PStr s.

(** [a] is [b] but for the keys [track_name] and [default_track] of its
    [properties]. *)
Definition same_but_name_and_default (a b : Track) : Prop :=
  track_id a = track_id b ∧ track_type a = track_type b ∧ codec a = codec b
  ∧ ∀ k, k ≠ "track_name" → k ≠ "default_track" →
      properties a !! k = properties b !! k.

(** [main] gets as far as building the command [mkvmerge_cmd], which it then
    runs or, when the user does not confirm, drops. *)
Definition main_builds (w : World) (stdin : list string)
    (mkvmerge_cmd : list string) : Prop :=
  main w stdin = Ran mkvmerge_cmd ∨ main w stdin = NotConfirmed mkvmerge_cmd.

(** Some track of [all_tracks] has type [ty]. *)
Definition has_track_of_type (h : heap) (all_tracks : list loc)
    (ty : string) : bool :=
  existsb (λ t, bool_decide (track_type (h !!! t) = ty)) all_tracks.

(** Lines that the path loop of [main] reads and turns down: a line whose
    stripped form is not a file; or a line whose stripped form is a file
    with a name that does not end in [.mkv], followed by an answer that,
    lowered, is not [y]. *)
Inductive rejected_paths (w : World) : list string → Prop :=
  | rejected_nil : rejected_paths w []
  | rejected_not_file line rest :
      isfile w (py_strip line) = false →
      rejected_paths w rest → rejected_paths w (line :: rest)
  | rejected_not_confirmed line answer rest :
      isfile w (py_strip line) = true →
      py_endswith (py_lower (py_strip line)) ".mkv" = false →
      py_lower answer ≠ "y" →
      rejected_paths w rest → rejected_paths w (line :: answer :: rest).

Definition starts_dashdash (s : string) : bool :=
  match s with
  | String c1 (String c2 _) =>
      bool_decide (c1 = "-"%char) && bool_decide (c2 = "-"%char)
  | _ => false
  end.

(** A world with one file, [in.mkv], that holds a video and two audio
    tracks, and where [in_modified.mkv] exists already. *)
Definition sample_world : World := {|
  mkvmerge_found := true;
  isfile := λ p, bool_decide (p = "in.mkv");
  path_exists := λ p,
    bool_decide (p = "in.mkv") || bool_decide (p = "in_modified.mkv");
  splitext := λ p,
    if bool_decide (p = "in.mkv") then ("in", ".mkv") else (p, "");
  get_mkv_info := λ p,
    if bool_decide (p = "in.mkv")
    then Some (mkMkvData (Some [mkTrack 1 "audio" "AAC" ∅;
                                mkTrack 0 "video" "AVC" ∅;
                                mkTrack 2 "audio" "AC3" ∅]))
    else None
|}.

Definition sample_command : list string :=
  ["mkvmerge"; "-q"; "-o"; "in_modified_1.mkv"; "--video-tracks"; "0";
   "--audio-tracks"; "2"; "--track-name"; "0:"; "--track-name"; "2:";
   "in.mkv"].

Example build_example :
  build_mkvmerge_command "in.mkv" "out.mkv"
    [mkTrack 1 "video" "AVC" ∅]
    (mkMkvData (Some [mkTrack 1 "video" "AVC" ∅; mkTrack 2 "audio" "AAC" ∅;
                      mkTrack 3 "audio" "AC3" ∅]))
  = ["mkvmerge"; "-q"; "-o"; "out.mkv"; "--video-tracks"; "1"; "--no-audio";
     "--track-name"; "1:"; "in.mkv"].
Proof. vm_compute. reflexivity. Qed.

Example py_int_examples :
  py_int " 12 " = Some 12 ∧ py_int "-3" = Some (-3) ∧ py_int "1_0" = Some 10
  ∧ py_int "1__0" = None ∧ py_int "" = None ∧ py_int "a" = None
  ∧ py_int "+" = None ∧ py_int "_1" = None ∧ py_int "1_" = None.
Proof. vm_compute. repeat split. Qed.

Example py_split_examples :
  py_split "," "1,2" = ["1"; "2"] ∧ py_split "," "" = [""]
  ∧ py_split "," "1," = ["1"; ""] ∧ py_strip "  a b  " = "a b"
  ∧ py_lower "ALL" = "all".
Proof. vm_compute. repeat split. Qed.

Example select_example :
  let h := [mkTrack 0 "video" "AVC" ∅; mkTrack 1 "audio" "AAC" ∅;
            mkTrack 2 "audio" "AC3" ∅] in
  select_tracks_to_keep h [0; 1; 2]%nat ["9"; "x"; " 3 , 3"]
  = (Ok [0; 2; 2]%nat, []).
Proof. vm_compute. reflexivity. Qed.

Example modify_example :
  let h := [mkTrack 1 "audio" "AAC" ∅] in
  modify_track_properties h [0; 0]%nat ["y"; "1"; "eng"; "y"; "f"]
  = (Ok (), [mkTrack 1 "audio" "AAC"
               (<["default_track" := PBool false]>
                  (<["track_name" := PStr "eng"]> ∅))], []).
Proof. vm_compute. reflexivity. Qed.

Example main_example :
  main sample_world [" in.mkv "; "3"; "n"; "r"; "y"] = Ran sample_command.
Proof. vm_compute. reflexivity. Qed.

(** ** Decimal rendering of integers *)

Lemma pretty_N_go_head (x : N) (s : string) :
  (0 < x)%N → ∃ c r, pretty_N_go x s = String c r ∧ c ≠ "-"%char.
Proof.
  revert s. induction (N.lt_wf_0 x) as [x _ IH]; intros s Hx.
  rewrite pretty_N_go_step by done.
  destruct (decide (x `div` 10 = 0)%N) as [->|Hdiv].
  - rewrite pretty_N_go_0. eexists _, _; split; [done|].
    unfold pretty_N_char. by repeat case_match.
  - apply IH; [by apply N.div_lt|by apply N.neq_0_lt_0].
Qed.

Lemma pretty_N_go_app (x : N) (s t : string) :
  pretty_N_go x s +:+ t = pretty_N_go x (s +:+ t).
Proof.
  revert s. induction (N.lt_wf_0 x) as [x _ IH]; intros s.
  destruct (decide (x = 0)%N) as [->|Hx]; [by rewrite !pretty_N_go_0|].
  rewrite (pretty_N_go_step x s), (pretty_N_go_step x (s +:+ t)) by lia.
  rewrite IH by (apply N.div_lt; lia). reflexivity.
Qed.

Lemma pretty_positive_head (p : positive) (s : string) :
  ∃ c r, pretty p +:+ s = String c r ∧ c ≠ "-"%char.
Proof.
  unfold pretty, pretty_positive, pretty, pretty_N.
  rewrite decide_False by done. rewrite pretty_N_go_app.
  by apply pretty_N_go_head.
Qed.

(** No rendered integer, whatever follows it, starts like a long option. *)
Lemma pretty_Z_not_dashdash (z : Z) (s : string) :
  starts_dashdash (pretty z +:+ s) = false.
Proof.
  destruct z as [|p|p]; [by destruct s| |].
  - destruct (pretty_positive_head p s) as (c & r & Heq & Hc).
    change (pretty (Z.pos p)) with (pretty p). rewrite Heq. simpl.
    destruct r; [done|]. by rewrite bool_decide_eq_false_2.
  - destruct (pretty_positive_head p s) as (c & r & Heq & Hc).
    change (pretty (Z.neg p) +:+ s) with (String "-" (pretty p +:+ s)).
    rewrite Heq. simpl. by rewrite (bool_decide_eq_false_2 (c = "-"%char)).
Qed.

Lemma append_empty_r (s : string) : s +:+ "" = s.
Proof. induction s as [|c s IH]; [done|]. by rewrite <-IH at 2. Qed.

Lemma py_join_cons_head (sep x : string) (l : list string) :
  ∃ r, py_join sep (x :: l) = x +:+ r.
Proof.
  destruct l as [|y l]; simpl.
  - exists "". by rewrite append_empty_r.
  - by eexists.
Qed.

(** ** What the command is made of *)

Lemma track_ids_of_type_nonempty (ty : string) (final_tracks : list Track) :
  track_ids_of_type ty final_tracks ≠ []
  ↔ ∃ t, t ∈ final_tracks ∧ track_type t = ty.
Proof.
  unfold track_ids_of_type. split.
  - intros Hne. destruct (filter _ final_tracks) as [|t l] eqn:Hf; [done|].
    assert (t ∈ filter (λ t, track_type t = ty) final_tracks) as Ht
      by (rewrite Hf; left).
    apply list_elem_of_filter in Ht as [??]. by exists t.
  - intros (t & Hin & Hty) Hnil. apply fmap_nil_inv in Hnil.
    assert (t ∈ filter (λ t, track_type t = ty) final_tracks) as Ht
      by (by apply list_elem_of_filter).
    rewrite Hnil in Ht. by apply elem_of_nil in Ht.
Qed.

Lemma existsb_track_type (ty : string) (l : list Track) :
  existsb (λ t, bool_decide (track_type t = ty)) l = true
  ↔ ∃ t, t ∈ l ∧ track_type t = ty.
Proof.
  rewrite existsb_exists. split; intros (t & Hin & Hty); exists t.
  - apply bool_decide_eq_true in Hty. by rewrite list_elem_of_In.
  - rewrite <-list_elem_of_In. by rewrite bool_decide_eq_true.
Qed.

Lemma track_selection_args_elem ty incl excl final_tracks orig x :
  x ∈ track_selection_args ty incl excl final_tracks orig →
  x = incl ∨ x = excl ∨ starts_dashdash x = false.
Proof.
  unfold track_selection_args. case_bool_decide as Hids.
  - destruct (track_ids_of_type ty final_tracks) as [|i ids] eqn:Heq; [done|].
    intros [->|[->|[]%elem_of_nil]%elem_of_cons]%elem_of_cons; [by left|].
    right; right. destruct (py_join_cons_head "," i ids) as [r ->].
    unfold track_ids_of_type in Heq.
    apply fmap_cons_inv in Heq as (t & l & -> & _ & _).
    apply pretty_Z_not_dashdash.
  - case_match; [|by intros ?%elem_of_nil].
    intros ->%list_elem_of_singleton. by right; left.
Qed.

Lemma track_property_args_elem track x :
  x ∈ track_property_args track →
  x = "--track-name" ∨ x = "--default-track" ∨ starts_dashdash x = false.
Proof.
  unfold track_property_args. intros [Hx|Hx]%elem_of_app.
  - repeat case_bool_decide; set_unfold in Hx;
      destruct_or?; subst; auto using pretty_Z_not_dashdash.
  - repeat case_bool_decide; set_unfold in Hx;
      destruct_or?; subst; auto using pretty_Z_not_dashdash.
Qed.

Lemma property_args_elem final_tracks x :
  x ∈ mjoin (track_property_args <$> final_tracks) →
  x = "--track-name" ∨ x = "--default-track" ∨ starts_dashdash x = false.
Proof.
  intros (l & Hx & (t & -> & _)%list_elem_of_fmap)%list_elem_of_join.
  by eapply track_property_args_elem.
Qed.

Lemma has_flag_value_app flag value pre l post :
  has_flag_value flag value l → has_flag_value flag value (pre ++ l ++ post).
Proof.
  intros (p & q & ->). exists (pre ++ p), (q ++ post).
  by rewrite <-!app_assoc.
Qed.

Lemma type_flags_shape ty incl excl :
  (ty, incl, excl) ∈ type_flags →
  incl ≠ excl ∧ starts_dashdash incl = true ∧ starts_dashdash excl = true
  ∧ (incl ∉ ["--track-name"; "--default-track"])
  ∧ (excl ∉ ["--track-name"; "--default-track"]).
Proof.
  unfold type_flags. rewrite !elem_of_cons, !elem_of_nil.
  intros [?|[?|[?|[]]]]; simplify_eq;
    repeat split; try done; by intros [?|[?|[]]].
Qed.

Lemma type_flags_apart ty incl excl ty' incl' excl' f :
  (ty, incl, excl) ∈ type_flags → (ty', incl', excl') ∈ type_flags →
  ty ≠ ty' → f ∈ [incl; excl] → f ≠ incl' ∧ f ≠ excl'.
Proof.
  unfold type_flags. rewrite !elem_of_cons, !elem_of_nil.
  intros [?|[?|[?|[]]]] [?|[?|[?|[]]]] Hne [?|[?|[]]];
    simplify_eq; by split.
Qed.

Lemma not_in_track_selection_args ty incl excl final_tracks orig f :
  f ≠ incl → f ≠ excl → starts_dashdash f = true →
  f ∉ track_selection_args ty incl excl final_tracks orig.
Proof.
  intros ??? [?|[?|?]]%track_selection_args_elem; congruence.
Qed.

Lemma not_in_property_args final_tracks f :
  f ∉ ["--track-name"; "--default-track"] → starts_dashdash f = true →
  f ∉ mjoin (track_property_args <$> final_tracks).
Proof.
  intros Hf ? [?|[?|?]]%property_args_elem; [set_solver..|congruence].
Qed.

(** The block of one type, wherever it stands in the command. *)
Lemma track_selection_args_in_context ty incl excl final_tracks orig A B :
  incl ≠ excl → starts_dashdash excl = true →
  incl ∉ A → excl ∉ A → incl ∉ B → excl ∉ B →
  let options := A ++ track_selection_args ty incl excl final_tracks orig ++ B in
  let ids := (λ t, pretty (track_id t))
               <$> filter (λ t, track_type t = ty) final_tracks in
  ((∃ t, t ∈ final_tracks ∧ track_type t = ty) →
     (∃ pre post, options = pre ++ incl :: py_join "," ids :: post
                  ∧ (incl ∉ pre) ∧ (incl ∉ post))
     ∧ (excl ∉ options))
  ∧ (¬ (∃ t, t ∈ final_tracks ∧ track_type t = ty) →
     (∃ t, t ∈ orig ∧ track_type t = ty) →
     excl ∈ options ∧ (incl ∉ options))
  ∧ (¬ (∃ t, t ∈ final_tracks ∧ track_type t = ty) →
     ¬ (∃ t, t ∈ orig ∧ track_type t = ty) →
     (incl ∉ options) ∧ (excl ∉ options)).
Proof.
  intros Hne Hdd HiA HeA HiB HeB options ids. subst options.
  unfold track_selection_args. fold ids.
  change (track_ids_of_type ty final_tracks) with ids.
  split; [|split].
  - intros Hhas%track_ids_of_type_nonempty.
    rewrite bool_decide_eq_true_2 by done. split.
    + by exists A, B.
    + rewrite !not_elem_of_app, !not_elem_of_cons.
      repeat split; try done; [|apply not_elem_of_nil].
      intros Heq. subst ids. unfold track_ids_of_type in Hhas.
      destruct (filter _ final_tracks) as [|t l]; [done|].
      rewrite fmap_cons in Heq.
      destruct (py_join_cons_head "," (pretty (track_id t))
                  ((λ t, pretty (track_id t)) <$> l)) as [r Hr].
      rewrite Hr in Heq. rewrite Heq, pretty_Z_not_dashdash in Hdd. done.
  - intros Hnot%(not_iff_compat (track_ids_of_type_nonempty _ _)) Horig.
    rewrite bool_decide_eq_false_2 by done.
    apply existsb_track_type in Horig. rewrite Horig.
    rewrite !not_elem_of_app, !elem_of_app, !not_elem_of_cons.
    split; [right; left; left|]. repeat split; auto using not_elem_of_nil.
  - intros Hnot%(not_iff_compat (track_ids_of_type_nonempty _ _)) Horig.
    rewrite bool_decide_eq_false_2 by done.
    rewrite <-existsb_track_type in Horig.
    apply not_true_is_false in Horig. rewrite Horig.
    rewrite !not_elem_of_app. repeat split; auto using not_elem_of_nil.
Qed.

Lemma build_mkvmerge_command_shape inp out final_tracks orig :
  build_mkvmerge_command inp out final_tracks orig
  = ["mkvmerge"; "-q"; "-o"; out]
    ++ (track_selection_args "video" "--video-tracks" "--no-video"
          final_tracks (default [] (tracks orig))
        ++ track_selection_args "audio" "--audio-tracks" "--no-audio"
             final_tracks (default [] (tracks orig))
        ++ track_selection_args "subtitles" "--subtitle-tracks"
             "--no-subtitles" final_tracks (default [] (tracks orig))
        ++ mjoin (track_property_args <$> final_tracks))
    ++ [inp].
Proof. unfold build_mkvmerge_command. by rewrite <-!app_assoc. Qed.

Lemma track_property_args_in_command inp out final_tracks orig t :
  t ∈ final_tracks →
  ∃ pre post, build_mkvmerge_command inp out final_tracks orig
              = pre ++ track_property_args t ++ post.
Proof.
  intros (l1 & l2 & ->)%list_elem_of_split.
  rewrite build_mkvmerge_command_shape.
  rewrite fmap_app, fmap_cons, join_app.
  exists (["mkvmerge"; "-q"; "-o"; out]
          ++ track_selection_args "video" "--video-tracks" "--no-video"
               (l1 ++ t :: l2) (default [] (tracks orig))
          ++ track_selection_args "audio" "--audio-tracks" "--no-audio"
               (l1 ++ t :: l2) (default [] (tracks orig))
          ++ track_selection_args "subtitles" "--subtitle-tracks"
               "--no-subtitles" (l1 ++ t :: l2) (default [] (tracks orig))
          ++ mjoin (track_property_args <$> l1)),
         (mjoin (track_property_args <$> l2) ++ [inp]).
  change (mjoin (track_property_args t :: (track_property_args <$> l2)))
    with (track_property_args t ++ mjoin (track_property_args <$> l2)).
  by rewrite <-!app_assoc.
Qed.

(** ** Command Synthesizer *)

(** C1, as the code has it.  The command is [mkvmerge -q -o <output>], then
    the options, then the input path; the two paths are copied as they are
    given.  For each of the three types, with its inclusion and its
    exclusion flag: when a final track has the type, the options hold the
    inclusion flag once, followed by the comma-joined ids of the final tracks
    of the type in their order, and do not hold the exclusion flag; else,
    when an original track has the type, they hold the exclusion flag and
    not the inclusion flag; else they hold neither. *)
Theorem build_command_track_filters inp out final_tracks orig ty incl excl :
  (ty, incl, excl) ∈ type_flags →
  ∃ options,
    build_mkvmerge_command inp out final_tracks orig
    = ["mkvmerge"; "-q"; "-o"; out] ++ options ++ [inp]
    ∧ let ids := (λ t, pretty (track_id t))
                   <$> filter (λ t, track_type t = ty) final_tracks in
      let in_final := ∃ t, t ∈ final_tracks ∧ track_type t = ty in
      let in_original :=
        ∃ t, t ∈ default [] (tracks orig) ∧ track_type t = ty in
      (in_final →
         (∃ pre post, options = pre ++ incl :: py_join "," ids :: post
                      ∧ (incl ∉ pre) ∧ (incl ∉ post))
         ∧ (excl ∉ options))
      ∧ (¬ in_final → in_original → excl ∈ options ∧ (incl ∉ options))
      ∧ (¬ in_final → ¬ in_original →
         (incl ∉ options) ∧ (excl ∉ options)).
Proof.
  intros Hty. eexists. split; [apply build_mkvmerge_command_shape|].
  destruct (type_flags_shape _ _ _ Hty) as (Hne & Hi & He & Hip & Hep).
  assert (∀ ty' incl' excl' f, (ty', incl', excl') ∈ type_flags → ty ≠ ty' →
            f = incl ∨ f = excl →
            f ∉ track_selection_args ty' incl' excl' final_tracks
                  (default [] (tracks orig))) as Hother.
  { intros ty' incl' excl' f Hty' Hdiff Hf.
    assert (f ∈ [incl; excl]) as Hf'
      by (rewrite !elem_of_cons; tauto).
    destruct (type_flags_apart _ _ _ _ _ _ f Hty Hty' Hdiff Hf').
    apply not_in_track_selection_args; [done..|].
    by destruct Hf as [->| ->]. }
  assert (∀ f, f = incl ∨ f = excl →
            f ∉ mjoin (track_property_args <$> final_tracks)) as Hprops.
  { intros f [->| ->]; by apply not_in_property_args. }
  assert (("video", "--video-tracks", "--no-video") ∈ type_flags) as Hv
    by (unfold type_flags; rewrite !elem_of_cons; tauto).
  assert (("audio", "--audio-tracks", "--no-audio") ∈ type_flags) as Ha
    by (unfold type_flags; rewrite !elem_of_cons; tauto).
  assert (("subtitles", "--subtitle-tracks", "--no-subtitles") ∈ type_flags)
    as Hs by (unfold type_flags; rewrite !elem_of_cons; tauto).
  pose proof (Hother _ _ _ incl Hv) as Hvi.
  pose proof (Hother _ _ _ excl Hv) as Hve.
  pose proof (Hother _ _ _ incl Ha) as Hai.
  pose proof (Hother _ _ _ excl Ha) as Hae.
  pose proof (Hother _ _ _ incl Hs) as Hsi.
  pose proof (Hother _ _ _ excl Hs) as Hse.
  pose proof (Hprops incl) as Hpi. pose proof (Hprops excl) as Hpe.
  clear Hother Hprops Hv Ha Hs.
  unfold type_flags in Hty. rewrite !elem_of_cons, elem_of_nil in Hty.
  destruct Hty as [?|[?|[?|[]]]]; simplify_eq.
  - apply (track_selection_args_in_context _ _ _ _ _ []); try done;
      try apply not_elem_of_nil;
      rewrite !not_elem_of_app; repeat split; auto.
  - apply (track_selection_args_in_context _ _ _ _ _ _ (_ ++ _)); try done;
      rewrite ?not_elem_of_app; repeat split; auto.
  - rewrite (app_assoc (track_selection_args "video" _ _ _ _)).
    apply (track_selection_args_in_context _ _ _ _ _ (_ ++ _)); try done;
      rewrite ?not_elem_of_app; repeat split; auto.
Qed.

(** C1 as stated fails on the whole argument list: the input path is its
    last element, so with a final video track and an input file named
    [--no-video] the list holds the inclusion filter and also the string
    [--no-video]. *)
Lemma build_command_input_path_named_as_flag :
  (∃ t, t ∈ [mkTrack 0 "video" "AVC" ∅] ∧ track_type t = "video")
  ∧ build_mkvmerge_command "--no-video" "out.mkv" [mkTrack 0 "video" "AVC" ∅]
      (mkMkvData (Some [mkTrack 0 "video" "AVC" ∅]))
    = ["mkvmerge"; "-q"; "-o"; "out.mkv"; "--video-tracks"; "0";
       "--track-name"; "0:"; "--no-video"]
  ∧ "--no-video"
    ∈ build_mkvmerge_command "--no-video" "out.mkv"
        [mkTrack 0 "video" "AVC" ∅]
        (mkMkvData (Some [mkTrack 0 "video" "AVC" ∅])).
Proof.
  split; [|split].
  - exists (mkTrack 0 "video" "AVC" ∅). split; [left|reflexivity].
  - reflexivity.
  - apply list_elem_of_lookup. exists 8%nat. reflexivity.
Qed.

(** ** Values of an option *)

Lemma option_values_elem flag value args :
  value ∈ option_values flag args ↔ has_flag_value flag value args.
Proof.
  split.
  - induction args as [|a rest IH]; simpl; [by intros ?%elem_of_nil|].
    destruct rest as [|b rest']; [by intros ?%elem_of_nil|].
    case_bool_decide as Ha.
    + intros [->|Hin]%elem_of_cons.
      * subst a. by exists [], rest'.
      * destruct (IH Hin) as (pre & post & Heq).
        exists (a :: pre), post. by rewrite Heq.
    + intros Hin. destruct (IH Hin) as (pre & post & Heq).
      exists (a :: pre), post. by rewrite Heq.
  - intros (pre & post & ->). induction pre as [|a pre IH]; simpl.
    + rewrite bool_decide_eq_true_2 by done. left.
    + destruct (pre ++ flag :: value :: post) as [|b l] eqn:Heq.
      { by destruct pre. }
      case_bool_decide; [right|]; done.
Qed.

Lemma option_values_not_in flag args :
  flag ∉ args → option_values flag args = [].
Proof.
  induction args as [|a rest IH]; [done|].
  intros [Hne Hrest]%not_elem_of_cons. simpl.
  destruct rest; [done|]. rewrite bool_decide_eq_false_2 by done. auto.
Qed.

Lemma option_values_cons2 flag a b l :
  option_values flag (a :: b :: l)
  = if bool_decide (a = flag) then b :: option_values flag (b :: l)
    else option_values flag (b :: l).
Proof. reflexivity. Qed.

Lemma option_values_app flag A B :
  last A ≠ Some flag →
  option_values flag (A ++ B) = option_values flag A ++ option_values flag B.
Proof.
  induction A as [|a A IH]; [done|]. intros Hlast.
  destruct A as [|b A].
  - simpl in *. destruct B; [done|].
    rewrite bool_decide_eq_false_2; [done|congruence].
  - rewrite <-!app_comm_cons, !option_values_cons2.
    rewrite app_comm_cons, IH by done. by case_bool_decide.
Qed.

Lemma track_property_args_last track flag :
  starts_dashdash flag = true → last (track_property_args track) ≠ Some flag.
Proof.
  intros Hflag Hlast. apply last_Some in Hlast as [l' Heq].
  assert (flag ∈ track_property_args track) as Hin
    by (rewrite Heq, elem_of_app, list_elem_of_singleton; by right).
  revert Heq. unfold track_property_args.
  repeat case_bool_decide; simpl; intros Heq;
    repeat (destruct l' as [|? l']; simplify_eq/=);
    by rewrite pretty_Z_not_dashdash in Hflag.
Qed.

Lemma property_args_last final_tracks flag :
  starts_dashdash flag = true →
  last (mjoin (track_property_args <$> final_tracks)) ≠ Some flag.
Proof.
  intros Hflag. induction final_tracks as [|t l IH]; [done|].
  rewrite fmap_cons.
  change (last (track_property_args t
                ++ mjoin (track_property_args <$> l)) ≠ Some flag).
  destruct (mjoin (track_property_args <$> l)) as [|x k] eqn:Heq.
  - rewrite app_nil_r. by apply track_property_args_last.
  - rewrite last_app_cons. exact IH.
Qed.

Lemma option_values_property_args flag (f : Track → option string)
    final_tracks :
  starts_dashdash flag = true →
  (∀ t, option_values flag (track_property_args t) = option_list (f t)) →
  option_values flag (mjoin (track_property_args <$> final_tracks))
  = omap f final_tracks.
Proof.
  intros Hflag Hone. induction final_tracks as [|t l IH]; [done|].
  rewrite fmap_cons.
  change (option_values flag (track_property_args t
            ++ mjoin (track_property_args <$> l)) = omap f (t :: l)).
  rewrite option_values_app by (by apply track_property_args_last).
  rewrite IH, Hone. simpl. by destruct (f t).
Qed.

Lemma id_value_not_flag (z : Z) s flag :
  starts_dashdash flag = true → pretty z +:+ s ≠ flag.
Proof. intros Hflag <-. by rewrite pretty_Z_not_dashdash in Hflag. Qed.

Ltac option_values_by_cases :=
  repeat (case_bool_decide; simplify_eq/=; try done);
  repeat first
    [ rewrite option_values_cons2
    | rewrite bool_decide_eq_true_2 by done
    | rewrite bool_decide_eq_false_2 by (by apply id_value_not_flag)
    | rewrite bool_decide_eq_false_2 by done ];
  try done;
  try (exfalso; eapply id_value_not_flag; [|eassumption]; done).

Lemma option_values_name track :
  option_values "--track-name" (track_property_args track)
  = option_list (name_value track).
Proof.
  unfold track_property_args, name_value.
  destruct (properties track !! "track_name") as [[]|];
    destruct (properties track !! "default_track");
    option_values_by_cases.
Qed.

Lemma option_values_default track :
  option_values "--default-track" (track_property_args track)
  = option_list (default_value track).
Proof.
  unfold track_property_args, default_value.
  destruct (properties track !! "track_name") as [[]|];
    destruct (properties track !! "default_track");
    option_values_by_cases.
Qed.

Lemma last_not_in {A} (x : A) (l : list A) : x ∉ l → last l ≠ Some x.
Proof.
  intros Hnot [l' ->]%last_Some. apply Hnot.
  rewrite elem_of_app, list_elem_of_singleton. by right.
Qed.

(** The values of a per-track option in the command: the selection blocks
    give it none, and each track gives what its loop iteration gives. *)
Lemma build_command_option_values inp out final_tracks orig flag f :
  flag = "--track-name" ∨ flag = "--default-track" →
  (∀ t, option_values flag (track_property_args t) = option_list (f t)) →
  ∃ options,
    build_mkvmerge_command inp out final_tracks orig
    = ["mkvmerge"; "-q"; "-o"; out] ++ options ++ [inp]
    ∧ option_values flag options = omap f final_tracks.
Proof.
  intros Hflag Hone. eexists. split; [apply build_mkvmerge_command_shape|].
  assert (starts_dashdash flag = true) as Hdd by (by destruct Hflag as [->| ->]).
  assert (∀ ty incl excl, (ty, incl, excl) ∈ type_flags →
            flag ∉ track_selection_args ty incl excl final_tracks
                     (default [] (tracks orig))) as Hsel.
  { intros ty incl excl Hty.
    destruct (type_flags_shape _ _ _ Hty) as (_ & _ & _ & Hi & He).
    rewrite !not_elem_of_cons in Hi, He.
    apply not_in_track_selection_args; [| |done];
      destruct Hflag as [->| ->]; intuition congruence. }
  assert (∀ ty incl excl, (ty, incl, excl) ∈ type_flags →
            ∀ B, option_values flag
                   (track_selection_args ty incl excl final_tracks
                      (default [] (tracks orig)) ++ B)
                 = option_values flag B) as Hskip.
  { intros ty incl excl Hty B.
    rewrite option_values_app by (by apply last_not_in, Hsel).
    rewrite option_values_not_in by (by apply Hsel). done. }
  rewrite !Hskip by (unfold type_flags; rewrite !elem_of_cons; tauto).
  by apply option_values_property_args.
Qed.

(** C2.  For a track of [final_tracks]: when its [track_name] is a string,
    the command holds [--track-name] followed by [<id>:<name>]; when the
    [track_name] key is absent, it holds [--track-name] followed by [<id>:];
    so a track whose [properties] is the empty dict gets [<id>:]. *)
Theorem build_command_track_name inp out final_tracks orig t :
  t ∈ final_tracks →
  let command := build_mkvmerge_command inp out final_tracks orig in
  (∀ name, properties t !! "track_name" = Some (PStr name) →
     has_flag_value "--track-name"
       (pretty (track_id t) +:+ ":" +:+ name) command)
  ∧ (properties t !! "track_name" = None →
     has_flag_value "--track-name" (pretty (track_id t) +:+ ":") command)
  ∧ (properties t = ∅ →
     has_flag_value "--track-name" (pretty (track_id t) +:+ ":") command).
Proof.
  intros Hin command.
  destruct (track_property_args_in_command inp out _ orig _ Hin)
    as (pre & post & Hcmd).
  assert (∀ value, name_value t = Some value →
            has_flag_value "--track-name" value command) as Hval.
  { intros value Hv. subst command. rewrite Hcmd.
    apply has_flag_value_app, option_values_elem.
    rewrite option_values_name, Hv. left. }
  split; [|split].
  - intros name Hname. apply Hval. unfold name_value. by rewrite Hname.
  - intros Hnone. apply Hval. unfold name_value. by rewrite Hnone.
  - intros Hempty. apply Hval. unfold name_value.
    by rewrite Hempty, lookup_empty.
Qed.

(** C5.  The values given to [--default-track] in the options of the command
    are, in the order of [final_tracks], one per track whose [properties]
    holds the [default_track] key and none for a track that lacks it; the
    value is [<id>:1] when the flag is true and [<id>:0] when it is false,
    and the command holds [--default-track] followed by it. *)
Theorem build_command_default_track inp out final_tracks orig :
  ∃ options,
    build_mkvmerge_command inp out final_tracks orig
    = ["mkvmerge"; "-q"; "-o"; out] ++ options ++ [inp]
    ∧ option_values "--default-track" options
      = omap default_value final_tracks
    ∧ (∀ t value, t ∈ final_tracks → default_value t = Some value →
         has_flag_value "--default-track" value
           (build_mkvmerge_command inp out final_tracks orig))
    ∧ ∀ t,
        (is_Some (default_value t)
         ↔ is_Some (properties t !! "default_track"))
        ∧ (∀ b, properties t !! "default_track" = Some (PBool b) →
             default_value t
             = Some (pretty (track_id t) +:+ ":" +:+ if b then "1" else "0"))
        ∧ (properties t !! "default_track" = None →
           "--default-track" ∉ track_property_args t).
Proof.
  destruct (build_command_option_values inp out final_tracks orig
              "--default-track" default_value) as (options & Hcmd & Hval);
    [by right|apply option_values_default|].
  exists options. split; [done|]. split; [done|]. split.
  { intros t value Ht Hvalue. rewrite Hcmd.
    apply has_flag_value_app, option_values_elem. rewrite Hval.
    apply list_elem_of_omap. by exists t. }
  intros t. unfold default_value. split; [|split].
  - destruct (properties t !! "default_track"); split; by eauto.
  - by intros b ->.
  - intros Hnone Hin.
    pose proof (option_values_default t) as Hv.
    unfold default_value in Hv. rewrite Hnone in Hv.
    unfold track_property_args in Hin. rewrite Hnone in Hin.
    rewrite (bool_decide_eq_false_2 (is_Some None)) in Hin
      by apply is_Some_None.
    rewrite app_nil_r in Hin.
    repeat case_bool_decide; rewrite ?elem_of_cons, ?elem_of_nil in Hin;
      destruct_or?; try done;
      (eapply id_value_not_flag; [|symmetry; eassumption]; done).
Qed.

(** C10.  A track of [final_tracks] whose [properties] holds [track_name]
    with the value [None] gets no [--track-name] argument: its loop iteration
    appends none, and the values given to [--track-name] in the options are
    those of the other tracks. *)
Theorem build_command_null_track_name inp out l1 t l2 orig :
  properties t !! "track_name" = Some PNone →
  ∃ options,
    build_mkvmerge_command inp out (l1 ++ t :: l2) orig
    = ["mkvmerge"; "-q"; "-o"; out] ++ options ++ [inp]
    ∧ option_values "--track-name" options
      = omap name_value l1 ++ omap name_value l2
    ∧ "--track-name" ∉ track_property_args t.
Proof.
  intros Hnull.
  destruct (build_command_option_values inp out (l1 ++ t :: l2) orig
              "--track-name" name_value) as (options & Hcmd & Hval);
    [by left|apply option_values_name|].
  exists options. split; [done|]. split.
  - rewrite Hval, omap_app. simpl. unfold name_value at 2.
    by rewrite Hnull.
  - unfold track_property_args. rewrite Hnull.
    rewrite (bool_decide_eq_false_2 (default PNone (Some PNone) ≠ PNone))
      by (by intros ?).
    rewrite (bool_decide_eq_false_2 (Some PNone = None)) by done.
    case_bool_decide; [|apply not_elem_of_nil].
    rewrite app_nil_l, !not_elem_of_cons. repeat split; try done;
      [|apply not_elem_of_nil].
    intros Heq. eapply id_value_not_flag; [|symmetry; exact Heq]. done.
Qed.

(** ** Display numbers *)

Lemma number_tracks_cons t group m n :
  number_tracks (t :: group) m n = number_tracks group (<[n := t]> m) (n + 1).
Proof. reflexivity. Qed.

Lemma number_tracks_snd group m n :
  (number_tracks group m n).2 = n + Z.of_nat (length group).
Proof.
  revert m n. induction group as [|t group IH]; intros m n.
  - simpl. lia.
  - rewrite number_tracks_cons, IH. simpl length. lia.
Qed.

Lemma number_tracks_lookup_below group (m : gmap Z loc) n k :
  k < n → (number_tracks group m n).1 !! k = m !! k.
Proof.
  revert m n. induction group as [|t group IH]; intros m n Hk; [done|].
  rewrite number_tracks_cons, IH by lia. apply lookup_insert_ne. lia.
Qed.

Lemma number_tracks_lookup group (m : gmap Z loc) n (i : nat) :
  (i < length group)%nat →
  (number_tracks group m n).1 !! (n + Z.of_nat i) = group !! i.
Proof.
  revert m n i. induction group as [|t group IH]; intros m n i Hi.
  - simpl in Hi. lia.
  - rewrite number_tracks_cons. destruct i as [|i].
    + rewrite number_tracks_lookup_below by lia.
      rewrite Z.add_0_r. apply lookup_insert_eq.
    + replace (n + Z.of_nat (S i)) with ((n + 1) + Z.of_nat i) by lia.
      rewrite IH by (simpl in Hi; lia). done.
Qed.

Lemma append_selected_omap (m : gmap Z loc) kept idxs :
  append_selected m kept idxs = kept ++ omap (λ i, m !! i) idxs.
Proof.
  revert kept. induction idxs as [|i idxs IH]; intros kept.
  - by rewrite app_nil_r.
  - unfold append_selected in *. simpl. rewrite IH.
    destruct (m !! i); [by rewrite <-app_assoc|done].
Qed.

Lemma omap_numbered group (m : gmap Z loc) n idxs :
  Forall (λ i, n <= i < n + Z.of_nat (length group)) idxs →
  omap (λ i, (number_tracks group m n).1 !! i) idxs
  = selected_tracks group n idxs.
Proof.
  induction 1 as [|i idxs Hi _ IH]; [done|].
  unfold selected_tracks in *. rewrite fmap_cons, <-IH.
  change (omap ?f (i :: idxs))
    with (match f i with Some x => x :: omap f idxs | None => omap f idxs end).
  cbv beta.
  replace ((number_tracks group m n).1 !! i)
    with ((number_tracks group m n).1 !! (n + Z.of_nat (Z.to_nat (i - n))))
    by (f_equal; lia).
  rewrite number_tracks_lookup by lia.
  by rewrite (list_lookup_lookup_total_lt group) by lia.
Qed.

Lemma selected_tracks_all group n :
  selected_tracks group n (seqZ n (Z.of_nat (length group))) = group.
Proof.
  apply list_eq. intros i. unfold selected_tracks.
  rewrite list_lookup_fmap.
  destruct (decide (i < length group)%nat) as [Hi|Hi].
  - rewrite lookup_seqZ_lt by lia. simpl.
    replace (Z.to_nat (n + Z.of_nat i - n)) with i by lia.
    by rewrite (list_lookup_lookup_total_lt group) by lia.
  - rewrite lookup_seqZ_ge by lia. simpl.
    symmetry. apply lookup_ge_None. lia.
Qed.

(** ** One prompted group *)

Lemma selection_loop_cons (m : gmap Z loc) s e kept line rest :
  selection_loop m s e kept (line :: rest)
  = match read_selection s e (py_strip line) with
    | Some idxs => (Ok (append_selected m kept idxs), rest)
    | None => selection_loop m s e kept rest
    end.
Proof. reflexivity. Qed.

Lemma select_group_nil (m : gmap Z loc) n kept stdin :
  select_group [] m n kept stdin = (Ok (m, n, kept), stdin).
Proof. reflexivity. Qed.

Lemma select_group_answer group (m : gmap Z loc) n kept line rest idxs :
  group ≠ [] →
  read_selection n (n + Z.of_nat (length group)) (py_strip line) = Some idxs →
  Forall (λ i, n <= i < n + Z.of_nat (length group)) idxs →
  select_group group m n kept (line :: rest)
  = (Ok ((number_tracks group m n).1, n + Z.of_nat (length group),
         kept ++ selected_tracks group n idxs), rest).
Proof.
  intros Hne Hread Hrange. unfold select_group.
  destruct group as [|t group]; [done|].
  pose proof (number_tracks_snd (t :: group) m n) as Hsnd.
  destruct (number_tracks (t :: group) m n) as [m' n'] eqn:Hnum.
  cbn [snd] in Hsnd. subst n'. rewrite selection_loop_cons, Hread.
  rewrite append_selected_omap.
  replace m' with (number_tracks (t :: group) m n).1 by (by rewrite Hnum).
  by rewrite omap_numbered.
Qed.

Lemma select_group_retry group (m : gmap Z loc) n kept line rest :
  group ≠ [] →
  read_selection n (n + Z.of_nat (length group)) (py_strip line) = None →
  select_group group m n kept (line :: rest)
  = select_group group m n kept rest.
Proof.
  intros Hne Hread. unfold select_group.
  destruct group as [|t group]; [done|].
  pose proof (number_tracks_snd (t :: group) m n) as Hsnd.
  destruct (number_tracks (t :: group) m n) as [m' n'] eqn:Hnum.
  cbn [snd] in Hsnd. subst n'. by rewrite selection_loop_cons, Hread.
Qed.

Lemma read_selection_all s e raw :
  py_lower raw = "all" → read_selection s e raw = Some (seqZ s (e - s)).
Proof. intros H. unfold read_selection. by rewrite bool_decide_eq_true_2. Qed.

Lemma read_selection_none s e raw :
  py_lower raw ≠ "all" → py_lower raw = "none" ∨ raw = "" →
  read_selection s e raw = Some [].
Proof.
  intros Hall Hnone. unfold read_selection.
  rewrite bool_decide_eq_false_2 by done.
  destruct Hnone as [Hn| ->].
  - by rewrite (bool_decide_eq_true_2 _ Hn).
  - rewrite (bool_decide_eq_true_2 ("" = "")) by done.
    by rewrite orb_true_r.
Qed.

Lemma read_selection_explicit s e raw :
  py_lower raw ≠ "all" → py_lower raw ≠ "none" → raw ≠ "" →
  read_selection s e raw
  = match mapM (λ x, py_int (py_strip x)) (py_split "," raw) with
    | None => None
    | Some idxs =>
        if forallb (λ i, (s <=? i) && (i <? e)) idxs then Some idxs else None
    end.
Proof.
  intros. unfold read_selection. by rewrite !bool_decide_eq_false_2.
Qed.

Lemma forallb_in_range s e idxs :
  forallb (λ i, (s <=? i) && (i <? e)) idxs = true
  ↔ Forall (λ i, s <= i < e) idxs.
Proof.
  rewrite forallb_forall, Forall_forall. split; intros H i Hi.
  - apply list_elem_of_In, H in Hi. lia.
  - apply list_elem_of_In, H in Hi. lia.
Qed.

(** ** The stable sort *)

Section py_sort.
Context {A : Type} (key : A → Z).

Lemma insert_by_key_perm x l : insert_by_key key x l ≡ₚ x :: l.
Proof.
  induction l as [|y l IH]; simpl; [done|].
  case_match; [done|]. rewrite IH. apply Permutation_swap.
Qed.

Lemma py_sort_perm l : py_sort key l ≡ₚ l.
Proof.
  induction l as [|x l IH]; simpl; [done|].
  by rewrite insert_by_key_perm, IH.
Qed.

Lemma insert_by_key_sorted x l :
  StronglySorted (λ a b, key a <= key b) l →
  StronglySorted (λ a b, key a <= key b) (insert_by_key key x l).
Proof.
  induction 1 as [|y l Hl IH Hy]; simpl.
  - repeat constructor.
  - destruct (Z.leb_spec (key x) (key y)) as [Hle|Hlt].
    + constructor; [by constructor|]. constructor; [done|].
      eapply Forall_impl; [exact Hy|]. simpl. intros; lia.
    + constructor; [done|].
      rewrite insert_by_key_perm. constructor; [lia|done].
Qed.

Lemma py_sort_sorted l : Sorted (λ a b, key a <= key b) (py_sort key l).
Proof.
  apply StronglySorted_Sorted.
  induction l as [|x l IH]; simpl; [constructor|].
  by apply insert_by_key_sorted.
Qed.
End py_sort.

Lemma selection_loop_extends (m : gmap Z loc) s e kept stdin kept' stdin' :
  selection_loop m s e kept stdin = (Ok kept', stdin') →
  ∃ extra, kept' = kept ++ extra.
Proof.
  induction stdin as [|line stdin IH]; [done|].
  rewrite selection_loop_cons. destruct (read_selection _ _ _); [|done].
  intros [= <- _]. rewrite append_selected_omap. by eexists.
Qed.

Lemma select_group_extends group (m : gmap Z loc) n kept stdin st stdin' :
  select_group group m n kept stdin = (Ok st, stdin') →
  ∃ extra, st.2 = kept ++ extra.
Proof.
  unfold select_group. destruct group as [|t group].
  - intros [= <- _]. exists []. by rewrite app_nil_r.
  - destruct (number_tracks _ _ _) as [m' n'].
    destruct (selection_loop _ _ _ _ _) as [[kept'|?] ?] eqn:Hloop; [|done].
    intros [= <- _]. by eapply selection_loop_extends.
Qed.

Lemma select_tracks_to_keep_result h all_tracks stdin kept stdin' :
  select_tracks_to_keep h all_tracks stdin = (Ok kept, stdin') →
  ∃ extra, kept = py_sort (λ t, track_id (h !!! t))
                    (tracks_of_type h "video" all_tracks ++ extra).
Proof.
  unfold select_tracks_to_keep.
  destruct (number_tracks _ ∅ 1) as [m0 n0].
  destruct (select_group _ m0 n0 _ stdin) as [[[[m1 n1] k1]|?] s1] eqn:Ha;
    [|done].
  destruct (select_group _ m1 n1 k1 s1) as [[[[m2 n2] k2]|?] s2] eqn:Hs;
    [|done].
  intros [= <- _].
  apply select_group_extends in Ha as [xa Ha], Hs as [xs Hs].
  simpl in Ha, Hs. subst. exists (xa ++ xs). by rewrite app_assoc.
Qed.

(** ** Selection Engine *)

(** With each prompted group answered by a keyword or an empty line: what
    is returned, in terms of the three groups. *)
Lemma select_tracks_to_keep_keywords h all_tracks :
  let video_tracks := tracks_of_type h "video" all_tracks in
  let audio_tracks := tracks_of_type h "audio" all_tracks in
  let subtitle_tracks := tracks_of_type h "subtitles" all_tracks in
  let is_all line := py_lower (py_strip line) = "all" in
  let is_none line :=
    py_lower (py_strip line) = "none" ∨ py_strip line = "" in
  (∀ stdin kept stdin',
     select_tracks_to_keep h all_tracks stdin = (Ok kept, stdin') →
     sorted_by_id h kept ∧ ∀ t, t ∈ video_tracks → t ∈ kept)
  ∧ (∀ la ls rest,
       is_all la ∨ is_none la → is_all ls ∨ is_none ls →
       ∃ kept,
         select_tracks_to_keep h all_tracks
           ((if audio_tracks is [] then [] else [la])
            ++ (if subtitle_tracks is [] then [] else [ls]) ++ rest)
         = (Ok kept, rest)
         ∧ sorted_by_id h kept
         ∧ kept ≡ₚ video_tracks
                   ++ (if bool_decide (is_all la) then audio_tracks else [])
                   ++ (if bool_decide (is_all ls) then subtitle_tracks
                       else [])).
Proof.
  intros video_tracks audio_tracks subtitle_tracks is_all is_none.
  assert (∀ group (m : gmap Z loc) n kept line rest,
            group ≠ [] → is_all line ∨ is_none line →
            select_group group m n kept (line :: rest)
            = (Ok ((number_tracks group m n).1,
                   n + Z.of_nat (length group),
                   kept ++ (if bool_decide (is_all line) then group else [])),
               rest)) as Hgroup.
  { intros group m n kept line rest Hne Hline.
    destruct (decide (is_all line)) as [Hall|Hnall].
    - rewrite bool_decide_eq_true_2 by done.
      rewrite (select_group_answer group m n kept line rest
                 (seqZ n (Z.of_nat (length group)))).
      + by rewrite selected_tracks_all.
      + done.
      + rewrite read_selection_all by done. do 2 f_equal. lia.
      + apply Forall_seqZ. lia.
    - rewrite bool_decide_eq_false_2 by done.
      destruct Hline as [?|Hnone]; [done|].
      change [] with (selected_tracks group n []).
      apply select_group_answer; [done| |constructor].
      by apply read_selection_none. }
  split.
  - intros stdin kept stdin' Hrun.
    apply select_tracks_to_keep_result in Hrun as [extra ->]. split.
    + apply py_sort_sorted.
    + intros t Ht. rewrite py_sort_perm. apply elem_of_app. by left.
  - intros la ls rest Hla Hls. unfold select_tracks_to_keep.
    fold video_tracks audio_tracks subtitle_tracks.
    destruct (number_tracks video_tracks ∅ 1) as [m0 n0].
    eexists. split; [|split; [apply py_sort_sorted|apply py_sort_perm]].
    clearbody video_tracks audio_tracks subtitle_tracks.
    destruct audio_tracks as [|a audio]; destruct subtitle_tracks as [|b subs].
    + rewrite !select_group_nil.
      by repeat (case_bool_decide; rewrite ?app_nil_r).
    + rewrite select_group_nil.
      change ([] ++ [ls] ++ rest) with (ls :: rest).
      rewrite Hgroup by done.
      by repeat (case_bool_decide; rewrite ?app_nil_r, ?app_nil_l).
    + change ([la] ++ [] ++ rest) with (la :: rest).
      rewrite Hgroup by done. rewrite select_group_nil.
      by repeat (case_bool_decide; rewrite ?app_nil_r, ?app_nil_l).
    + change ([la] ++ [ls] ++ rest) with (la :: ls :: rest).
      rewrite !Hgroup by done. by rewrite <-app_assoc.
Qed.

(** ** The keywords of a selection prompt *)

Lemma py_lower_char_letter (c x : ascii) :
  x ∈ ["a"; "l"; "n"; "o"; "e"]%char → py_lower_char c = x →
  c = x ∨ c = ascii_of_N (N_of_ascii x - 32).
Proof.
  rewrite !elem_of_cons, elem_of_nil. intros Hx Hc.
  destruct Hx as [->|[->|[->|[->|[->|[]]]]]];
    destruct c as [[] [] [] [] [] [] [] []]; vm_compute in Hc;
    try discriminate Hc; vm_compute; auto.
Qed.

Lemma py_lower_keyword raw :
  py_lower raw = "all" ∨ py_lower raw = "none" →
  py_split "," raw = [raw] ∧ py_strip raw = raw ∧ py_int raw = None.
Proof.
  intros [H|H].
  - destruct raw as [|c1 [|c2 [|c3 [|]]]]; try discriminate H.
    injection H as H1 H2 H3.
    apply py_lower_char_letter in H1, H2, H3;
      try (rewrite !elem_of_cons; tauto).
    destruct H1 as [->| ->], H2 as [->| ->], H3 as [->| ->];
      vm_compute; done.
  - destruct raw as [|c1 [|c2 [|c3 [|c4 [|]]]]]; try discriminate H.
    injection H as H1 H2 H3 H4.
    apply py_lower_char_letter in H1, H2, H3, H4;
      try (rewrite !elem_of_cons; tauto).
    destruct H1 as [->| ->], H2 as [->| ->], H3 as [->| ->], H4 as [->| ->];
      vm_compute; done.
Qed.

Lemma read_selection_invalid s e raw tok :
  py_lower raw ≠ "all" → py_lower raw ≠ "none" → raw ≠ "" →
  tok ∈ py_split "," raw →
  (py_int (py_strip tok) = None
   ∨ ∃ v, py_int (py_strip tok) = Some v ∧ ¬ (s <= v < e)) →
  read_selection s e raw = None.
Proof.
  intros Hall Hnone Hne Htok Hbad.
  rewrite read_selection_explicit by done.
  destruct (mapM _ _) as [idxs|] eqn:Hmap; [|done].
  apply mapM_Some in Hmap.
  apply list_elem_of_lookup in Htok as [i Hi].
  destruct (Forall2_lookup_l _ _ _ _ _ Hmap Hi) as (v & Hv & Hint).
  destruct Hbad as [Hnoint|(v' & Hint' & Hout)]; [congruence|].
  assert (v' = v) as -> by congruence.
  destruct (forallb _ idxs) eqn:Hall_in; [|done].
  apply forallb_in_range in Hall_in.
  apply (Forall_lookup_1 _ _ _ _ Hall_in) in Hv. done.
Qed.

(** C7.  At the prompt of a non-empty group, numbered from [n], a line that
    is not empty and has, between its commas, an integer outside the display
    numbers of the group, or a token that is neither an integer nor [all]
    nor [none], is rejected as a whole: the block goes on exactly as if the
    line had not been typed, with the same kept list and the same numbering,
    and asks again.  (No function of the selection takes the track objects
    as something it can write to.) *)
Theorem select_group_rejects_invalid group (m : gmap Z loc) n kept
    line rest tok :
  group ≠ [] →
  py_strip line ≠ "" →
  tok ∈ py_split "," (py_strip line) →
  ((∃ v, py_int (py_strip tok) = Some v
         ∧ ¬ (n <= v < n + Z.of_nat (length group)))
   ∨ (py_int (py_strip tok) = None
      ∧ py_lower (py_strip tok) ≠ "all"
      ∧ py_lower (py_strip tok) ≠ "none")) →
  read_selection n (n + Z.of_nat (length group)) (py_strip line) = None
  ∧ select_group group m n kept (line :: rest)
    = select_group group m n kept rest.
Proof.
  intros Hgroup Hne Htok Hbad.
  assert (read_selection n (n + Z.of_nat (length group)) (py_strip line)
          = None) as Hread.
  { destruct (decide (py_lower (py_strip line) = "all"
                      ∨ py_lower (py_strip line) = "none")) as [Hkw|Hkw].
    - destruct (py_lower_keyword _ Hkw) as (Hsplit & Hstrip & Hint).
      rewrite Hsplit, list_elem_of_singleton in Htok. subst tok.
      rewrite Hstrip in Hbad.
      destruct Hbad as [(v & Hv & _)|(_ & ? & ?)]; [congruence|tauto].
    - apply (read_selection_invalid _ _ _ tok); [tauto|tauto|done|done|].
      destruct Hbad as [?|(? & _)]; [by right|by left]. }
  split; [done|]. by apply select_group_retry.
Qed.

(** ** Counting entries *)

Section occurrences.
Context {A : Type} `{EqDecision A}.
Implicit Types (x : A) (l : list A).

Lemma occurrences_app x l1 l2 :
  occurrences x (l1 ++ l2) = (occurrences x l1 + occurrences x l2)%nat.
Proof. unfold occurrences. by rewrite filter_app, length_app. Qed.

Lemma occurrences_perm x l1 l2 :
  l1 ≡ₚ l2 → occurrences x l1 = occurrences x l2.
Proof. unfold occurrences. by intros ->. Qed.

Lemma occurrences_cons x y l :
  occurrences x (y :: l)
  = ((if decide (y = x) then 1 else 0) + occurrences x l)%nat.
Proof.
  unfold occurrences. rewrite filter_cons. by destruct (decide (y = x)).
Qed.

Lemma occurrences_filter (P : A → Prop) `{∀ x, Decision (P x)} x l :
  P x → occurrences x (filter P l) = occurrences x l.
Proof.
  intros HP. induction l as [|y l IH]; [done|].
  rewrite filter_cons, occurrences_cons.
  destruct (decide (P y)) as [?|Hn].
  - by rewrite occurrences_cons, IH.
  - rewrite IH. destruct (decide (y = x)) as [->|?]; [done|lia].
Qed.
End occurrences.







Lemma occurrences_not_in {A} `{EqDecision A} (x : A) (l : list A) :
  x ∉ l → occurrences x l = 0%nat.
Proof.
  induction l as [|y l IH]; [done|].
  intros [Hne Hl]%not_elem_of_cons. rewrite occurrences_cons, IH by done.
  by rewrite decide_False.
Qed.

Lemma selected_tracks_elem group s idxs t :
  Forall (λ i, s <= i < s + Z.of_nat (length group)) idxs →
  t ∈ selected_tracks group s idxs → t ∈ group.
Proof.
  intros Hrange (i & -> & Hi)%list_elem_of_fmap.
  apply (proj1 (Forall_forall _ _) Hrange) in Hi.
  apply list_elem_of_lookup_2 with (Z.to_nat (i - s)).
  apply list_lookup_lookup_total_lt. lia.
Qed.


Lemma not_in_tracks_of_type (h : heap) ty all_tracks t :
  track_type (h !!! t) ≠ ty → t ∉ tracks_of_type h ty all_tracks.
Proof. intros Hne [Hty _]%list_elem_of_filter. done. Qed.


(** ** Track Presenter *)

Lemma display_tracks_row (h : heap) tracks_data rows (i : nat) t row :
  display_tracks h tracks_data = Some rows →
  tracks_data !! i = Some t → rows !! i = Some row →
  display_row (h !!! t) = Some row.
Proof.
  unfold display_tracks. intros Hrows%mapM_Some Ht Hrow.
  by apply (Forall2_lookup_lr _ _ _ _ _ _ Hrows Ht Hrow).
Qed.

(** C8, as the code has it.  In every rendered row the codec is cut to its
    first 15 characters followed by [...] when it is longer than 18
    characters, and the name is cut to its first 27 characters followed by
    [...] when it is longer than 30 characters; a codec of at most 18 and a
    name of at most 30 characters are shown in full. *)
Theorem display_tracks_truncation (h : heap) tracks_data rows (i : nat)
    t row :
  display_tracks h tracks_data = Some rows →
  tracks_data !! i = Some t → rows !! i = Some row →
  let codec_orig := codec (h !!! t) in
  ((18 < String.length codec_orig)%nat →
     codec_display row = String.substring 0 15 codec_orig +:+ "...")
  ∧ ((String.length codec_orig ≤ 18)%nat → codec_display row = codec_orig)
  ∧ ∀ name_orig,
      properties (h !!! t) !! "track_name" = Some (PStr name_orig) →
      ((30 < String.length name_orig)%nat →
         name_display row = String.substring 0 27 name_orig +:+ "...")
      ∧ ((String.length name_orig ≤ 30)%nat → name_display row = name_orig).
Proof.
  intros Hrows Ht Hrow codec_orig.
  pose proof (display_tracks_row _ _ _ _ _ _ Hrows Ht Hrow) as Hdisp.
  unfold display_row in Hdisp. fold codec_orig in Hdisp.
  assert (∀ w s, ((w < String.length s)%nat →
                    ellipsize w s = String.substring 0 (w - 3) s +:+ "...")
                 ∧ ((String.length s ≤ w)%nat → ellipsize w s = s)) as Hell.
  { intros w s. unfold ellipsize.
    destruct (Nat.ltb_spec w (String.length s)); split; (done || lia). }
  destruct (default name_none _) as [| | |name] eqn:Hname; try done.
  case_bool_decide; [done|]. injection Hdisp as <-. simpl.
  split; [apply (Hell w_codec)|]. split; [apply (Hell w_codec)|].
  intros name_orig Hsome. rewrite Hsome in Hname. simpl in Hname.
  injection Hname as <-. apply (Hell w_name).
Qed.

(** C8 as stated fails: a name of 28 characters is longer than 27 and is
    shown in full, without an ellipsis. *)
Lemma display_tracks_name_of_28 :
  (27 < String.length "abcdefghijklmnopqrstuvwxyz01")%nat
  ∧ display_tracks
      [mkTrack 1 "audio" "AAC"
         {["track_name" := PStr "abcdefghijklmnopqrstuvwxyz01"]}]
      [0%nat]
    = Some [mkRow "AAC" "abcdefghijklmnopqrstuvwxyz01" false].
Proof. split; [vm_compute; lia|reflexivity]. Qed.

(** An instance of C8: a codec of 30 characters and a name of 10. *)
Lemma display_tracks_truncation_witness :
  let h := [mkTrack 1 "audio" "A_MPEG/L3-with-a-long-codec-id"
              {["track_name" := PStr "commentary"]}] in
  let row := mkRow "A_MPEG/L3-with-..." "commentary" false in
  display_tracks h [0%nat] = Some [row]
  ∧ codec_display row = "A_MPEG/L3-with-..."
  ∧ name_display row = "commentary".
Proof.
  intros h row. split; [reflexivity|].
  destruct (display_tracks_truncation h [0%nat] [row] 0 0%nat row
              eq_refl eq_refl eq_refl) as (Hc & _ & Hn).
  split.
  - apply Hc. vm_compute. lia.
  - apply (Hn "commentary"); [reflexivity|]. vm_compute. lia.
Defined.

(** ** Property Editor *)

Lemma modify_loop_unfold h tracks_to_modify stdin :
  modify_loop h tracks_to_modify stdin
  = match display_tracks h tracks_to_modify with
    | None => (Raised TypeError, h, stdin)
    | Some _ =>
      match stdin with
      | [] => (Raised EOFError, h, [])
      | line :: stdin1 =>
        let track_num_str := py_strip line in
        if bool_decide (py_lower track_num_str = "f") then (Ok (), h, stdin1)
        else
          match py_int track_num_str with
          | None => modify_loop h tracks_to_modify stdin1
          | Some n =>
            let track_idx := n - 1 in
            if negb ((0 <=? track_idx)
                     && (track_idx <? Z.of_nat (length tracks_to_modify)))
            then modify_loop h tracks_to_modify stdin1
            else
              let selected_track :=
                tracks_to_modify !!! Z.to_nat track_idx in
              match stdin1 with
              | [] => modify_loop h tracks_to_modify stdin1
              | line2 :: stdin2 =>
                let h := edit_name selected_track (py_strip line2) h in
                if bool_decide (track_type (h !!! selected_track)
                                ∈ ["audio"; "subtitles"])
                then
                  match stdin2 with
                  | [] => modify_loop h tracks_to_modify stdin2
                  | line3 :: stdin3 =>
                    let h :=
                      edit_default tracks_to_modify (Z.to_nat track_idx)
                        selected_track (py_lower (py_strip line3)) h in
                    modify_loop h tracks_to_modify stdin3
                  end
                else modify_loop h tracks_to_modify stdin2
              end
          end
      end
    end.
Proof. by destruct stdin. Qed.

(** What holds of the store before the loop and is kept by each of the two
    edits holds of the store the loop leaves, however it ends. *)
Lemma modify_loop_preserves (I : heap → Prop) tracks_to_modify :
  (∀ h sel s, I h → I (edit_name sel s h)) →
  (∀ h (idx : nat) s, (idx < length tracks_to_modify)%nat → I h →
     I (edit_default tracks_to_modify idx (tracks_to_modify !!! idx) s h)) →
  ∀ stdin h r h' stdin',
    I h → modify_loop h tracks_to_modify stdin = (r, h', stdin') → I h'.
Proof.
  intros Hname Hdefault stdin.
  assert (∀ n stdin, (length stdin < n)%nat → ∀ h r h' stdin',
            I h → modify_loop h tracks_to_modify stdin = (r, h', stdin') →
            I h') as Hind; [|apply (Hind (S (length stdin))); lia].
  clear stdin. induction n as [|n IH]; intros stdin Hn; [lia|].
  intros h r h' stdin' Hh. rewrite modify_loop_unfold.
  destruct (display_tracks h tracks_to_modify); [|by intros [= _ <- _]].
  destruct stdin as [|line stdin1]; [by intros [= _ <- _]|]. cbv zeta.
  case_bool_decide; [by intros [= _ <- _]|].
  assert (∀ stdin0 h0, (length stdin0 < n)%nat → I h0 →
            modify_loop h0 tracks_to_modify stdin0 = (r, h', stdin') → I h')
    as Hrec.
  { intros stdin0 h0 Hlen Hh0. by apply IH. }
  simpl in Hn.
  destruct (py_int (py_strip line)) as [num|]; [|apply Hrec; [lia|done]].
  destruct (negb _) eqn:Hidx; [apply Hrec; [lia|done]|].
  apply negb_false_iff, andb_true_iff in Hidx as [Hlo Hhi].
  destruct stdin1 as [|line2 stdin2]; [apply Hrec; [simpl; lia|done]|].
  simpl in Hn. case_bool_decide.
  - destruct stdin2 as [|line3 stdin3].
    + apply Hrec; [simpl; lia|by apply Hname].
    + apply Hrec; [simpl in *; lia|]. apply Hdefault; [lia|by apply Hname].
  - apply Hrec; [lia|by apply Hname].
Qed.

Lemma heap_alter_type (f : Track → Track) (r t : loc) (h : heap) :
  (∀ x, track_type (f x) = track_type x) →
  track_type (alter f r h !!! t) = track_type (h !!! t).
Proof.
  intros Hf. rewrite list_lookup_total_alter.
  destruct (decide _) as [[-> _]|_]; [apply Hf|done].
Qed.

Lemma heap_alter_default_other (f : Track → Track) (r t : loc) (h : heap) :
  (∀ x, properties (f x) !! "default_track"
        = properties x !! "default_track") →
  properties (alter f r h !!! t) !! "default_track"
  = properties (h !!! t) !! "default_track".
Proof.
  intros Hf. rewrite list_lookup_total_alter.
  destruct (decide _) as [[-> _]|_]; [apply Hf|done].
Qed.

Lemma heap_out_of_range (h : heap) (t : loc) :
  (length h ≤ t)%nat → properties (h !!! t) = ∅.
Proof.
  intros Hge. rewrite list_lookup_total_alt.
  by rewrite (proj2 (lookup_ge_None h t) Hge).
Qed.

Lemma heap_set_default (v : pyval) (r t : loc) (h : heap) :
  properties (alter (set_property "default_track" v) r h !!! t)
    !! "default_track"
  = if decide (r = t ∧ (r < length h)%nat) then Some v
    else properties (h !!! t) !! "default_track".
Proof.
  rewrite list_lookup_total_alter.
  destruct (decide _) as [[-> _]|_]; [|done].
  simpl. apply lookup_insert_eq.
Qed.

Lemma edit_name_type sel s h t :
  track_type (edit_name sel s h !!! t) = track_type (h !!! t).
Proof.
  unfold edit_name. repeat case_bool_decide; simpl;
    try done; by apply heap_alter_type.
Qed.

Lemma edit_name_default sel s h t :
  is_default_track (edit_name sel s h) t ↔ is_default_track h t.
Proof.
  unfold is_default_track, edit_name.
  repeat case_bool_decide; simpl; try done.
  - rewrite heap_alter_default_other; [done|].
    intros x. simpl. by apply lookup_delete_ne.
  - rewrite heap_alter_default_other; [done|].
    intros x. simpl. by apply lookup_insert_ne.
Qed.

Lemma clear_default_step_type idx sel h it t :
  track_type (clear_default_step idx sel h it !!! t) = track_type (h !!! t).
Proof.
  unfold clear_default_step. destruct it as [i t'].
  repeat case_match; try done. by apply heap_alter_type.
Qed.

Lemma clear_default_step_default idx sel h it t :
  is_default_track (clear_default_step idx sel h it) t →
  is_default_track h t.
Proof.
  unfold clear_default_step, is_default_track. destruct it as [i t'].
  repeat case_match; try done.
  rewrite heap_set_default. destruct (decide _); [by intros [=]|done].
Qed.

Lemma clear_default_step_clears idx sel h (i : nat) t :
  i ≠ idx → track_type (h !!! t) = track_type (h !!! sel) →
  ¬ is_default_track (clear_default_step idx sel h (i, t)) t.
Proof.
  intros Hi Hty. unfold clear_default_step, is_default_track.
  rewrite (bool_decide_eq_true_2 _ Hty).
  rewrite (proj2 (Nat.eqb_neq i idx) Hi). simpl.
  case_bool_decide as Hkey.
  - rewrite heap_set_default. case_decide as Hr; [done|].
    destruct (decide (t < length h)%nat); [tauto|].
    rewrite heap_out_of_range in Hkey by lia.
    rewrite lookup_empty in Hkey. by destruct Hkey.
  - intros Heq. apply Hkey. by rewrite Heq.
Qed.

Lemma clear_default_step_keeps idx sel h (i : nat) t' t :
  (t' = t → i = idx) →
  properties (clear_default_step idx sel h (i, t') !!! t) !! "default_track"
  = properties (h !!! t) !! "default_track".
Proof.
  intros Hsame. unfold clear_default_step.
  destruct (bool_decide _ && negb (i =? idx)%nat) eqn:Hcond; [|done].
  apply andb_true_iff in Hcond as [_ Hne%negb_true_iff%Nat.eqb_neq].
  case_bool_decide; [|done].
  rewrite heap_set_default. case_decide as Hr; [|done].
  destruct Hr as [-> _]. by destruct Hne; apply Hsame.
Qed.

Section clear_fold.
Context (idx : nat) (sel : loc).
Local Abbreviation step := (clear_default_step idx sel).

Lemma clear_fold_type l h t :
  track_type (foldl step h l !!! t) = track_type (h !!! t).
Proof.
  revert h. induction l as [|it l IH]; intros h; [done|].
  simpl. by rewrite IH, clear_default_step_type.
Qed.

Lemma clear_fold_default l h t :
  is_default_track (foldl step h l) t → is_default_track h t.
Proof.
  revert h. induction l as [|it l IH]; intros h; [done|].
  simpl. intros Hd%IH. by eapply clear_default_step_default.
Qed.

Lemma clear_fold_clears l h (i : nat) t :
  (i, t) ∈ l → i ≠ idx → track_type (h !!! t) = track_type (h !!! sel) →
  ¬ is_default_track (foldl step h l) t.
Proof.
  revert h. induction l as [|it l IH]; intros h Hin Hi Hty.
  { by apply elem_of_nil in Hin. }
  simpl. apply elem_of_cons in Hin as [<-|Hin].
  - intros Hd%clear_fold_default. by eapply clear_default_step_clears.
  - apply IH; [done..|]. by rewrite !clear_default_step_type.
Qed.

Lemma clear_fold_keeps l h t :
  (∀ i, (i, t) ∈ l → i = idx) →
  properties (foldl step h l !!! t) !! "default_track"
  = properties (h !!! t) !! "default_track".
Proof.
  revert h. induction l as [|[i t'] l IH]; intros h Hl; [done|].
  simpl. rewrite IH by (intros j Hj; apply Hl; by right).
  apply clear_default_step_keeps. intros ->. apply Hl. left.
Qed.
End clear_fold.

Lemma elem_of_enumerate {A} (l : list A) (i : nat) (x : A) :
  (i, x) ∈ enumerate l ↔ l !! i = Some x.
Proof.
  unfold enumerate. rewrite list_elem_of_lookup. split.
  - intros (j & (Hj & Hx)%lookup_zip_Some).
    apply lookup_seq in Hj as [-> _]. done.
  - intros Hx. exists i. apply lookup_zip_Some. split; [|done].
    apply lookup_seq. split; [done|]. by eapply lookup_lt_Some.
Qed.

Lemma edit_default_type ws idx sel s h t :
  track_type (edit_default ws idx sel s h !!! t) = track_type (h !!! t).
Proof.
  unfold edit_default, clear_other_defaults.
  repeat case_bool_decide; rewrite ?clear_fold_type; try done;
    by apply heap_alter_type.
Qed.

(** After an answer of yes, an entry of the working list that has the type
    of the selected track and carries the flag stands nowhere but at the
    selected index. *)
Lemma edit_default_yes_only_selected ws (idx : nat) h t :
  let sel := ws !!! idx in
  t ∈ ws → track_type (h !!! t) = track_type (h !!! sel) →
  is_default_track (edit_default ws idx sel "y" h) t →
  ∀ i, ws !! i = Some t → i = idx.
Proof.
  intros sel Ht Hty Hd i Hi. destruct (decide (i = idx)) as [|Hne]; [done|].
  exfalso. revert Hd. unfold edit_default, clear_other_defaults.
  rewrite bool_decide_eq_true_2 by done.
  apply (clear_fold_clears _ _ _ _ i); [by apply elem_of_enumerate|done|].
  by rewrite !heap_alter_type.
Qed.

Lemma edit_default_was_default ws (idx : nat) sel s h t :
  is_default_track (edit_default ws idx sel s h) t →
  (s = "y" ∧ t = sel) ∨ is_default_track h t.
Proof.
  unfold edit_default, clear_other_defaults.
  case_bool_decide as Hy; [|case_bool_decide as Hn].
  - intros Hd%clear_fold_default. revert Hd. unfold is_default_track.
    rewrite heap_set_default. case_decide as Hr; [|by right].
    left. by destruct Hr as [-> _].
  - unfold is_default_track. rewrite heap_set_default.
    case_decide; [by intros [=]|by right].
  - by right.
Qed.

Lemma edit_default_at_most_one ws (idx : nat) s h ty :
  (idx < length ws)%nat →
  at_most_one_default h ws ty →
  at_most_one_default (edit_default ws idx (ws !!! idx) s h) ws ty.
Proof.
  intros Hidx Hinv t1 t2 Ht1 Ht2. rewrite !edit_default_type.
  intros Hty1 Hty2 Hd1 Hd2.
  assert (ws !! idx = Some (ws !!! idx)) as Hsel
    by (by apply list_lookup_lookup_total_lt).
  destruct (decide (s = "y" ∧ track_type (h !!! (ws !!! idx)) = ty))
    as [[-> Hsame]|Hother].
  - assert (∀ t, t ∈ ws → track_type (h !!! t) = ty →
              is_default_track (edit_default ws idx (ws !!! idx) "y" h) t →
              t = ws !!! idx) as Honly.
    { intros t Ht Hty Hd. apply list_elem_of_lookup in Ht as Hi.
      destruct Hi as [i Hi].
      assert (i = idx) as ->; [|congruence].
      by apply (edit_default_yes_only_selected ws idx h t Ht
                  (eq_trans Hty (eq_sym Hsame)) Hd i Hi). }
    rewrite (Honly t1), (Honly t2); done.
  - apply Hinv; try done.
    + apply edit_default_was_default in Hd1 as [[-> ->]|?]; [|done].
      destruct Hother. by split.
    + apply edit_default_was_default in Hd2 as [[-> ->]|?]; [|done].
      destruct Hother. by split.
Qed.

Lemma edit_name_at_most_one ws sel s h ty :
  at_most_one_default h ws ty →
  at_most_one_default (edit_name sel s h) ws ty.
Proof.
  intros Hinv t1 t2 Ht1 Ht2.
  rewrite !edit_name_type, !edit_name_default. by apply Hinv.
Qed.

(** C3, as the code has it.  If on entry the working list has, for a type,
    at most one track that carries [default_track == True], then so it has
    in the store that [modify_track_properties] leaves, whatever is typed
    and however the phase ends, the user declining to edit included. *)
Theorem modify_track_properties_at_most_one h tracks_to_modify stdin
    r h' stdin' ty :
  at_most_one_default h tracks_to_modify ty →
  modify_track_properties h tracks_to_modify stdin = (r, h', stdin') →
  at_most_one_default h' tracks_to_modify ty.
Proof.
  intros Hinv. unfold modify_track_properties.
  destruct tracks_to_modify as [|t0 ws]; [by intros [= _ <- _]|].
  destruct stdin as [|line stdin]; [by intros [= _ <- _]|].
  case_match; [by intros [= _ <- _]|].
  apply (modify_loop_preserves
           (λ h, at_most_one_default h (t0 :: ws) ty)); [| |done].
  - intros. by apply edit_name_at_most_one.
  - intros. by apply edit_default_at_most_one.
Qed.

(** C3 as stated fails: with two default audio tracks in the working list
    and the user declining to edit, the phase completes and both tracks
    still carry [default_track == True]. *)
Lemma modify_declined_keeps_two_defaults :
  modify_track_properties
    [mkTrack 1 "audio" "AAC" {["default_track" := PBool true]};
     mkTrack 2 "audio" "AC3" {["default_track" := PBool true]}]
    [0; 1]%nat [""]
  = (Ok (),
     [mkTrack 1 "audio" "AAC" {["default_track" := PBool true]};
      mkTrack 2 "audio" "AC3" {["default_track" := PBool true]}], [])
  ∧ ¬ at_most_one_default
        [mkTrack 1 "audio" "AAC" {["default_track" := PBool true]};
         mkTrack 2 "audio" "AC3" {["default_track" := PBool true]}]
        [0; 1]%nat "audio".
Proof.
  split; [reflexivity|]. intros Hinv.
  assert (0%nat = 1%nat) as Heq; [|discriminate Heq].
  apply Hinv; try reflexivity; rewrite !elem_of_cons; tauto.
Qed.

(** An instance of C3: two audio tracks without a flag, the second one made
    default by the user. *)
Lemma modify_track_properties_at_most_one_witness :
  at_most_one_default
    [mkTrack 1 "audio" "AAC" ∅; mkTrack 2 "audio" "AC3" ∅] [0; 1]%nat "audio"
  ∧ at_most_one_default
      [mkTrack 1 "audio" "AAC" ∅;
       mkTrack 2 "audio" "AC3" {["default_track" := PBool true]}]
      [0; 1]%nat "audio".
Proof.
  assert (at_most_one_default
            [mkTrack 1 "audio" "AAC" ∅; mkTrack 2 "audio" "AC3" ∅]
            [0; 1]%nat "audio") as Hinit.
  { intros t1 t2 Ht1 _ _ _ Hd1 _. exfalso. revert Hd1.
    rewrite !elem_of_cons, elem_of_nil in Ht1.
    destruct Ht1 as [->|[->|[]]]; vm_compute; discriminate. }
  split; [exact Hinit|].
  apply (modify_track_properties_at_most_one
           [mkTrack 1 "audio" "AAC" ∅; mkTrack 2 "audio" "AC3" ∅]
           [0; 1]%nat ["y"; "2"; ""; "y"; "f"] (Ok ()) _ [] "audio" Hinit).
  vm_compute. reflexivity.
Defined.

(** After an answer of yes on an entry that stands once in the working list
    and is a track of the store, that track carries [default_track == True]
    and is the only entry of its type that does. *)
Lemma edit_default_yes_exactly_one ws (idx : nat) h :
  let sel := ws !!! idx in
  let h' := edit_default ws idx sel "y" h in
  NoDup ws → (idx < length ws)%nat → (sel < length h)%nat →
  is_default_track h' sel
  ∧ ∀ t, t ∈ ws → track_type (h' !!! t) = track_type (h' !!! sel) →
      is_default_track h' t → t = sel.
Proof.
  intros sel h' Hnodup Hidx Hsel.
  assert (ws !! idx = Some sel) as Hlook
    by (by apply list_lookup_lookup_total_lt).
  split.
  - subst h'. unfold edit_default, clear_other_defaults, is_default_track.
    rewrite bool_decide_eq_true_2 by done.
    rewrite clear_fold_keeps.
    + rewrite heap_set_default. by rewrite decide_True.
    + intros i Hi%elem_of_enumerate. by eapply NoDup_lookup.
  - intros t Ht Hty Hd. subst h'. rewrite !edit_default_type in Hty.
    apply list_elem_of_lookup in Ht as Hi. destruct Hi as [i Hi].
    assert (i = idx) as ->; [|congruence].
    by apply (edit_default_yes_only_selected ws idx h t Ht Hty Hd i Hi).
Qed.

(** C4 at a working list that holds the same track twice, as
    [select_tracks_to_keep] returns it for the answer [1,1]: the answer yes
    to the default-flag prompt leaves the track with [default_track] set to
    [False], because the loop over the other entries of the type meets the
    same object again at the other index. *)
Lemma modify_default_yes_lost_on_repeated_entry :
  select_tracks_to_keep [mkTrack 1 "audio" "AAC" ∅] [0%nat] ["1,1"]
  = (Ok [0; 0]%nat, [])
  ∧ modify_track_properties [mkTrack 1 "audio" "AAC" ∅] [0; 0]%nat
      ["y"; "1"; ""; "y"; "f"]
    = (Ok (),
       [mkTrack 1 "audio" "AAC" {["default_track" := PBool false]}], [])
  ∧ ¬ is_default_track
        [mkTrack 1 "audio" "AAC" {["default_track" := PBool false]}] 0%nat.
Proof. split; [reflexivity|]. split; [reflexivity|]. by intros [=]. Qed.

(** ** Instances *)

(** An instance of C1: original tracks video 1, audio 2 and audio 3, final
    track video 1. *)
Lemma build_command_track_filters_witness :
  ("audio", "--audio-tracks", "--no-audio") ∈ type_flags
  ∧ ∃ options,
      build_mkvmerge_command "in.mkv" "out.mkv" [mkTrack 1 "video" "AVC" ∅]
        (mkMkvData (Some [mkTrack 1 "video" "AVC" ∅;
                          mkTrack 2 "audio" "AAC" ∅;
                          mkTrack 3 "audio" "AC3" ∅]))
      = ["mkvmerge"; "-q"; "-o"; "out.mkv"] ++ options ++ ["in.mkv"]
      ∧ "--no-audio" ∈ options ∧ ("--audio-tracks" ∉ options).
Proof.
  assert (("audio", "--audio-tracks", "--no-audio") ∈ type_flags) as Hty
    by (unfold type_flags; rewrite !elem_of_cons; tauto).
  split; [exact Hty|].
  destruct (build_command_track_filters "in.mkv" "out.mkv"
              [mkTrack 1 "video" "AVC" ∅]
              (mkMkvData (Some [mkTrack 1 "video" "AVC" ∅;
                                mkTrack 2 "audio" "AAC" ∅;
                                mkTrack 3 "audio" "AC3" ∅]))
              "audio" "--audio-tracks" "--no-audio" Hty)
    as (options & Hcmd & _ & Hexcl & _).
  exists options. split; [exact Hcmd|]. apply Hexcl.
  - intros (t & Ht & Htype). apply list_elem_of_singleton in Ht. by subst t.
  - exists (mkTrack 2 "audio" "AAC" ∅). split; [|done].
    simpl. rewrite !elem_of_cons. tauto.
Defined.

(** An instance of C2: a track whose [properties] is the empty dict. *)
Lemma build_command_track_name_witness :
  mkTrack 5 "audio" "AAC" ∅ ∈ [mkTrack 5 "audio" "AAC" ∅]
  ∧ has_flag_value "--track-name" "5:"
      (build_mkvmerge_command "in.mkv" "out.mkv" [mkTrack 5 "audio" "AAC" ∅]
         (mkMkvData None)).
Proof.
  assert (mkTrack 5 "audio" "AAC" ∅ ∈ [mkTrack 5 "audio" "AAC" ∅]) as Hin
    by (apply list_elem_of_singleton; reflexivity).
  split; [exact Hin|].
  destruct (build_command_track_name "in.mkv" "out.mkv"
              [mkTrack 5 "audio" "AAC" ∅] (mkMkvData None)
              (mkTrack 5 "audio" "AAC" ∅) Hin) as (_ & _ & Hempty).
  apply Hempty. reflexivity.
Defined.

(** An instance of C10: the only final track has [track_name] set to
    [None]. *)
Lemma build_command_null_track_name_witness :
  properties (mkTrack 5 "audio" "AAC" {["track_name" := PNone]})
    !! "track_name" = Some PNone
  ∧ ∃ options,
      build_mkvmerge_command "in.mkv" "out.mkv"
        ([] ++ mkTrack 5 "audio" "AAC" {["track_name" := PNone]} :: [])
        (mkMkvData None)
      = ["mkvmerge"; "-q"; "-o"; "out.mkv"] ++ options ++ ["in.mkv"]
      ∧ option_values "--track-name" options = [].
Proof.
  assert (properties (mkTrack 5 "audio" "AAC" {["track_name" := PNone]})
            !! "track_name" = Some PNone) as Hnull by reflexivity.
  split; [exact Hnull|].
  destruct (build_command_null_track_name "in.mkv" "out.mkv" []
              (mkTrack 5 "audio" "AAC" {["track_name" := PNone]}) []
              (mkMkvData None) Hnull) as (options & Hcmd & Hval & _).
  exists options. split; [exact Hcmd|exact Hval].
Defined.

(** An instance of C7: a group of one track with display number 2, and the
    answer [1, 5]. *)
Lemma select_group_rejects_invalid_witness :
  [7%nat] ≠ [] ∧ py_strip "1, 5" ≠ ""
  ∧ " 5" ∈ py_split "," (py_strip "1, 5")
  ∧ select_group [7%nat] ∅ 2 [] ["1, 5"; "2"]
    = select_group [7%nat] ∅ 2 [] ["2"].
Proof.
  assert (" 5" ∈ py_split "," (py_strip "1, 5")) as Htok
    by (apply list_elem_of_lookup; exists 1%nat; reflexivity).
  split; [discriminate|]. split; [discriminate|]. split; [exact Htok|].
  apply (select_group_rejects_invalid [7%nat] ∅ 2 [] "1, 5" ["2"] " 5").
  - discriminate.
  - discriminate.
  - exact Htok.
  - left. exists 5. split; [reflexivity|]. simpl. lia.
Defined.


(** ** Integers as they are printed and typed *)

Lemma digit_of_pretty_N_char (d : N) :
  (d < 10)%N → digit_of (pretty_N_char d) = Some (Z.of_N d).
Proof.
  intros Hd.
  assert (d = 0 ∨ d = 1 ∨ d = 2 ∨ d = 3 ∨ d = 4 ∨ d = 5 ∨ d = 6 ∨ d = 7
          ∨ d = 8 ∨ d = 9)%N as Hcases by lia.
  repeat (destruct Hcases as [->|Hcases]; [reflexivity|]). by subst.
Qed.

Lemma pretty_N_go_chars (x : N) (s : string) :
  string_forallb number_char s = true →
  string_forallb number_char (pretty_N_go x s) = true.
Proof.
  revert s. induction (N.lt_wf_0 x) as [x _ IH]; intros s Hs.
  destruct (decide (x = 0)%N) as [->|Hx]; [by rewrite pretty_N_go_0|].
  rewrite pretty_N_go_step by lia. apply IH; [apply N.div_lt; lia|].
  simpl. rewrite Hs, andb_true_r. unfold number_char.
  rewrite digit_of_pretty_N_char by (apply N.mod_lt; lia).
  by rewrite bool_decide_eq_true_2 by eauto.
Qed.

Lemma pretty_Z_chars (z : Z) : string_forallb number_char (pretty z) = true.
Proof.
  assert (∀ p : positive, string_forallb number_char (pretty p) = true)
    as Hpos.
  { intros p. unfold pretty, pretty_positive, pretty, pretty_N.
    rewrite decide_False by done. by apply pretty_N_go_chars. }
  destruct z as [|p|p]; [done|apply Hpos|].
  change (pretty (Z.neg p)) with (String "-" (pretty p)).
  simpl. by rewrite Hpos.
Qed.

Lemma int_digits_pretty_N_go (x : N) (s : string) :
  (0 < x)%N →
  int_digits 0 false (pretty_N_go x s) = int_digits (Z.of_N x) true s.
Proof.
  revert s. induction (N.lt_wf_0 x) as [x _ IH]; intros s Hx.
  rewrite pretty_N_go_step by done.
  assert (x `mod` 10 < 10)%N as Hmod by (apply N.mod_lt; lia).
  pose proof (N.div_mod x 10 ltac:(lia)) as Hdm.
  destruct (decide (x `div` 10 = 0)%N) as [Hdiv|Hdiv].
  - rewrite Hdiv, pretty_N_go_0. simpl.
    rewrite digit_of_pretty_N_char by done. f_equal. lia.
  - rewrite IH by (try apply N.div_lt; lia). simpl.
    rewrite digit_of_pretty_N_char by done. f_equal. lia.
Qed.

Lemma number_char_plain (c : ascii) :
  number_char c = true →
  py_isspace c = false ∧ int_isspace c = false ∧ c ≠ ","%char
  ∧ py_lower_char c = c.
Proof.
  destruct c as [[] [] [] [] [] [] [] []]; vm_compute; intros H;
    try discriminate H; by repeat split.
Qed.

Section number_strings.
Context (s : string) (Hs : string_forallb number_char s = true).

Lemma number_string_lstrip space :
  (∀ c, number_char c = true → space c = false) → lstrip_with space s = s.
Proof.
  intros Hsp. destruct s as [|c s']; [done|]. simpl in *.
  apply andb_true_iff in Hs as [Hc _]. by rewrite (Hsp c Hc).
Qed.

Lemma number_string_rstrip space :
  (∀ c, number_char c = true → space c = false) → rstrip_with space s = s.
Proof.
  intros Hsp. induction s as [|c s' IH]; [done|]. simpl in *.
  apply andb_true_iff in Hs as [Hc Hs']. rewrite (IH Hs').
  destruct s'; [by rewrite (Hsp c Hc)|done].
Qed.

Lemma number_string_strip : py_strip s = s.
Proof.
  unfold py_strip.
  rewrite number_string_lstrip, number_string_rstrip; [done|..];
    intros c Hc; by apply number_char_plain in Hc as (? & _).
Qed.

Lemma number_string_lower : py_lower s = s.
Proof.
  induction s as [|c s' IH]; [done|]. simpl in *.
  apply andb_true_iff in Hs as [Hc Hs']. rewrite (IH Hs').
  by apply number_char_plain in Hc as (_ & _ & _ & ->).
Qed.

Lemma number_string_split : py_split "," s = [s].
Proof.
  induction s as [|c s' IH]; [done|]. simpl in *.
  apply andb_true_iff in Hs as [Hc Hs']. rewrite (IH Hs').
  apply number_char_plain in Hc as (_ & _ & Hcomma & _).
  by rewrite bool_decide_eq_false_2.
Qed.
End number_strings.

Lemma pretty_Z_nonempty (z : Z) : pretty z ≠ "".
Proof.
  intros Heq. pose proof (pretty_Z_not_dashdash z "--") as Hd.
  by rewrite Heq in Hd.
Qed.

(** [int(str(z)) == z] *)
Lemma py_int_pretty (z : Z) : py_int (pretty z) = Some z.
Proof.
  pose proof (pretty_Z_chars z) as Hchars. unfold py_int.
  rewrite number_string_lstrip, number_string_rstrip; try done;
    try (intros c Hc; by apply number_char_plain in Hc as (_ & ? & _)).
  assert (∀ p : positive,
            pretty p = pretty_N_go (N.pos p) ""
            ∧ int_digits 0 false (pretty p) = Some (Z.pos p)) as Hpos.
  { intros p.
    assert (pretty p = pretty_N_go (N.pos p) "") as Hgo.
    { unfold pretty, pretty_positive, pretty, pretty_N.
      by rewrite decide_False. }
    split; [done|]. rewrite Hgo. by rewrite int_digits_pretty_N_go. }
  destruct z as [|p|p]; [done| |].
  - destruct (Hpos p) as [Hgo Hint].
    change (pretty (Z.pos p)) with (pretty p) in *.
    destruct (pretty p) as [|c r] eqn:Hp; [done|].
    simpl in Hchars. apply andb_true_iff in Hchars as [Hc _].
    destruct (pretty_N_go_head (N.pos p) "" ltac:(done)) as (c' & r' & Heq & Hne).
    rewrite <-Hgo in Heq. injection Heq as <- <-.
    rewrite <-Hint. clear -Hc Hne.
    destruct c as [[] [] [] [] [] [] [] []]; try reflexivity;
      vm_compute in Hc; try discriminate Hc; by destruct Hne.
  - destruct (Hpos p) as [_ Hint].
    change (Z.opp <$> int_digits 0 false (pretty p) = Some (Z.neg p)).
    by rewrite Hint.
Qed.

(** ** Selection Engine: further properties *)

(** X1.  A display number typed as it is printed selects the track that
    carries it: at the prompt of a group numbered from [n], the line
    [str(d)] for a number [d] of the group is accepted and appends the track
    numbered [d], once, to the kept list. *)
Theorem select_group_typed_number group (m : gmap Z loc) n kept d rest :
  n <= d < n + Z.of_nat (length group) →
  select_group group m n kept (pretty d :: rest)
  = (Ok ((number_tracks group m n).1, n + Z.of_nat (length group),
         kept ++ [group !!! Z.to_nat (d - n)]), rest).
Proof.
  intros Hd. pose proof (pretty_Z_chars d) as Hchars.
  apply (select_group_answer group m n kept (pretty d) rest [d]).
  - intros ->. simpl in Hd. lia.
  - rewrite number_string_strip by done.
    rewrite read_selection_explicit.
    + rewrite number_string_split by done. simpl.
      rewrite number_string_strip, py_int_pretty by done. simpl.
      destruct (Z.leb_spec n d); [|lia].
      destruct (Z.ltb_spec d (n + Z.of_nat (length group))); [done|lia].
    + rewrite number_string_lower by done. intros Heq.
      by rewrite Heq in Hchars.
    + rewrite number_string_lower by done. intros Heq.
      by rewrite Heq in Hchars.
    + apply pretty_Z_nonempty.
  - by constructor.
Qed.

Lemma select_group_typed_number_witness :
  select_group [7; 8]%nat ∅ 2 [] ["3"; "rest"]
  = (Ok ((number_tracks [7; 8]%nat ∅ 2).1, 4, [8%nat]), ["rest"]).
Proof.
  apply (select_group_typed_number [7; 8]%nat ∅ 2 [] 3 ["rest"]).
  simpl. lia.
Defined.

Lemma number_tracks_values group (m : gmap Z loc) n k t :
  (number_tracks group m n).1 !! k = Some t → t ∈ group ∨ m !! k = Some t.
Proof.
  revert m n. induction group as [|a group IH]; intros m n; [by right|].
  rewrite number_tracks_cons. intros [Hin|Hm]%IH.
  - left. by right.
  - apply lookup_insert_Some in Hm as [[_ <-]|[_ Hm]]; [left; left|by right].
Qed.

Lemma selection_loop_from_map (m : gmap Z loc) s e kept stdin kept' stdin' t :
  selection_loop m s e kept stdin = (Ok kept', stdin') →
  t ∈ kept' → t ∈ kept ∨ ∃ k, m !! k = Some t.
Proof.
  induction stdin as [|line stdin IH]; [done|].
  rewrite selection_loop_cons. destruct (read_selection _ _ _); [|done].
  intros [= <- _]. rewrite append_selected_omap.
  intros [?|(k & _ & Hk)%list_elem_of_omap]%elem_of_app; [by left|].
  right. by exists k.
Qed.

Lemma selection_loop_raises (m : gmap Z loc) s e kept stdin x stdin' :
  selection_loop m s e kept stdin = (Raised x, stdin') →
  x = EOFError ∧ stdin' = [].
Proof.
  induction stdin as [|line stdin IH]; [by intros [= <- <-]|].
  rewrite selection_loop_cons. by destruct (read_selection _ _ _).
Qed.

(** What the block of one group leaves: the numbering, and a kept list that
    grew by tracks of the group only. *)
Lemma select_group_outcome group (m : gmap Z loc) n kept stdin m' n' kept'
    stdin' :
  select_group group m n kept stdin = (Ok (m', n', kept'), stdin') →
  (group = [] → m' = m)
  ∧ (group ≠ [] → m' = (number_tracks group m n).1)
  ∧ n' = n + Z.of_nat (length group)
  ∧ ∀ t, t ∈ kept' → t ∈ kept ∨ t ∈ group ∨ ∃ k, m !! k = Some t.
Proof.
  unfold select_group. destruct group as [|a group].
  - intros [= <- <- <- _]. repeat split; try done; [simpl; lia|auto].
  - pose proof (number_tracks_snd (a :: group) m n) as Hsnd.
    destruct (number_tracks _ _ _) as [m1 n1] eqn:Hnum. cbn [snd] in Hsnd.
    destruct (selection_loop _ _ _ _ _) as [[k1|?] ?] eqn:Hloop; [|done].
    intros [= <- <- <- <-]. repeat split; try done.
    intros t Ht.
    destruct (selection_loop_from_map _ _ _ _ _ _ _ t Hloop Ht)
      as [?|[k Hk]]; [by left|].
    replace m1 with (number_tracks (a :: group) m n).1 in Hk
      by (by rewrite Hnum).
    apply number_tracks_values in Hk as [?|?]; [by right; left|].
    right; right. by exists k.
Qed.

(** X2.  Every track that [select_tracks_to_keep] returns is one of
    [all_tracks] and is a video, an audio or a subtitles track: a track of
    any other type is dropped, whatever is typed. *)
Theorem select_tracks_to_keep_known_types h all_tracks stdin kept stdin' t :
  select_tracks_to_keep h all_tracks stdin = (Ok kept, stdin') →
  t ∈ kept →
  t ∈ all_tracks
  ∧ track_type (h !!! t) ∈ ["video"; "audio"; "subtitles"].
Proof.
  unfold select_tracks_to_keep.
  destruct (number_tracks _ ∅ 1) as [m0 n0] eqn:Hnum0.
  destruct (select_group _ m0 n0 _ stdin) as [[[[m1 n1] k1]|?] s1] eqn:Ha;
    [|done].
  destruct (select_group _ m1 n1 k1 s1) as [[[[m2 n2] k2]|?] s2] eqn:Hs;
    [|done].
  intros [= <- _]. rewrite py_sort_perm. intros Ht.
  apply select_group_outcome in Ha as (Ham0 & Ham & _ & Hak).
  apply select_group_outcome in Hs as (_ & _ & _ & Hsk).
  assert (∀ k t, m0 !! k = Some t → t ∈ tracks_of_type h "video" all_tracks)
    as Hm0.
  { intros k t' Hk.
    replace m0 with (number_tracks (tracks_of_type h "video" all_tracks)
                       ∅ 1).1 in Hk by (by rewrite Hnum0).
    by apply number_tracks_values in Hk as [?|?]. }
  assert (∀ k t, m1 !! k = Some t →
            t ∈ tracks_of_type h "video" all_tracks
            ∨ t ∈ tracks_of_type h "audio" all_tracks) as Hm1.
  { intros k t' Hk.
    destruct (decide (tracks_of_type h "audio" all_tracks = []))
      as [Hnil|Hne].
    - rewrite (Ham0 Hnil) in Hk. left. by eapply Hm0.
    - rewrite (Ham Hne) in Hk.
      apply number_tracks_values in Hk as [?|?]; [by right|].
      left. by eapply Hm0. }
  assert (t ∈ tracks_of_type h "video" all_tracks
          ∨ t ∈ tracks_of_type h "audio" all_tracks
          ∨ t ∈ tracks_of_type h "subtitles" all_tracks) as Hcases.
  { destruct (Hsk t Ht) as [Hk1|[?|[k Hk]]]; [|by auto|].
    - destruct (Hak t Hk1) as [?|[?|[k Hk]]]; [by auto..|].
      left. by eapply Hm0.
    - destruct (Hm1 k t Hk); by auto. }
  rewrite !elem_of_cons.
  destruct Hcases as [Hin|[Hin|Hin]];
    apply list_elem_of_filter in Hin as [-> ?]; by auto.
Qed.

Lemma select_tracks_to_keep_known_types_witness :
  select_tracks_to_keep
    [mkTrack 0 "video" "AVC" ∅; mkTrack 1 "buttons" "VobBtn" ∅;
     mkTrack 2 "audio" "AAC" ∅] [0; 1; 2]%nat ["all"]
  = (Ok [0; 2]%nat, [])
  ∧ 2%nat ∈ [0; 2]%nat
  ∧ 2%nat ∈ [0; 1; 2]%nat
  ∧ track_type ([mkTrack 0 "video" "AVC" ∅; mkTrack 1 "buttons" "VobBtn" ∅;
                 mkTrack 2 "audio" "AAC" ∅] !!! 2%nat)
    ∈ ["video"; "audio"; "subtitles"].
Proof.
  assert (2%nat ∈ [0; 2]%nat) as Hin by (rewrite !elem_of_cons; tauto).
  split; [reflexivity|]. split; [exact Hin|].
  apply (select_tracks_to_keep_known_types
           [mkTrack 0 "video" "AVC" ∅; mkTrack 1 "buttons" "VobBtn" ∅;
            mkTrack 2 "audio" "AAC" ∅] [0; 1; 2]%nat ["all"]
           [0; 2]%nat [] 2%nat eq_refl Hin).
Defined.

(** X3.  [select_tracks_to_keep] fails in one way only: with [EOFError],
    when the input is exhausted at the prompt of a non-empty audio or
    subtitles group. *)
Theorem select_tracks_to_keep_raises h all_tracks stdin x stdin' :
  select_tracks_to_keep h all_tracks stdin = (Raised x, stdin') →
  x = EOFError ∧ stdin' = []
  ∧ (tracks_of_type h "audio" all_tracks ≠ []
     ∨ tracks_of_type h "subtitles" all_tracks ≠ []).
Proof.
  assert (∀ group (m : gmap Z loc) n kept stdin0 x0 stdin1,
            select_group group m n kept stdin0 = (Raised x0, stdin1) →
            x0 = EOFError ∧ stdin1 = [] ∧ group ≠ []) as Hgroup.
  { intros group m n kept stdin0 x0 stdin1. unfold select_group.
    destruct group as [|a group]; [done|].
    destruct (number_tracks _ _ _) as [m1 n1].
    destruct (selection_loop _ _ _ _ _) as [[k1|e1] s1] eqn:Hloop; [done|].
    intros [= <- <-]. by apply selection_loop_raises in Hloop as [-> ->]. }
  unfold select_tracks_to_keep.
  destruct (number_tracks _ ∅ 1) as [m0 n0].
  destruct (select_group _ m0 n0 _ stdin) as [[[[m1 n1] k1]|e1] s1] eqn:Ha.
  - destruct (select_group _ m1 n1 k1 s1) as [[[[m2 n2] k2]|e2] s2] eqn:Hs;
      [done|].
    intros [= <- <-]. apply Hgroup in Hs as (-> & -> & ?). auto.
  - intros [= <- <-]. apply Hgroup in Ha as (-> & -> & ?). auto.
Qed.

Lemma select_tracks_to_keep_raises_witness :
  select_tracks_to_keep [mkTrack 1 "audio" "AAC" ∅] [0%nat] ["9"; "x"]
  = (Raised EOFError, [])
  ∧ EOFError = EOFError ∧ @nil string = []
  ∧ (tracks_of_type [mkTrack 1 "audio" "AAC" ∅] "audio" [0%nat] ≠ []
     ∨ tracks_of_type [mkTrack 1 "audio" "AAC" ∅] "subtitles" [0%nat] ≠ []).
Proof.
  split; [reflexivity|].
  apply (select_tracks_to_keep_raises [mkTrack 1 "audio" "AAC" ∅] [0%nat]
           ["9"; "x"] EOFError [] eq_refl).
Defined.

Lemma number_tracks_lookup_above group (m : gmap Z loc) n k :
  n + Z.of_nat (length group) <= k →
  (number_tracks group m n).1 !! k = m !! k.
Proof.
  revert m n. induction group as [|t group IH]; intros m n Hk; [done|].
  rewrite number_tracks_cons. simpl length in Hk.
  rewrite IH by lia. apply lookup_insert_ne. lia.
Qed.

(** X4.  The block of a group numbers its tracks with consecutive display
    numbers that go on from the running counter, in the order of the group,
    and leaves every other number as it was: numbers are neither reused nor
    reset. *)
Theorem select_group_numbering group (m : gmap Z loc) n kept stdin
    m' n' kept' stdin' k :
  select_group group m n kept stdin = (Ok (m', n', kept'), stdin') →
  n' = n + Z.of_nat (length group)
  ∧ m' !! k = if decide (n <= k < n') then group !! Z.to_nat (k - n)
              else m !! k.
Proof.
  intros Hrun. apply select_group_outcome in Hrun as (Hnil & Hne & -> & _).
  split; [done|].
  destruct (decide (group = [])) as [->|Hgroup].
  - rewrite (Hnil eq_refl). case_decide; [simpl in *; lia|done].
  - rewrite (Hne Hgroup). case_decide as Hk.
    + replace k with (n + Z.of_nat (Z.to_nat (k - n))) at 1 by lia.
      rewrite number_tracks_lookup by lia. done.
    + destruct (decide (k < n)).
      * by apply number_tracks_lookup_below.
      * apply number_tracks_lookup_above. lia.
Qed.

Lemma select_group_numbering_witness :
  select_group [7; 8]%nat {[1 := 5%nat]} 2 [5%nat] ["none"]
  = (Ok ((number_tracks [7; 8]%nat {[1 := 5%nat]} 2).1, 4, [5%nat]), [])
  ∧ 4 = 2 + Z.of_nat (length [7; 8]%nat)
  ∧ (number_tracks [7; 8]%nat {[1 := 5%nat]} 2).1 !! 3
    = if decide (2 <= 3 < 4) then [7; 8]%nat !! Z.to_nat (3 - 2)
      else ({[1 := 5%nat]} : gmap Z loc) !! 3.
Proof.
  split; [reflexivity|].
  apply (select_group_numbering [7; 8]%nat {[1 := 5%nat]} 2 [5%nat]
           ["none"] _ 4 [5%nat] [] 3 eq_refl).
Defined.

(** ** Track Presenter: further properties *)

Lemma string_length_app (s1 s2 : string) :
  String.length (s1 +:+ s2) = (String.length s1 + String.length s2)%nat.
Proof. induction s1 as [|c s1 IH]; simpl; [done|]. by rewrite IH. Qed.

Lemma string_length_substring_le (n : nat) (s : string) :
  (String.length (String.substring 0 n s) ≤ n)%nat.
Proof.
  revert s. induction n as [|n IH]; intros [|c s]; simpl; try lia.
  specialize (IH s). lia.
Qed.

Lemma ellipsize_length (w : nat) (s : string) :
  (3 ≤ w)%nat → (String.length (ellipsize w s) ≤ w)%nat.
Proof.
  intros Hw. unfold ellipsize.
  destruct (Nat.ltb_spec w (String.length s)); [|done].
  rewrite string_length_app.
  pose proof (string_length_substring_le (w - 3) s). simpl. lia.
Qed.

Lemma display_tracks_rows (h : heap) tracks_data rows row :
  display_tracks h tracks_data = Some rows → row ∈ rows →
  ∃ t, t ∈ tracks_data ∧ display_row (h !!! t) = Some row.
Proof.
  unfold display_tracks. intros Hrows%mapM_Some [i Hi]%list_elem_of_lookup.
  destruct (Forall2_lookup_r _ _ _ _ _ Hrows Hi) as (t & Ht & Hrow).
  exists t. split; [by eapply list_elem_of_lookup_2|done].
Qed.

(** X5.  No codec cell of the table is longer than 18 characters and no name
    cell longer than 30: the two columns that are cut keep their width. *)
Theorem display_tracks_cell_widths (h : heap) tracks_data rows row :
  display_tracks h tracks_data = Some rows → row ∈ rows →
  (String.length (codec_display row) ≤ 18)%nat
  ∧ (String.length (name_display row) ≤ 30)%nat.
Proof.
  intros Hrows Hrow.
  destruct (display_tracks_rows _ _ _ _ Hrows Hrow) as (t & _ & Hdisp).
  unfold display_row in Hdisp.
  destruct (default name_none _) as [| | |name]; try done.
  case_bool_decide; [done|]. injection Hdisp as <-. simpl.
  split; apply ellipsize_length; unfold w_codec, w_name; lia.
Qed.

Lemma display_tracks_cell_widths_witness :
  let h := [mkTrack 1 "audio" "A_MPEG/L3-with-a-long-codec-id"
              {["track_name" := PStr "commentary"]}] in
  let row := mkRow "A_MPEG/L3-with-..." "commentary" false in
  (String.length (codec_display row) ≤ 18)%nat
  ∧ (String.length (name_display row) ≤ 30)%nat.
Proof.
  intros h row.
  apply (display_tracks_cell_widths h [0%nat] [row] row eq_refl).
  apply list_elem_of_here.
Defined.

Lemma display_row_is_Some (t : Track) :
  is_Some (display_row t) ↔ displayable t.
Proof.
  unfold display_row, displayable. split.
  - intros [row Hrow].
    destruct (default name_none _) as [| | |name] eqn:Hname; try done.
    case_bool_decide as Hlang; [done|]. split.
    + intros Hl. apply Hlang. by rewrite Hl.
    + intros v Hv. rewrite Hv in Hname. simpl in Hname. by eauto.
  - intros [Hlang Hname].
    assert (default lang_unknown (properties t !! "language") ≠ PNone)
      as Hl.
    { destruct (properties t !! "language") as [v|]; [|done].
      simpl. intros ->. by apply Hlang. }
    destruct (properties t !! "track_name") as [v|].
    + destruct (Hname v eq_refl) as [s ->]. simpl.
      rewrite bool_decide_eq_false_2 by done. by eauto.
    + simpl. rewrite bool_decide_eq_false_2 by done. by eauto.
Qed.

Lemma display_tracks_is_Some (h : heap) tracks_data :
  is_Some (display_tracks h tracks_data)
  ↔ ∀ t, t ∈ tracks_data → displayable (h !!! t).
Proof.
  unfold display_tracks. rewrite mapM_is_Some, Forall_forall.
  split; intros Hall t Ht; apply display_row_is_Some, Hall, Ht.
Qed.

(** X6.  [display_tracks] renders a list, with one row for each of its
    entries, exactly when every track of the list has a [language] that is
    not [None] and a [track_name] that is a string, where these keys are
    present; otherwise it raises. *)
Theorem display_tracks_succeeds_iff (h : heap) tracks_data :
  (∃ rows, display_tracks h tracks_data = Some rows
           ∧ length rows = length tracks_data)
  ↔ ∀ t, t ∈ tracks_data → displayable (h !!! t).
Proof.
  rewrite <-display_tracks_is_Some. split.
  - intros (rows & -> & _). by eexists.
  - intros [rows Hrows]. exists rows. split; [done|].
    symmetry. by eapply length_mapM.
Qed.

(** ** Property Editor: further properties *)

Lemma foldl_invariant {A B} (P : A → Prop) (f : A → B → A) (l : list B) a :
  (∀ a b, b ∈ l → P a → P (f a b)) → P a → P (foldl f a l).
Proof.
  revert a. induction l as [|b l IH]; intros a Hstep Ha; [done|].
  simpl. apply IH.
  - intros a' b' Hb'. apply Hstep. by right.
  - apply Hstep; [left|done].
Qed.

(** What holds of the store before the loop and is kept by each of the two
    edits as the loop makes them holds of the store the loop leaves; the
    loop raises [TypeError] only from [display_tracks], and [EOFError] only
    when the input is exhausted. *)
Lemma modify_loop_invariant (I : heap → Prop) ws :
  (∀ h (idx : nat) s, (idx < length ws)%nat → I h →
     I (edit_name (ws !!! idx) s h)) →
  (∀ h (idx : nat) s, (idx < length ws)%nat →
     track_type (h !!! (ws !!! idx)) ∈ ["audio"; "subtitles"] → I h →
     I (edit_default ws idx (ws !!! idx) s h)) →
  ∀ stdin h r h' stdin',
    I h → modify_loop h ws stdin = (r, h', stdin') →
    I h' ∧ (r = Raised TypeError → display_tracks h' ws = None)
    ∧ (r = Raised EOFError → stdin' = []).
Proof.
  intros Hname Hdefault stdin.
  assert (∀ n stdin, (length stdin < n)%nat → ∀ h r h' stdin',
            I h → modify_loop h ws stdin = (r, h', stdin') →
            I h' ∧ (r = Raised TypeError → display_tracks h' ws = None)
            ∧ (r = Raised EOFError → stdin' = [])) as Hind;
    [|apply (Hind (S (length stdin))); lia].
  clear stdin. induction n as [|n IH]; intros stdin Hn; [lia|].
  intros h r h' stdin' Hh. rewrite modify_loop_unfold.
  destruct (display_tracks h ws) eqn:Hdisp; [|by intros [= <- <- <-]].
  destruct stdin as [|line stdin1]; [by intros [= <- <- <-]|]. cbv zeta.
  case_bool_decide; [by intros [= <- <- <-]|].
  assert (∀ stdin0 h0, (length stdin0 < n)%nat → I h0 →
            modify_loop h0 ws stdin0 = (r, h', stdin') →
            I h' ∧ (r = Raised TypeError → display_tracks h' ws = None)
            ∧ (r = Raised EOFError → stdin' = [])) as Hrec.
  { intros stdin0 h0 Hlen Hh0. by apply IH. }
  simpl in Hn.
  destruct (py_int (py_strip line)) as [num|]; [|apply Hrec; [lia|done]].
  destruct (negb _) eqn:Hidx; [apply Hrec; [lia|done]|].
  apply negb_false_iff, andb_true_iff in Hidx as [Hlo Hhi].
  destruct stdin1 as [|line2 stdin2]; [apply Hrec; [simpl; lia|done]|].
  simpl in Hn. case_bool_decide as Hty.
  - destruct stdin2 as [|line3 stdin3].
    + apply Hrec; [simpl; lia|apply Hname; [lia|done]].
    + apply Hrec; [simpl in *; lia|].
      apply Hdefault; [lia|done|apply Hname; [lia|done]].
  - apply Hrec; [lia|apply Hname; [lia|done]].
Qed.

Lemma modify_track_properties_invariant (I : heap → Prop) ws :
  (∀ h (idx : nat) s, (idx < length ws)%nat → I h →
     I (edit_name (ws !!! idx) s h)) →
  (∀ h (idx : nat) s, (idx < length ws)%nat →
     track_type (h !!! (ws !!! idx)) ∈ ["audio"; "subtitles"] → I h →
     I (edit_default ws idx (ws !!! idx) s h)) →
  ∀ stdin h r h' stdin',
    I h → modify_track_properties h ws stdin = (r, h', stdin') →
    I h' ∧ (r = Raised TypeError → display_tracks h' ws = None)
    ∧ (r = Raised EOFError → stdin' = []).
Proof.
  intros Hname Hdefault stdin h r h' stdin' Hh.
  unfold modify_track_properties.
  destruct ws as [|t0 ws]; [by intros [= <- <- <-]|].
  destruct stdin as [|line stdin]; [by intros [= <- <- <-]|].
  case_match; [by intros [= <- <- <-]|].
  by apply modify_loop_invariant.
Qed.

Lemma same_but_name_and_default_refl a : same_but_name_and_default a a.
Proof. by repeat split. Qed.

Lemma same_but_name_and_default_trans a b c :
  same_but_name_and_default a b → same_but_name_and_default b c →
  same_but_name_and_default a c.
Proof.
  intros (? & ? & ? & Hab) (? & ? & ? & Hbc).
  repeat split; try congruence.
  intros k ??. by rewrite Hab, Hbc.
Qed.

Lemma set_property_same k v x :
  k = "track_name" ∨ k = "default_track" →
  same_but_name_and_default (set_property k v x) x.
Proof.
  intros Hk. repeat split. intros k' ??. simpl.
  apply lookup_insert_ne. by destruct Hk as [->| ->].
Qed.

Lemma del_property_same k x :
  k = "track_name" ∨ k = "default_track" →
  same_but_name_and_default (del_property k x) x.
Proof.
  intros Hk. repeat split. intros k' ??. simpl.
  apply lookup_delete_ne. by destruct Hk as [->| ->].
Qed.

Lemma working_list_entry (ws : list loc) (idx : nat) :
  (idx < length ws)%nat → ws !!! idx ∈ ws.
Proof.
  intros Hidx. apply (list_elem_of_lookup_2 _ idx).
  by apply list_lookup_lookup_total_lt.
Qed.

Section frame.
Context (h0 : heap) (ws : list loc).
Local Abbreviation framed :=
  (λ h : heap,
     length h = length h0
     ∧ ∀ t, same_but_name_and_default (h !!! t) (h0 !!! t)
            ∧ (t ∉ ws → h !!! t = h0 !!! t)).

Lemma framed_alter (f : Track → Track) (r : loc) (h : heap) :
  (∀ x, same_but_name_and_default (f x) x) → r ∈ ws →
  framed h → framed (alter f r h).
Proof.
  intros Hf Hr [Hlen Hall]. split; [by rewrite length_alter|].
  intros t. destruct (Hall t) as [Hsame Hout].
  rewrite list_lookup_total_alter.
  destruct (decide _) as [[-> _]|_]; [|done]. split; [|done].
  eapply same_but_name_and_default_trans; [apply Hf|done].
Qed.

Lemma framed_edit_name (idx : nat) s h :
  (idx < length ws)%nat → framed h → framed (edit_name (ws !!! idx) s h).
Proof.
  intros Hidx%working_list_entry Hh. unfold edit_name.
  repeat case_bool_decide; simpl; try done; apply framed_alter; try done.
  - intros x. apply del_property_same. by left.
  - intros x. apply set_property_same. by left.
Qed.

Lemma framed_clear_other_defaults (idx : nat) sel h :
  framed h → framed (clear_other_defaults ws idx sel h).
Proof.
  intros Hh. unfold clear_other_defaults.
  apply (foldl_invariant framed); [|done].
  intros a [i t] Hin%elem_of_enumerate Ha. unfold clear_default_step.
  repeat case_match; try done.
  apply framed_alter; [|by eapply list_elem_of_lookup_2|done].
  intros x. apply set_property_same. by right.
Qed.

Lemma framed_edit_default (idx : nat) s h :
  (idx < length ws)%nat → framed h →
  framed (edit_default ws idx (ws !!! idx) s h).
Proof.
  intros Hidx%working_list_entry Hh. unfold edit_default.
  repeat case_bool_decide; try done.
  - apply framed_clear_other_defaults, framed_alter; [|done..].
    intros x. apply set_property_same. by right.
  - apply framed_alter; [|done..].
    intros x. apply set_property_same. by right.
Qed.
End frame.

(** X7.  Whatever is typed and however it ends, [modify_track_properties]
    leaves every track its id, its type, its codec and every property other
    than [track_name] and [default_track], adds no track and removes none,
    and does not touch a track that is not in its list. *)
Theorem modify_track_properties_frame h tracks_to_modify stdin r h' stdin' :
  modify_track_properties h tracks_to_modify stdin = (r, h', stdin') →
  length h' = length h
  ∧ ∀ t, same_but_name_and_default (h' !!! t) (h !!! t)
         ∧ (t ∉ tracks_to_modify → h' !!! t = h !!! t).
Proof.
  intros Hrun.
  eapply (modify_track_properties_invariant
            (λ h1 : heap,
               length h1 = length h
               ∧ ∀ t, same_but_name_and_default (h1 !!! t) (h !!! t)
                      ∧ (t ∉ tracks_to_modify → h1 !!! t = h !!! t)));
    [| | |exact Hrun].
  - intros. by apply framed_edit_name.
  - intros. by apply framed_edit_default.
  - split; [done|]. intros t. split; [|done].
    apply same_but_name_and_default_refl.
Qed.

Lemma modify_track_properties_frame_witness :
  let h := [mkTrack 1 "video" "AVC" {["language" := PStr "und"]};
            mkTrack 2 "audio" "AAC" {["language" := PStr "eng"]}] in
  let h' := [mkTrack 1 "video" "AVC" {["language" := PStr "und"]};
             mkTrack 2 "audio" "AAC"
               (<["default_track" := PBool true]>
                  (<["track_name" := PStr "Main"]>
                     {["language" := PStr "eng"]}))] in
  length h' = length h
  ∧ ∀ t, same_but_name_and_default (h' !!! t) (h !!! t)
         ∧ (t ∉ [1%nat] → h' !!! t = h !!! t).
Proof.
  intros h h'.
  apply (modify_track_properties_frame h [1%nat]
           ["y"; "1"; "Main"; "y"; "f"] (Ok ()) h' []).
  vm_compute. reflexivity.
Defined.

Lemma edit_name_default_lookup sel s h t :
  properties (edit_name sel s h !!! t) !! "default_track"
  = properties (h !!! t) !! "default_track".
Proof.
  unfold edit_name. repeat case_bool_decide; simpl; try done.
  - apply heap_alter_default_other.
    intros x. simpl. by apply lookup_delete_ne.
  - apply heap_alter_default_other.
    intros x. simpl. by apply lookup_insert_ne.
Qed.

Lemma clear_default_step_other_type idx sel h it t :
  track_type (h !!! t) ≠ track_type (h !!! sel) →
  properties (clear_default_step idx sel h it !!! t) !! "default_track"
  = properties (h !!! t) !! "default_track".
Proof.
  intros Hty. unfold clear_default_step. destruct it as [i t'].
  destruct (bool_decide _ && negb (i =? idx)%nat) eqn:Hcond; [|done].
  apply andb_true_iff in Hcond as [Hsame%bool_decide_eq_true _].
  case_bool_decide; [|done].
  rewrite heap_set_default. case_decide as Hr; [|done].
  by destruct Hr as [-> _].
Qed.

Lemma edit_default_other_type ws idx sel s h t :
  track_type (h !!! t) ≠ track_type (h !!! sel) →
  properties (edit_default ws idx sel s h !!! t) !! "default_track"
  = properties (h !!! t) !! "default_track".
Proof.
  intros Hty.
  assert (∀ v, properties
                 (alter (set_property "default_track" v) sel h !!! t)
                 !! "default_track"
               = properties (h !!! t) !! "default_track") as Hset.
  { intros v. rewrite heap_set_default. case_decide as Hr; [|done].
    by destruct Hr as [-> _]. }
  unfold edit_default, clear_other_defaults.
  repeat case_bool_decide; try done.
  apply (foldl_invariant
           (λ h1 : heap,
              (∀ x, track_type (h1 !!! x) = track_type (h !!! x))
              ∧ properties (h1 !!! t) !! "default_track"
                = properties (h !!! t) !! "default_track")).
  - intros h1 it _ [Htypes Hsame]. split.
    + intros x. by rewrite clear_default_step_type.
    + rewrite clear_default_step_other_type; [done|].
      by rewrite !Htypes.
  - split; [|done]. intros x. by apply heap_alter_type.
Qed.

(** X8.  [modify_track_properties] never changes the [default_track] flag
    of a track that is neither an audio nor a subtitles track: the flag of
    a video track cannot be edited, and setting an audio or a subtitles
    track default clears no flag of another type. *)
Theorem modify_track_properties_other_types h tracks_to_modify stdin r h'
    stdin' t :
  modify_track_properties h tracks_to_modify stdin = (r, h', stdin') →
  track_type (h !!! t) ∉ ["audio"; "subtitles"] →
  properties (h' !!! t) !! "default_track"
  = properties (h !!! t) !! "default_track".
Proof.
  intros Hrun Hty.
  apply (modify_track_properties_invariant
           (λ h1 : heap,
              (∀ x, track_type (h1 !!! x) = track_type (h !!! x))
              ∧ properties (h1 !!! t) !! "default_track"
                = properties (h !!! t) !! "default_track")) in Hrun
    as [[_ Hrun] _]; try done.
  - intros h1 idx s _ [Htypes Hsame]. split.
    + intros x. by rewrite edit_name_type.
    + by rewrite edit_name_default_lookup.
  - intros h1 idx s _ Hsel [Htypes Hsame]. split.
    + intros x. by rewrite edit_default_type.
    + rewrite edit_default_other_type; [done|].
      intros Heq. apply Hty. by rewrite <-Htypes, Heq.
Qed.

Lemma modify_track_properties_other_types_witness :
  let h := [mkTrack 1 "video" "AVC" {["default_track" := PBool true]};
            mkTrack 2 "audio" "AAC" ∅] in
  let h' := [mkTrack 1 "video" "AVC" {["default_track" := PBool true]};
             mkTrack 2 "audio" "AAC" {["default_track" := PBool true]}] in
  properties (h' !!! 0%nat) !! "default_track"
  = properties (h !!! 0%nat) !! "default_track".
Proof.
  intros h h'.
  apply (modify_track_properties_other_types h [0; 1]%nat
           ["y"; "2"; ""; "y"; "f"] (Ok ()) h' [] 0%nat).
  - vm_compute. reflexivity.
  - rewrite !not_elem_of_cons. repeat split; try discriminate.
    apply not_elem_of_nil.
Defined.

Lemma displayable_alter (f : Track → Track) (r t : loc) (h : heap) :
  (∀ x, displayable x → displayable (f x)) →
  displayable (h !!! t) → displayable (alter f r h !!! t).
Proof.
  intros Hf Ht. rewrite list_lookup_total_alter.
  destruct (decide _) as [[-> _]|_]; [by apply Hf|done].
Qed.

Lemma displayable_set_name s x :
  displayable x → displayable (set_property "track_name" (PStr s) x).
Proof.
  intros [Hlang _]. split; simpl.
  - by rewrite lookup_insert_ne.
  - intros v. rewrite lookup_insert_eq. intros [= <-]. by eexists.
Qed.

Lemma displayable_del_name x :
  displayable x → displayable (del_property "track_name" x).
Proof.
  intros [Hlang _]. split; simpl.
  - by rewrite lookup_delete_ne.
  - intros v. by rewrite lookup_delete_eq.
Qed.

Lemma displayable_set_default v x :
  displayable x → displayable (set_property "default_track" v x).
Proof.
  intros [Hlang Hname]. split; simpl.
  - by rewrite lookup_insert_ne.
  - intros v'. rewrite lookup_insert_ne by done. apply Hname.
Qed.

Lemma displayable_edit_name sel s h t :
  displayable (h !!! t) → displayable (edit_name sel s h !!! t).
Proof.
  intros Ht. unfold edit_name. repeat case_bool_decide; simpl; try done.
  - apply displayable_alter; [apply displayable_del_name|done].
  - apply displayable_alter; [apply displayable_set_name|done].
Qed.

Lemma displayable_edit_default ws idx sel s h :
  (∀ t, t ∈ ws → displayable (h !!! t)) →
  ∀ t, t ∈ ws → displayable (edit_default ws idx sel s h !!! t).
Proof.
  intros Hh. unfold edit_default, clear_other_defaults.
  repeat case_bool_decide; try done.
  - apply (foldl_invariant
             (λ h1 : heap, ∀ t, t ∈ ws → displayable (h1 !!! t))).
    + intros h1 [i t'] _ Hh1 t Ht. unfold clear_default_step.
      repeat case_match; try by apply Hh1.
      apply displayable_alter; [apply displayable_set_default|by apply Hh1].
    + intros t Ht.
      apply displayable_alter; [apply displayable_set_default|by apply Hh].
  - intros t Ht.
    apply displayable_alter; [apply displayable_set_default|by apply Hh].
Qed.

(** X9.  When the working list can be displayed on entry,
    [modify_track_properties] raises no [TypeError]: it returns, or fails
    with [EOFError] on exhausted input, and the list can be displayed in
    the store it leaves, whatever names were typed. *)
Theorem modify_track_properties_displayable h tracks_to_modify stdin r h'
    stdin' :
  is_Some (display_tracks h tracks_to_modify) →
  modify_track_properties h tracks_to_modify stdin = (r, h', stdin') →
  (r = Ok () ∨ (r = Raised EOFError ∧ stdin' = []))
  ∧ is_Some (display_tracks h' tracks_to_modify).
Proof.
  intros Hdisp Hrun. rewrite display_tracks_is_Some in Hdisp.
  apply (modify_track_properties_invariant
           (λ h1 : heap, ∀ t, t ∈ tracks_to_modify → displayable (h1 !!! t)))
    in Hrun as (Hinv & Htype & Heof); try done.
  - rewrite <-display_tracks_is_Some in Hinv. split; [|done]. destruct r as [[]|[]]; [by left|by right; auto|].
    rewrite Htype in Hinv by done. by destruct Hinv.
  - intros h1 idx s _ Hh1 t Ht. by apply displayable_edit_name, Hh1.
  - intros h1 idx s _ _ Hh1. by apply displayable_edit_default.
Qed.

Lemma modify_track_properties_displayable_witness :
  let h := [mkTrack 2 "audio" "AAC" {["language" := PStr "eng"]}] in
  let h' := [mkTrack 2 "audio" "AAC"
               (<["track_name" := PStr "None"]>
                  {["language" := PStr "eng"]})] in
  (Ok () = Ok () ∨ (@Ok () () = Raised EOFError ∧ @nil string = []))
  ∧ is_Some (display_tracks h' [0%nat]).
Proof.
  intros h h'.
  apply (modify_track_properties_displayable h [0%nat]
           ["y"; "1"; "None"; ""; "f"] (Ok ()) h' []).
  - by eexists.
  - vm_compute. reflexivity.
Defined.

Lemma modify_loop_edit h ws (idx : nat) name rest :
  (idx < length ws)%nat → is_Some (display_tracks h ws) →
  modify_loop h ws (pretty (Z.of_nat idx + 1) :: name :: rest)
  = let sel := ws !!! idx in
    let h1 := edit_name sel (py_strip name) h in
    if bool_decide (track_type (h1 !!! sel) ∈ ["audio"; "subtitles"])
    then match rest with
         | [] => modify_loop h1 ws []
         | line3 :: stdin3 =>
             modify_loop (edit_default ws idx sel (py_lower (py_strip line3))
                            h1) ws stdin3
         end
    else modify_loop h1 ws rest.
Proof.
  intros Hidx [rows Hrows].
  pose proof (pretty_Z_chars (Z.of_nat idx + 1)) as Hchars.
  rewrite modify_loop_unfold at 1. rewrite Hrows. cbv zeta.
  rewrite number_string_strip, number_string_lower by done.
  rewrite bool_decide_eq_false_2
    by (intros Heq; by rewrite Heq in Hchars).
  rewrite py_int_pretty.
  replace (Z.of_nat idx + 1 - 1) with (Z.of_nat idx) by lia.
  rewrite Nat2Z.id.
  destruct (Z.leb_spec 0 (Z.of_nat idx)); [|lia].
  destruct (Z.ltb_spec (Z.of_nat idx) (Z.of_nat (length ws))); [|lia].
  cbn [negb andb]. by destruct rest.
Qed.

Lemma modify_loop_finish h ws rest :
  is_Some (display_tracks h ws) →
  modify_loop h ws ("f" :: rest) = (Ok (), h, rest).
Proof. intros [rows Hrows]. rewrite modify_loop_unfold. by rewrite Hrows. Qed.

Lemma modify_track_properties_enter h ws rest :
  ws ≠ [] →
  modify_track_properties h ws ("y" :: rest) = modify_loop h ws rest.
Proof. by destruct ws. Qed.

Lemma edit_name_length sel s (h : heap) :
  length (edit_name sel s h) = length h.
Proof.
  unfold edit_name.
  repeat case_bool_decide; simpl; by rewrite ?length_alter.
Qed.

Lemma display_edit_name sel s h ws :
  is_Some (display_tracks h ws) →
  is_Some (display_tracks (edit_name sel s h) ws).
Proof.
  rewrite !display_tracks_is_Some. intros Hh t Ht.
  by apply displayable_edit_name, Hh.
Qed.

Lemma display_edit_default ws idx sel s h :
  is_Some (display_tracks h ws) →
  is_Some (display_tracks (edit_default ws idx sel s h) ws).
Proof.
  rewrite !display_tracks_is_Some. by apply displayable_edit_default.
Qed.

(** X10.  Making an audio or a subtitles track the default one works when
    the working list holds each track once: after the user enters the
    editor, types the number of the track, any name answer, [y] at the
    default prompt and [f], the track carries [default_track == True] and no
    other entry of its type does. *)
Theorem modify_track_properties_make_default h ws (idx : nat) name rest :
  let sel := ws !!! idx in
  NoDup ws → (idx < length ws)%nat → (sel < length h)%nat →
  track_type (h !!! sel) ∈ ["audio"; "subtitles"] →
  is_Some (display_tracks h ws) →
  ∃ h',
    modify_track_properties h ws
      ("y" :: pretty (Z.of_nat idx + 1) :: name :: "y" :: "f" :: rest)
    = (Ok (), h', rest)
    ∧ is_default_track h' sel
    ∧ ∀ t, t ∈ ws → track_type (h' !!! t) = track_type (h' !!! sel) →
        is_default_track h' t → t = sel.
Proof.
  intros sel Hnodup Hidx Hsel Hty Hdisp.
  exists (edit_default ws idx sel "y" (edit_name sel (py_strip name) h)).
  split.
  - rewrite modify_track_properties_enter by (intros ->; simpl in Hidx; lia).
    rewrite modify_loop_edit by done. cbv zeta. fold sel.
    rewrite edit_name_type, bool_decide_eq_true_2 by done.
    change (py_lower (py_strip "y")) with "y".
    apply modify_loop_finish. by apply display_edit_default, display_edit_name.
  - apply edit_default_yes_exactly_one; [done..|].
    by rewrite edit_name_length.
Qed.

Lemma modify_track_properties_make_default_witness :
  let h := [mkTrack 1 "audio" "AAC" {["default_track" := PBool true]};
            mkTrack 2 "audio" "AC3" ∅] in
  ∃ h',
    modify_track_properties h [0; 1]%nat ["y"; "2"; "  "; "y"; "f"; "y"]
    = (Ok (), h', ["y"])
    ∧ is_default_track h' 1%nat
    ∧ ∀ t, t ∈ [0; 1]%nat →
        track_type (h' !!! t) = track_type (h' !!! 1%nat) →
        is_default_track h' t → t = 1%nat.
Proof.
  intros h.
  apply (modify_track_properties_make_default h [0; 1]%nat 1 "  " ["y"]).
  - apply NoDup_cons. split; [|apply NoDup_singleton].
    rewrite list_elem_of_singleton. discriminate.
  - simpl. lia.
  - simpl. lia.
  - apply list_elem_of_here.
  - by eexists.
Defined.

Lemma edit_default_blank ws idx sel h : edit_default ws idx sel "" h = h.
Proof. reflexivity. Qed.

Lemma edit_name_blank sel h : edit_name sel "" h = h.
Proof. reflexivity. Qed.

Lemma edit_default_track_id ws (idx : nat) s (h : heap) t :
  (idx < length ws)%nat →
  track_id (edit_default ws idx (ws !!! idx) s h !!! t) = track_id (h !!! t).
Proof.
  intros Hidx.
  destruct (framed_edit_default h ws idx s h Hidx) as [_ Hall].
  - split; [done|]. intros x. split; [|done].
    apply same_but_name_and_default_refl.
  - by destruct (Hall t) as [(? & _) _].
Qed.

Lemma name_value_edit_name sel s (h : heap) :
  (sel < length h)%nat → s ≠ "" →
  name_value (edit_name sel s h !!! sel)
  = Some (if bool_decide (s = "-") then pretty (track_id (h !!! sel)) +:+ ":"
          else pretty (track_id (h !!! sel)) +:+ ":" +:+ s).
Proof.
  intros Hsel Hs. unfold edit_name. case_bool_decide.
  - rewrite list_lookup_total_alter_eq by done.
    unfold name_value. simpl. by rewrite lookup_delete_eq.
  - rewrite bool_decide_eq_false_2 by done. simpl.
    rewrite list_lookup_total_alter_eq by done.
    unfold name_value. simpl. by rewrite lookup_insert_eq.
Qed.

Lemma property_value_in_command inp out (h : heap) ws orig sel flag
    (f : Track → option string) value :
  sel ∈ ws →
  (∀ t, option_values flag (track_property_args t) = option_list (f t)) →
  f (h !!! sel) = Some value →
  has_flag_value flag value
    (build_mkvmerge_command inp out ((λ t, h !!! t) <$> ws) orig).
Proof.
  intros Hsel Hone Hvalue.
  destruct (track_property_args_in_command inp out
              ((λ t, h !!! t) <$> ws) orig (h !!! sel))
    as (pre & post & ->).
  { apply list_elem_of_fmap. by exists sel. }
  apply has_flag_value_app, option_values_elem.
  rewrite Hone, Hvalue. left.
Qed.

(** X11.  A name typed in the editor is the name the command sets: after
    the user enters the editor, types the number of a track, a name, leaves
    the default prompt (asked for an audio or a subtitles track) blank and
    types [f], the command built from the working list holds [--track-name]
    followed by [<id>:<name>], the name being the stripped line, or by
    [<id>:], which clears the name, when that line is [-]. *)
Theorem modify_then_build_track_name h ws (idx : nat) name rest inp out
    orig :
  let sel := ws !!! idx in
  let blank :=
    if bool_decide (track_type (h !!! sel) ∈ ["audio"; "subtitles"])
    then [""] else [] in
  (idx < length ws)%nat → (sel < length h)%nat →
  is_Some (display_tracks h ws) → py_strip name ≠ "" →
  ∃ h',
    modify_track_properties h ws
      ("y" :: pretty (Z.of_nat idx + 1) :: name :: blank ++ "f" :: rest)
    = (Ok (), h', rest)
    ∧ has_flag_value "--track-name"
        (if bool_decide (py_strip name = "-")
         then pretty (track_id (h !!! sel)) +:+ ":"
         else pretty (track_id (h !!! sel)) +:+ ":" +:+ py_strip name)
        (build_mkvmerge_command inp out ((λ t, h' !!! t) <$> ws) orig).
Proof.
  intros sel blank Hidx Hsel Hdisp Hname.
  exists (edit_name sel (py_strip name) h). subst blank sel. split.
  - rewrite modify_track_properties_enter by (intros ->; simpl in Hidx; lia).
    rewrite modify_loop_edit by done. cbv zeta.
    rewrite edit_name_type.
    destruct (decide (track_type (h !!! (ws !!! idx))
                      ∈ ["audio"; "subtitles"])) as [Hty|Hty].
    + rewrite !bool_decide_eq_true_2 by done.
      cbn [app]. change (py_lower (py_strip "")) with "".
      rewrite edit_default_blank.
      by apply modify_loop_finish, display_edit_name.
    + rewrite !bool_decide_eq_false_2 by done.
      by apply modify_loop_finish, display_edit_name.
  - apply (property_value_in_command _ _ _ _ _ (ws !!! idx) _ name_value).
    + by apply working_list_entry.
    + apply option_values_name.
    + by apply name_value_edit_name.
Qed.

Lemma modify_then_build_track_name_witness :
  let h := [mkTrack 0 "video" "AVC" ∅;
            mkTrack 1 "audio" "AAC" {["track_name" := PStr "old"]}] in
  ∃ h',
    modify_track_properties h [0; 1]%nat
      ("y" :: "2" :: " Commentary " :: [""] ++ "f" :: ["y"])
    = (Ok (), h', ["y"])
    ∧ has_flag_value "--track-name" "1:Commentary"
        (build_mkvmerge_command "in.mkv" "out.mkv"
           ((λ t, h' !!! t) <$> [0; 1]%nat) (mkMkvData (Some h))).
Proof.
  intros h.
  apply (modify_then_build_track_name h [0; 1]%nat 1 " Commentary " ["y"]
           "in.mkv" "out.mkv" (mkMkvData (Some h))).
  - simpl. lia.
  - simpl. lia.
  - by eexists.
  - discriminate.
Defined.

(** X12.  An answer to the default prompt is the flag the command sets:
    after the user enters the editor, types the number of an audio or a
    subtitles track, leaves the name prompt blank, answers the default
    prompt and types [f], the command built from the working list holds
    [--default-track] followed by [<id>:0] when the answer is [n], and by
    [<id>:1] when it is [y] and the working list holds each track once. *)
Theorem modify_then_build_default_track h ws (idx : nat) answer rest inp
    out orig :
  let sel := ws !!! idx in
  let default_str := py_lower (py_strip answer) in
  (idx < length ws)%nat → (sel < length h)%nat →
  track_type (h !!! sel) ∈ ["audio"; "subtitles"] →
  is_Some (display_tracks h ws) →
  default_str = "n" ∨ (default_str = "y" ∧ NoDup ws) →
  ∃ h',
    modify_track_properties h ws
      ("y" :: pretty (Z.of_nat idx + 1) :: "" :: answer :: "f" :: rest)
    = (Ok (), h', rest)
    ∧ has_flag_value "--default-track"
        (pretty (track_id (h !!! sel)) +:+ ":"
         +:+ (if bool_decide (default_str = "y") then "1" else "0"))
        (build_mkvmerge_command inp out ((λ t, h' !!! t) <$> ws) orig).
Proof.
  intros sel default_str Hidx Hsel Hty Hdisp Hanswer.
  exists (edit_default ws idx sel default_str h).
  subst sel default_str. split.
  - rewrite modify_track_properties_enter by (intros ->; simpl in Hidx; lia).
    rewrite modify_loop_edit by done. cbv zeta.
    change (py_strip "") with "". rewrite edit_name_blank.
    rewrite bool_decide_eq_true_2 by done.
    by apply modify_loop_finish, display_edit_default.
  - apply (property_value_in_command _ _ _ _ _ (ws !!! idx) _ default_value).
    + by apply working_list_entry.
    + apply option_values_default.
    + unfold default_value.
      rewrite edit_default_track_id by done.
      destruct Hanswer as [->|[-> Hnodup]].
      * unfold edit_default. simpl. by rewrite heap_set_default, decide_True.
      * destruct (edit_default_yes_exactly_one ws idx h Hnodup Hidx Hsel)
          as [Hd _].
        unfold is_default_track in Hd.
        destruct (properties _ !! "default_track") as [v|] eqn:Hv.
        -- by injection Hd as ->.
        -- discriminate Hd.
Qed.

Lemma modify_then_build_default_track_witness :
  let h := [mkTrack 0 "video" "AVC" ∅;
            mkTrack 1 "audio" "AAC" {["default_track" := PBool true]}] in
  ∃ h',
    modify_track_properties h [0; 1]%nat ["y"; "2"; ""; " N "; "f"; "y"]
    = (Ok (), h', ["y"])
    ∧ has_flag_value "--default-track" "1:0"
        (build_mkvmerge_command "in.mkv" "out.mkv"
           ((λ t, h' !!! t) <$> [0; 1]%nat) (mkMkvData (Some h))).
Proof.
  intros h.
  apply (modify_then_build_default_track h [0; 1]%nat 1 " N " ["y"]
           "in.mkv" "out.mkv" (mkMkvData (Some h))).
  - simpl. lia.
  - simpl. lia.
  - apply list_elem_of_here.
  - by eexists.
  - by left.
Defined.

(** ** The stable sort: further properties *)

Section py_sort_sorted.
Context {A : Type} (key : A → Z).
Local Abbreviation le_key := (λ a b : A, key a <= key b).

Lemma py_sort_strongly_sorted l : StronglySorted le_key (py_sort key l).
Proof.
  induction l as [|x l IH]; simpl; [constructor|].
  by apply insert_by_key_sorted.
Qed.

Lemma insert_by_key_head x l :
  Forall (λ y, key x <= key y) l → insert_by_key key x l = x :: l.
Proof.
  destruct l as [|y l]; [done|]. intros Hall. simpl.
  apply Forall_cons in Hall as [Hy _].
  by destruct (Z.leb_spec (key x) (key y)); [|lia].
Qed.

Lemma py_sort_sorted_id l : StronglySorted le_key l → py_sort key l = l.
Proof.
  induction 1 as [|x l Hl IH Hx]; [done|].
  simpl. fold (py_sort key l). rewrite IH. by apply insert_by_key_head.
Qed.



End py_sort_sorted.

Lemma py_sort_ext {A} (key key' : A → Z) l :
  (∀ x, key x = key' x) → py_sort key l = py_sort key' l.
Proof.
  intros Hkey. induction l as [|x l IH]; [done|].
  simpl. fold (py_sort key l) (py_sort key' l). rewrite IH.
  generalize (py_sort key' l). intros k.
  induction k as [|y k IHk]; [done|]. simpl. by rewrite !Hkey, IHk.
Qed.



Lemma list_filter_fmap_pre {A B} (f : A → B) (P : B → Prop)
    `{∀ x, Decision (P x)} (l : list A) :
  filter P (f <$> l) = f <$> filter (λ x, P (f x)) l.
Proof.
  induction l as [|x l IH]; [done|].
  rewrite fmap_cons, !filter_cons. simpl.
  case_decide; by rewrite ?fmap_cons, IH.
Qed.

(** ** main: further properties *)

Lemma select_tracks_to_keep_strongly_sorted h all_tracks stdin kept stdin' :
  select_tracks_to_keep h all_tracks stdin = (Ok kept, stdin') →
  StronglySorted (λ a b, track_id (h !!! a) <= track_id (h !!! b)) kept.
Proof.
  intros [extra ->]%select_tracks_to_keep_result.
  apply (py_sort_strongly_sorted (λ t, track_id (h !!! t))).
Qed.

Lemma modify_track_properties_same h ws stdin r h' stdin' t :
  modify_track_properties h ws stdin = (r, h', stdin') →
  same_but_name_and_default (h' !!! t) (h !!! t).
Proof.
  intros Hrun.
  apply (modify_track_properties_invariant
           (λ h1 : heap,
              length h1 = length h
              ∧ ∀ t, same_but_name_and_default (h1 !!! t) (h !!! t)
                     ∧ (t ∉ ws → h1 !!! t = h !!! t))) in Hrun
    as [[_ Hall] _].
  - by destruct (Hall t).
  - intros. by apply framed_edit_name.
  - intros. by apply framed_edit_default.
  - split; [done|]. intros x. split; [|done].
    apply same_but_name_and_default_refl.
Qed.

Lemma kept_tracks_resorted h all_tracks stdin kept stdin1 r h' stdin2 :
  select_tracks_to_keep h all_tracks stdin = (Ok kept, stdin1) →
  modify_track_properties h kept stdin1 = (r, h', stdin2) →
  py_sort (λ t, track_id (h !!! t)) kept = kept
  ∧ py_sort (λ t, track_id (h' !!! t)) kept = kept.
Proof.
  intros Hsel%select_tracks_to_keep_strongly_sorted Hmod.
  assert (py_sort (λ t, track_id (h !!! t)) kept = kept) as Hsame
    by (by apply py_sort_sorted_id).
  split; [done|]. rewrite <-Hsame at 2. apply py_sort_ext.
  intros t. by destruct (modify_track_properties_same _ _ _ _ _ _ t Hmod).
Qed.

(** X13.  The two sorts that [main] applies to the kept list, before and
    after the editor, change nothing: what [select_tracks_to_keep] returns
    is in ascending order of id, and the editor changes no id.  The tracks
    reach the command in the order the selection left them. *)
Theorem kept_tracks_stay_sorted h all_tracks stdin kept stdin1 r h' stdin2 :
  select_tracks_to_keep h all_tracks stdin = (Ok kept, stdin1) →
  modify_track_properties h kept stdin1 = (r, h', stdin2) →
  py_sort (λ t, track_id (h !!! t)) kept = kept
  ∧ py_sort (λ t, track_id (h' !!! t)) kept = kept.
Proof.
  intros [extra ->]%select_tracks_to_keep_result Hmod.
  set (key := λ t : loc, track_id (h !!! t)) in *.
  assert (py_sort key (py_sort key (tracks_of_type h "video" all_tracks
                                    ++ extra))
          = py_sort key (tracks_of_type h "video" all_tracks ++ extra))
    as Hidem by apply py_sort_sorted_id, py_sort_strongly_sorted.
  split; [done|]. rewrite <-Hidem at 2. apply py_sort_ext.
  intros t. subst key. simpl.
  by destruct (modify_track_properties_same _ _ _ _ _ _ t Hmod).
Qed.

Lemma kept_tracks_stay_sorted_witness :
  let h := [mkTrack 0 "video" "AVC" ∅; mkTrack 1 "audio" "AAC" ∅;
            mkTrack 2 "audio" "AC3" ∅] in
  let h' := [mkTrack 0 "video" "AVC" ∅; mkTrack 1 "audio" "AAC" ∅;
             mkTrack 2 "audio" "AC3" {["track_name" := PStr "b"]}] in
  py_sort (λ t, track_id (h !!! t)) [0; 1; 2]%nat = [0; 1; 2]%nat
  ∧ py_sort (λ t, track_id (h' !!! t)) [0; 1; 2]%nat = [0; 1; 2]%nat.
Proof.
  intros h h'.
  apply (kept_tracks_stay_sorted h [0; 1; 2]%nat ["3,2"; "y"; "3"; "b"; "";
                                                  "f"]
           [0; 1; 2]%nat ["y"; "3"; "b"; ""; "f"] (Ok ()) h' []).
  - vm_compute. reflexivity.
  - vm_compute. reflexivity.
Defined.

Lemma read_input_path_cons w line stdin1 :
  read_input_path w (line :: stdin1)
  = let mkv_filepath := py_strip line in
    if negb (isfile w mkv_filepath) then read_input_path w stdin1
    else if negb (py_endswith (py_lower mkv_filepath) ".mkv") then
      match stdin1 with
      | [] => (Raised EOFError, [])
      | answer :: stdin2 =>
          if negb (bool_decide (py_lower answer = "y"))
          then read_input_path w stdin2
          else (Ok mkv_filepath, stdin2)
      end
    else (Ok mkv_filepath, stdin1).
Proof. reflexivity. Qed.

Lemma read_input_path_outcome w stdin r stdin' :
  read_input_path w stdin = (r, stdin') →
  match r with
  | Ok path =>
      isfile w path = true ∧ ∃ line, line ∈ stdin ∧ path = py_strip line
  | Raised e => e = EOFError ∧ stdin' = []
  end.
Proof.
  assert (∀ n stdin, (length stdin < n)%nat →
            read_input_path w stdin = (r, stdin') →
            match r with
            | Ok path =>
                isfile w path = true
                ∧ ∃ line, line ∈ stdin ∧ path = py_strip line
            | Raised e => e = EOFError ∧ stdin' = []
            end) as Hind; [|apply (Hind (S (length stdin))); lia].
  clear stdin. induction n as [|n IH]; intros stdin Hn; [lia|].
  destruct stdin as [|line stdin1]; [by intros [= <- <-]|].
  assert (∀ stdin0, (length stdin0 < n)%nat →
            (∀ l, l ∈ stdin0 → l ∈ line :: stdin1) →
            read_input_path w stdin0 = (r, stdin') →
            match r with
            | Ok path =>
                isfile w path = true
                ∧ ∃ l, l ∈ line :: stdin1 ∧ path = py_strip l
            | Raised e => e = EOFError ∧ stdin' = []
            end) as Hrec.
  { intros stdin0 Hlen Hsub Hrun. apply IH in Hrun; [|done].
    destruct r; [|done]. destruct Hrun as (? & l & ? & ?).
    split; [done|]. exists l. by auto. }
  rewrite read_input_path_cons. cbv zeta. simpl in Hn.
  destruct (isfile w (py_strip line)) eqn:Hfile; cbn [negb].
  - destruct (py_endswith _ _); cbn [negb].
    + intros [= <- <-]. split; [done|]. exists line. split; [left|done].
    + destruct stdin1 as [|answer stdin2]; [by intros [= <- <-]|].
      simpl in Hn. case_bool_decide; cbn [negb].
      * intros [= <- <-]. split; [done|]. exists line. split; [left|done].
      * apply Hrec; [lia|]. intros l Hl. by do 2 right.
  - apply Hrec; [lia|]. intros l Hl. by right.
Qed.

Lemma choose_output_path_unfold w output_filepath_base ext output_filepath
    count stdin :
  choose_output_path w output_filepath_base ext output_filepath count stdin
  = if negb (path_exists w output_filepath)
    then (Ok (Some output_filepath), stdin)
    else
      match stdin with
      | [] => (Raised EOFError, [])
      | line :: stdin' =>
          let overwrite_choice := py_lower line in
          if bool_decide (overwrite_choice = "o")
          then (Ok (Some output_filepath), stdin')
          else if bool_decide (overwrite_choice = "r")
          then choose_output_path w output_filepath_base ext
                 (output_filepath_base +:+ "_" +:+ pretty count +:+ ext)
                 (count + 1) stdin'
          else if bool_decide (overwrite_choice = "c")
          then (Ok None, stdin')
          else choose_output_path w output_filepath_base ext output_filepath
                 count stdin'
      end.
Proof. by destruct stdin. Qed.

(** The loop [while os.path.exists(output_filepath)]: the path it leaves is
    the first candidate or a numbered one, and it is free unless the user
    asked to overwrite; the loop fails only on exhausted input. *)
Lemma choose_output_path_outcome w base ext stdin :
  ∀ cur count r stdin',
    choose_output_path w base ext cur count stdin = (r, stdin') →
    match r with
    | Ok (Some out) =>
        (length stdin' ≤ length stdin)%nat
        ∧ (out = cur
           ∨ ∃ k, count <= k
                  < count + Z.of_nat (length stdin - length stdin')
                  ∧ out = base +:+ "_" +:+ pretty k +:+ ext)
        ∧ (path_exists w out = false
           ∨ ∃ line, line ∈ stdin ∧ py_lower line = "o")
    | Ok None => ∃ line, line ∈ stdin ∧ py_lower line = "c"
    | Raised e => e = EOFError ∧ stdin' = []
    end.
Proof.
  induction stdin as [|line stdin IH]; intros cur count r stdin';
    rewrite choose_output_path_unfold.
  - destruct (path_exists w cur) eqn:Hex; cbn [negb];
      [by intros [= <- <-]|].
    intros [= <- <-]. split; [done|]. by split; left.
  - destruct (path_exists w cur) eqn:Hex; cbn [negb]; cbv zeta.
    2: { intros [= <- <-]. split; [done|]. by split; left. }
    case_bool_decide as Ho.
    { intros [= <- <-]. split; [simpl; lia|]. split; [by left|].
      right. exists line. split; [left|done]. }
    case_bool_decide as Hr.
    { intros Hrec%IH. destruct r as [[out|]|e]; [| |done].
      - destruct Hrec as (Hlen & Hout & Hfree). split; [simpl; lia|]. split.
        + right. destruct Hout as [->|(k & Hk & ->)].
          * exists count. split; [simpl length; lia|done].
          * exists k. split; [simpl length; lia|done].
        + destruct Hfree as [?|(l & ? & ?)]; [by left|].
          right. exists l. split; [by right|done].
      - destruct Hrec as (l & ? & ?). exists l. split; [by right|done]. }
    case_bool_decide as Hc.
    { intros [= <- <-]. exists line. split; [left|done]. }
    intros Hrec%IH. destruct r as [[out|]|e]; [| |done].
    + destruct Hrec as (Hlen & Hout & Hfree). split; [simpl; lia|]. split.
      * destruct Hout as [->|(k & Hk & ->)]; [by left|].
        right. exists k. split; [simpl length; lia|done].
      * destruct Hfree as [?|(l & ? & ?)]; [by left|].
        right. exists l. split; [by right|done].
    + destruct Hrec as (l & ? & ?). exists l. split; [by right|done].
Qed.

(** What has happened when [main] gets as far as building the command. *)
Lemma main_builds_inv w stdin cmd :
  main_builds w stdin cmd →
  ∃ path stdin1 data tracks0 kept stdin2 h' stdin3 out stdin4,
    let h := py_sort track_id tracks0 in
    read_input_path w stdin = (Ok path, stdin1)
    ∧ get_mkv_info w path = Some data ∧ tracks data = Some tracks0
    ∧ select_tracks_to_keep h (seq 0 (length h)) stdin1 = (Ok kept, stdin2)
    ∧ kept ≠ []
    ∧ modify_track_properties h kept stdin2 = (Ok (), h', stdin3)
    ∧ choose_output_path w ((splitext w path).1 +:+ "_modified")
        (splitext w path).2
        (((splitext w path).1 +:+ "_modified") +:+ (splitext w path).2)
        1 stdin3
      = (Ok (Some out), stdin4)
    ∧ cmd = build_mkvmerge_command path out ((λ t, h' !!! t) <$> kept)
              (mkMkvData (Some h')).
Proof.
  unfold main_builds, main. intros Hrun.
  destruct (mkvmerge_found w); cbn [negb] in Hrun; [|by destruct Hrun].
  destruct (read_input_path w stdin) as [[path|e] stdin1] eqn:Hread;
    [|by destruct Hrun].
  destruct (get_mkv_info w path) as [data|] eqn:Hinfo; [|by destruct Hrun].
  destruct (tracks data) as [tracks0|] eqn:Htracks; [|by destruct Hrun].
  assert (main_with_tracks w path tracks0 stdin1 = Ran cmd
          ∨ main_with_tracks w path tracks0 stdin1 = NotConfirmed cmd)
    as Hmain.
  { destruct tracks0 as [|t0 ts]; [|exact Hrun].
    destruct Hrun as [Hrun|Hrun]; discriminate Hrun. }
  clear Hrun. unfold main_with_tracks in Hmain.
  set (h := py_sort track_id tracks0) in *.
  destruct (display_tracks h (seq 0 (length h))); [|by destruct Hmain].
  destruct (select_tracks_to_keep h (seq 0 (length h)) stdin1)
    as [[kept|e] stdin2] eqn:Hsel; [|by destruct Hmain].
  assert (kept ≠ []) as Hkept by (intros ->; by destruct Hmain).
  assert (py_sort (λ t, track_id (h !!! t)) kept = kept) as Hsort1.
  { by apply py_sort_sorted_id,
      (select_tracks_to_keep_strongly_sorted _ _ _ _ _ Hsel). }
  rewrite Hsort1 in Hmain.
  destruct kept as [|k0 kept]; [done|].
  destruct (display_tracks h (k0 :: kept)); [|by destruct Hmain].
  destruct (modify_track_properties h (k0 :: kept) stdin2)
    as [[[[]|e] h'] stdin3] eqn:Hmod; [|by destruct Hmain].
  destruct (kept_tracks_resorted _ _ _ _ _ _ _ _ Hsel Hmod) as [_ Hsort2].
  rewrite Hsort2 in Hmain.
  destruct (display_tracks h' (k0 :: kept)); [|by destruct Hmain].
  destruct (splitext w path) as [base ext] eqn:Hsplit.
  destruct (choose_output_path w _ _ _ _ _) as [[[out|]|e] stdin4]
    eqn:Hout in Hmain; [| by destruct Hmain..].
  assert (cmd = build_mkvmerge_command path out
                  ((λ t, h' !!! t) <$> k0 :: kept) (mkMkvData (Some h')))
    as Hcmd.
  { destruct stdin4 as [|line stdin5]; [by destruct Hmain|].
    case_bool_decide; destruct Hmain as [Hmain|Hmain];
      try discriminate Hmain; by injection Hmain as <-. }
  exists path, stdin1, data, tracks0, (k0 :: kept), stdin2, h', stdin3, out,
    stdin4.
  cbv zeta. fold h. rewrite Hsplit. by repeat split.
Qed.

(** X14.  [main] never names the input file as the output file: when it
    builds a command, the command reads a path that is a file and writes to
    another path.  [os.path.splitext] splits a path in two parts that
    concatenate to it. *)
Theorem main_output_is_not_input w stdin cmd :
  (∀ p, (splitext w p).1 +:+ (splitext w p).2 = p) →
  main_builds w stdin cmd →
  ∃ path out options,
    cmd = ["mkvmerge"; "-q"; "-o"; out] ++ options ++ [path]
    ∧ isfile w path = true ∧ out ≠ path.
Proof.
  intros Hsplit Hrun.
  destruct (main_builds_inv _ _ _ Hrun)
    as (path & stdin1 & data & tracks0 & kept & stdin2 & h' & stdin3 & out
        & stdin4 & Hread & _ & _ & _ & _ & _ & Hout & ->).
  exists path, out. eexists. split; [apply build_mkvmerge_command_shape|].
  apply read_input_path_outcome in Hread as [Hfile _]. split; [done|].
  apply choose_output_path_outcome in Hout as (_ & Hout & _).
  intros Heq. apply (f_equal String.length) in Heq.
  rewrite <-(Hsplit path) in Heq at 1.
  destruct Hout as [->|(k & _ & ->)];
    rewrite !string_length_app in Heq; simpl in Heq; lia.
Qed.

Lemma main_output_is_not_input_witness :
  ∃ path out options,
    sample_command = ["mkvmerge"; "-q"; "-o"; out] ++ options ++ [path]
    ∧ isfile sample_world path = true ∧ out ≠ path.
Proof.
  apply (main_output_is_not_input sample_world
           [" in.mkv "; "3"; "n"; "r"; "y"] sample_command).
  - intros p. unfold sample_world. simpl. case_bool_decide; simpl.
    + by subst p.
    + apply append_empty_r.
  - left. vm_compute. reflexivity.
Defined.

Lemma string_app_assoc (a b c : string) : (a +:+ b) +:+ c = a +:+ b +:+ c.
Proof.
  induction a as [|x a IH]; [done|].
  change (String x ((a +:+ b) +:+ c) = String x (a +:+ b +:+ c)).
  by f_equal.
Qed.

Lemma read_input_path_suffix w stdin r stdin' :
  read_input_path w stdin = (r, stdin') → stdin' `suffix_of` stdin.
Proof.
  assert (∀ n stdin, (length stdin < n)%nat →
            read_input_path w stdin = (r, stdin') →
            stdin' `suffix_of` stdin) as Hind;
    [|apply (Hind (S (length stdin))); lia].
  clear stdin. induction n as [|n IH]; intros stdin Hn; [lia|].
  destruct stdin as [|line stdin1]; [by intros [= _ <-]|].
  rewrite read_input_path_cons. cbv zeta. simpl in Hn.
  destruct (negb (isfile w (py_strip line))).
  { intros Hrun. apply suffix_cons_r, IH; [lia|done]. }
  destruct (negb (py_endswith _ _)).
  - destruct stdin1 as [|answer stdin2]; [intros [= _ <-]; apply suffix_nil|].
    simpl in Hn. destruct (negb (bool_decide _)).
    + intros Hrun. do 2 apply suffix_cons_r. apply IH; [lia|done].
    + intros [= _ <-]. by do 2 apply suffix_cons_r.
  - intros [= _ <-]. by apply suffix_cons_r.
Qed.

Lemma selection_loop_suffix (m : gmap Z loc) s e kept stdin r stdin' :
  selection_loop m s e kept stdin = (r, stdin') → stdin' `suffix_of` stdin.
Proof.
  induction stdin as [|line stdin IH]; [by intros [= _ <-]|].
  rewrite selection_loop_cons. destruct (read_selection _ _ _).
  - intros [= _ <-]. by apply suffix_cons_r.
  - intros Hrun. by apply suffix_cons_r, IH.
Qed.

Lemma select_group_suffix group (m : gmap Z loc) n kept stdin r stdin' :
  select_group group m n kept stdin = (r, stdin') → stdin' `suffix_of` stdin.
Proof.
  unfold select_group. destruct group as [|t group]; [by intros [= _ <-]|].
  destruct (number_tracks _ _ _) as [m1 n1].
  destruct (selection_loop _ _ _ _ _) as [[k1|e1] s1] eqn:Hloop;
    intros [= _ <-]; by eapply selection_loop_suffix.
Qed.

Lemma select_tracks_to_keep_suffix h all_tracks stdin r stdin' :
  select_tracks_to_keep h all_tracks stdin = (r, stdin') →
  stdin' `suffix_of` stdin.
Proof.
  unfold select_tracks_to_keep.
  destruct (number_tracks _ ∅ 1) as [m0 n0].
  destruct (select_group _ m0 n0 _ stdin) as [[[[m1 n1] k1]|e1] s1] eqn:Ha.
  - apply select_group_suffix in Ha.
    destruct (select_group _ m1 n1 k1 s1) as [[[[m2 n2] k2]|e2] s2] eqn:Hs;
      apply select_group_suffix in Hs; intros [= _ <-]; by etrans.
  - apply select_group_suffix in Ha. by intros [= _ <-].
Qed.

Lemma modify_loop_suffix ws stdin :
  ∀ h r h' stdin',
    modify_loop h ws stdin = (r, h', stdin') → stdin' `suffix_of` stdin.
Proof.
  assert (∀ n stdin, (length stdin < n)%nat → ∀ h r h' stdin',
            modify_loop h ws stdin = (r, h', stdin') →
            stdin' `suffix_of` stdin) as Hind;
    [|apply (Hind (S (length stdin))); lia].
  clear stdin. induction n as [|n IH]; intros stdin Hn; [lia|].
  intros h r h' stdin'. rewrite modify_loop_unfold.
  destruct (display_tracks h ws); [|by intros [= _ _ <-]].
  destruct stdin as [|line stdin1]; [by intros [= _ _ <-]|]. cbv zeta.
  case_bool_decide; [intros [= _ _ <-]; by apply suffix_cons_r|].
  assert (∀ stdin0 h0, (length stdin0 < n)%nat →
            stdin0 `suffix_of` line :: stdin1 →
            modify_loop h0 ws stdin0 = (r, h', stdin') →
            stdin' `suffix_of` line :: stdin1) as Hrec.
  { intros stdin0 h0 Hlen Hsuf Hrun. etrans; [by eapply IH|done]. }
  simpl in Hn.
  destruct (py_int (py_strip line)) as [num|];
    [|apply Hrec; [lia|by apply suffix_cons_r]].
  destruct (negb _); [apply Hrec; [lia|by apply suffix_cons_r]|].
  destruct stdin1 as [|line2 stdin2];
    [apply Hrec; [simpl; lia|by apply suffix_cons_r]|].
  simpl in Hn. case_bool_decide.
  - destruct stdin2 as [|line3 stdin3].
    + apply Hrec; [simpl; lia|by do 2 apply suffix_cons_r].
    + apply Hrec; [simpl in *; lia|by do 3 apply suffix_cons_r].
  - apply Hrec; [lia|by do 2 apply suffix_cons_r].
Qed.

Lemma modify_track_properties_suffix h ws stdin r h' stdin' :
  modify_track_properties h ws stdin = (r, h', stdin') →
  stdin' `suffix_of` stdin.
Proof.
  unfold modify_track_properties.
  destruct ws as [|t0 ws]; [by intros [= _ _ <-]|].
  destruct stdin as [|line stdin]; [by intros [= _ _ <-]|].
  case_match; [intros [= _ _ <-]; by apply suffix_cons_r|].
  intros Hrun. by apply suffix_cons_r, (modify_loop_suffix _ _ _ _ _ _ Hrun).
Qed.

(** X15.  The output path that [main] settles on is [<base>_modified<ext>]
    or [<base>_modified_<k><ext>], where [<base>] and [<ext>] are the two
    parts of the input path and [k] is at least 1 and at most the number of
    lines typed; and no file exists at that path unless the user answered
    [o], to overwrite. *)
Theorem main_output_path w stdin cmd :
  main_builds w stdin cmd →
  ∃ path out options,
    cmd = ["mkvmerge"; "-q"; "-o"; out] ++ options ++ [path]
    ∧ (out = (splitext w path).1 +:+ "_modified" +:+ (splitext w path).2
       ∨ ∃ k, 1 <= k <= Z.of_nat (length stdin)
              ∧ out = (splitext w path).1 +:+ "_modified_" +:+ pretty k
                      +:+ (splitext w path).2)
    ∧ (path_exists w out = false
       ∨ ∃ line, line ∈ stdin ∧ py_lower line = "o").
Proof.
  intros Hrun.
  destruct (main_builds_inv _ _ _ Hrun)
    as (path & stdin1 & data & tracks0 & kept & stdin2 & h' & stdin3 & out
        & stdin4 & Hread & _ & _ & Hsel & _ & Hmod & Hout & ->).
  exists path, out. eexists. split; [apply build_mkvmerge_command_shape|].
  assert (stdin3 `suffix_of` stdin) as Hsuffix.
  { apply read_input_path_suffix in Hread.
    apply select_tracks_to_keep_suffix in Hsel.
    apply modify_track_properties_suffix in Hmod.
    by repeat (etrans; [eassumption|]). }
  apply choose_output_path_outcome in Hout as (_ & Hout & Hfree). split.
  - destruct Hout as [->|(k & Hk & ->)].
    + left. apply string_app_assoc.
    + right. exists k. split; [|by rewrite string_app_assoc].
      apply suffix_length in Hsuffix. lia.
  - destruct Hfree as [?|(line & Hline & ?)]; [by left|].
    right. exists line. split; [|done]. by eapply elem_of_suffix.
Qed.

Lemma main_output_path_witness :
  ∃ path out options,
    sample_command = ["mkvmerge"; "-q"; "-o"; out] ++ options ++ [path]
    ∧ (out = (splitext sample_world path).1 +:+ "_modified"
             +:+ (splitext sample_world path).2
       ∨ ∃ k, 1 <= k
              <= Z.of_nat (length [" in.mkv "; "3"; "n"; "r"; "y"])
              ∧ out = (splitext sample_world path).1 +:+ "_modified_"
                      +:+ pretty k +:+ (splitext sample_world path).2)
    ∧ (path_exists sample_world out = false
       ∨ ∃ line, line ∈ [" in.mkv "; "3"; "n"; "r"; "y"]
                 ∧ py_lower line = "o").
Proof.
  apply (main_output_path sample_world [" in.mkv "; "3"; "n"; "r"; "y"]
           sample_command).
  left. vm_compute. reflexivity.
Defined.

Lemma read_selection_in_range s e raw idxs :
  s <= e → read_selection s e raw = Some idxs →
  Forall (λ i, s <= i < e) idxs.
Proof.
  intros Hse. unfold read_selection. case_bool_decide.
  - intros [= <-]. apply Forall_seqZ. intros. lia.
  - destruct (_ || _); [intros [= <-]; constructor|].
    destruct (mapM _ _) as [l|]; [|done].
    destruct (forallb _ l) eqn:Hall; [|done].
    intros [= <-]. by apply forallb_in_range.
Qed.

Lemma selection_loop_from_group group (m : gmap Z loc) n kept stdin kept'
    stdin' :
  selection_loop (number_tracks group m n).1 n (n + Z.of_nat (length group))
    kept stdin = (Ok kept', stdin') →
  ∃ extra, kept' = kept ++ extra ∧ ∀ t, t ∈ extra → t ∈ group.
Proof.
  induction stdin as [|line stdin IH]; [done|].
  rewrite selection_loop_cons.
  destruct (read_selection _ _ _) as [idxs|] eqn:Hread; [|done].
  intros [= <- _]. apply read_selection_in_range in Hread; [|lia].
  rewrite append_selected_omap, omap_numbered by done.
  eexists. split; [done|]. intros t. by apply selected_tracks_elem.
Qed.

Lemma select_group_from_group group (m : gmap Z loc) n kept stdin st stdin' :
  select_group group m n kept stdin = (Ok st, stdin') →
  ∃ extra, st.2 = kept ++ extra ∧ ∀ t, t ∈ extra → t ∈ group.
Proof.
  unfold select_group. destruct group as [|a group].
  - intros [= <- _]. exists []. split; [by rewrite app_nil_r|].
    by intros t ?%elem_of_nil.
  - pose proof (number_tracks_snd (a :: group) m n) as Hsnd.
    destruct (number_tracks _ _ _) as [m1 n1] eqn:Hnum.
    cbn [snd] in Hsnd. subst n1.
    replace m1 with (number_tracks (a :: group) m n).1 by (by rewrite Hnum).
    destruct (selection_loop _ _ _ _ _) as [[k1|?] ?] eqn:Hloop; [|done].
    intros [= <- _]. by apply selection_loop_from_group in Hloop.
Qed.

(** What is kept besides the video tracks holds no video track. *)
Lemma select_tracks_to_keep_extra h all_tracks stdin kept stdin' :
  select_tracks_to_keep h all_tracks stdin = (Ok kept, stdin') →
  ∃ extra,
    kept = py_sort (λ t, track_id (h !!! t))
             (tracks_of_type h "video" all_tracks ++ extra)
    ∧ ∀ t, t ∈ extra → track_type (h !!! t) ≠ "video".
Proof.
  unfold select_tracks_to_keep.
  destruct (number_tracks _ ∅ 1) as [m0 n0].
  destruct (select_group _ m0 n0 _ stdin) as [[[[m1 n1] k1]|?] s1] eqn:Ha;
    [|done].
  destruct (select_group _ m1 n1 k1 s1) as [[[[m2 n2] k2]|?] s2] eqn:Hs;
    [|done].
  intros [= <- _].
  apply select_group_from_group in Ha as (xa & Ha & Hxa).
  apply select_group_from_group in Hs as (xs & Hs & Hxs).
  simpl in Ha, Hs. subst. exists (xa ++ xs).
  split; [by rewrite app_assoc|].
  intros t [Ht|Ht]%elem_of_app.
  - apply Hxa, list_elem_of_filter in Ht as [-> _]. done.
  - apply Hxs, list_elem_of_filter in Ht as [-> _]. done.
Qed.








(** X17.  [main] stops for want of kept tracks only when the file it was
    given has no video track: the path that the path loop lets through from
    the input is probed, and no track of the document that the probe
    returns for it has type [video].  The video tracks are kept whatever is
    typed. *)
Theorem main_nothing_kept w stdin :
  main w stdin = NothingKept →
  ∃ path stdin1 data tracks0,
    read_input_path w stdin = (Ok path, stdin1)
    ∧ get_mkv_info w path = Some data ∧ tracks data = Some tracks0
    ∧ ∀ t, t ∈ tracks0 → track_type t ≠ "video".
Proof.
  unfold main. destruct (mkvmerge_found w); [|done]. cbn [negb].
  destruct (read_input_path w stdin) as [[path|e] stdin1]; [|done].
  destruct (get_mkv_info w path) as [data|] eqn:Hinfo; [|done].
  destruct (tracks data) as [tracks0|] eqn:Htracks; [|done].
  intros Hrun. exists path, stdin1, data, tracks0.
  split; [done|]. split; [done|]. split; [done|].
  assert (main_with_tracks w path tracks0 stdin1 = NothingKept) as Hmain.
  { destruct tracks0; [discriminate Hrun|exact Hrun]. }
  clear Hrun. unfold main_with_tracks in Hmain.
  set (h := py_sort track_id tracks0) in *.
  destruct (display_tracks h (seq 0 (length h))); [|done].
  destruct (select_tracks_to_keep h (seq 0 (length h)) stdin1)
    as [[kept|e] stdin2] eqn:Hsel; [|done].
  destruct kept as [|k0 kept].
  - apply select_tracks_to_keep_result in Hsel as [extra Hsel].
    assert (tracks_of_type h "video" (seq 0 (length h)) ++ extra = [])
      as [Hvideo _]%app_eq_nil.
    { apply Permutation_nil_r.
      rewrite <-(py_sort_perm (λ t : loc, track_id (h !!! t))).
      by rewrite <-Hsel. }
    intros t Ht Hty.
    assert (t ∈ h) as [i Hi]%list_elem_of_lookup
      by (subst h; by rewrite py_sort_perm).
    assert (i ∈ tracks_of_type h "video" (seq 0 (length h))) as Hin;
      [|rewrite Hvideo in Hin; by apply elem_of_nil in Hin].
    apply list_elem_of_filter. split.
    + by rewrite (list_lookup_total_correct _ _ _ Hi).
    + apply elem_of_seq. apply lookup_lt_Some in Hi. lia.
  - exfalso. revert Hmain. repeat case_match; done.
Qed.

Lemma main_nothing_kept_witness :
  let w := mkWorld true (λ _, true) (λ _, false) (λ p, (p, ""))
             (λ _, Some (mkMkvData (Some [mkTrack 1 "audio" "AAC" ∅]))) in
  ∃ path stdin1 data tracks0,
    read_input_path w ["a.mkv"; "none"] = (Ok path, stdin1)
    ∧ get_mkv_info w path = Some data
    ∧ tracks data = Some tracks0
    ∧ ∀ t, t ∈ tracks0 → track_type t ≠ "video".
Proof.
  intros w. apply (main_nothing_kept w ["a.mkv"; "none"]).
  vm_compute. reflexivity.
Defined.

Lemma heap_displayable (h : heap) :
  Forall displayable h → ∀ t : nat, displayable (h !!! t).
Proof.
  intros Hall t. destruct (h !! t) as [x|] eqn:Hx.
  - rewrite (list_lookup_total_correct _ _ _ Hx).
    by eapply Forall_lookup_1.
  - rewrite list_lookup_total_alt, Hx.
    change (displayable (mkTrack 0 "" "" ∅)).
    split; simpl; [by rewrite lookup_empty|].
    intros v. by rewrite lookup_empty.
Qed.

Lemma select_group_raises group (m : gmap Z loc) n kept stdin e stdin' :
  select_group group m n kept stdin = (Raised e, stdin') → e = EOFError.
Proof.
  unfold select_group. destruct group as [|a group]; [done|].
  destruct (number_tracks _ _ _) as [m1 n1].
  destruct (selection_loop _ _ _ _ _) as [[k1|e1] s1] eqn:Hloop; [done|].
  intros [= <- _]. by apply selection_loop_raises in Hloop as [-> _].
Qed.

Lemma select_raises_only_eof h all_tracks stdin e stdin' :
  select_tracks_to_keep h all_tracks stdin = (Raised e, stdin') →
  e = EOFError.
Proof.
  unfold select_tracks_to_keep.
  destruct (number_tracks _ ∅ 1) as [m0 n0].
  destruct (select_group _ m0 n0 _ stdin) as [[[[m1 n1] k1]|e1] s1] eqn:Ha.
  - destruct (select_group _ m1 n1 k1 s1) as [[[[m2 n2] k2]|e2] s2] eqn:Hs;
      [done|].
    intros [= <- _]. by eapply select_group_raises.
  - intros [= <- _]. by eapply select_group_raises.
Qed.

Lemma modify_track_properties_keeps_displayable h ws stdin r h' stdin' :
  (∀ t, t ∈ ws → displayable (h !!! t)) →
  modify_track_properties h ws stdin = (r, h', stdin') →
  r ≠ Raised TypeError ∧ ∀ t, t ∈ ws → displayable (h' !!! t).
Proof.
  intros Hdisp Hrun.
  apply (modify_track_properties_invariant
           (λ h1 : heap, ∀ t, t ∈ ws → displayable (h1 !!! t)))
    in Hrun as (Hinv & Htype & _); try done.
  - split; [|done]. intros Hr. specialize (Htype Hr).
    rewrite <-display_tracks_is_Some, Htype in Hinv. by destruct Hinv.
  - intros h1 idx s _ Hh1 t Ht. by apply displayable_edit_name, Hh1.
  - intros h1 idx s _ _ Hh1. by apply displayable_edit_default.
Qed.

(** X18.  When every track that [get_mkv_info] reports can be displayed,
    no [TypeError] escapes [main], whatever is typed: none of the three
    calls of [display_tracks] raises, and neither does the selection nor the
    editor. *)
Theorem main_raises_no_type_error w stdin :
  (∀ path data tracks0,
     get_mkv_info w path = Some data → tracks data = Some tracks0 →
     Forall displayable tracks0) →
  main w stdin ≠ Uncaught TypeError.
Proof.
  intros Hgood.
  assert (∀ e, main w stdin = Uncaught e → e = EOFError) as Honly;
    [|by intros ?%Honly].
  intros e. unfold main. destruct (mkvmerge_found w); [|done].
  cbn [negb].
  destruct (read_input_path w stdin) as [[path|e0] stdin1] eqn:Hread.
  2: { intros [= <-]. by apply read_input_path_outcome in Hread as [-> _]. }
  destruct (get_mkv_info w path) as [data|] eqn:Hinfo; [|done].
  destruct (tracks data) as [tracks0|] eqn:Htracks; [|done].
  intros Hrun.
  assert (main_with_tracks w path tracks0 stdin1 = Uncaught e) as Hmain.
  { destruct tracks0; [discriminate Hrun|exact Hrun]. }
  clear Hrun. revert Hmain. unfold main_with_tracks.
  set (h := py_sort track_id tracks0).
  assert (∀ t : loc, displayable (h !!! t)) as Hdisp.
  { apply heap_displayable. subst h. rewrite py_sort_perm. by eapply Hgood. }
  assert (∀ (h1 : heap) l, (∀ t : loc, t ∈ l → displayable (h1 !!! t)) →
            display_tracks h1 l ≠ None) as Hshow.
  { intros h1 l Hl Hnone. apply display_tracks_is_Some in Hl.
    rewrite Hnone in Hl. by destruct Hl. }
  destruct (display_tracks h (seq 0 (length h))) eqn:Hd1;
    [|by apply Hshow in Hd1; auto].
  destruct (select_tracks_to_keep h (seq 0 (length h)) stdin1)
    as [[kept|e1] stdin2] eqn:Hsel.
  2: { intros [= <-]. by eapply select_raises_only_eof. }
  destruct (decide (kept = [])) as [->|Hkept]; [done|].
  assert (py_sort (λ t, track_id (h !!! t)) kept = kept) as Hsort1.
  { by apply py_sort_sorted_id,
      (select_tracks_to_keep_strongly_sorted _ _ _ _ _ Hsel). }
  rewrite Hsort1. destruct kept as [|k0 kept]; [done|].
  destruct (display_tracks h (k0 :: kept)) eqn:Hd2;
    [|by apply Hshow in Hd2; auto].
  destruct (modify_track_properties h (k0 :: kept) stdin2)
    as [[r h'] stdin3] eqn:Hmod.
  destruct (kept_tracks_resorted _ _ _ _ _ _ _ _ Hsel Hmod) as [_ Hsort2].
  apply modify_track_properties_keeps_displayable in Hmod as [Hr Hdisp'];
    [|by auto].
  destruct r as [[]|[]]; [|by intros [= <-]|done].
  rewrite Hsort2.
  destruct (display_tracks h' (k0 :: kept)) eqn:Hd3;
    [|by apply Hshow in Hd3].
  destruct (splitext w path) as [base ext].
  destruct (choose_output_path w _ _ _ _ _) as [[[out|]|e3] stdin4]
    eqn:Hout.
  - destruct stdin4 as [|line stdin5]; [by intros [= <-]|].
    by case_bool_decide.
  - done.
  - intros [= <-]. by apply choose_output_path_outcome in Hout as [-> _].
Qed.

Lemma main_raises_no_type_error_witness :
  main sample_world [" in.mkv "; "all"; "y"; "1"; "Film"; "f"]
  ≠ Uncaught TypeError.
Proof.
  apply (main_raises_no_type_error sample_world
           [" in.mkv "; "all"; "y"; "1"; "Film"; "f"]).
  intros path data tracks0. unfold sample_world. simpl.
  case_bool_decide; [|done]. intros [= <-] [= <-].
  repeat constructor; by rewrite ?lookup_empty.
Defined.

(** ** Command Synthesizer: further properties *)

Lemma py_split_nonempty sep s : py_split sep s ≠ [].
Proof.
  induction s as [|c s IH]; [done|]. simpl.
  destruct (py_split sep s); [done|]. by case_bool_decide.
Qed.

Lemma number_string_split_app s rest :
  string_forallb number_char s = true →
  py_split "," (s +:+ "," +:+ rest) = s :: py_split "," rest.
Proof.
  induction s as [|c s IH]; intros Hs.
  - change (py_split "," (String "," rest) = "" :: py_split "," rest).
    simpl. pose proof (py_split_nonempty "," rest).
    by destruct (py_split "," rest).
  - simpl in Hs. apply andb_true_iff in Hs as [Hc Hs].
    change (py_split "," (String c (s +:+ "," +:+ rest))
            = String c s :: py_split "," rest).
    simpl. rewrite (IH Hs).
    apply number_char_plain in Hc as (_ & _ & Hcomma & _).
    by rewrite bool_decide_eq_false_2.
Qed.

Lemma py_split_join_numbers (zs : list Z) :
  zs ≠ [] → py_split "," (py_join "," (pretty <$> zs)) = pretty <$> zs.
Proof.
  induction zs as [|z zs IH]; [done|]. intros _.
  destruct zs as [|z' zs].
  - simpl. apply number_string_split, pretty_Z_chars.
  - change (py_join "," (pretty <$> z :: z' :: zs))
      with (pretty z +:+ "," +:+ py_join "," (pretty <$> z' :: zs)).
    rewrite number_string_split_app by apply pretty_Z_chars.
    by rewrite IH.
Qed.

Lemma parse_rendered_numbers (zs : list Z) :
  mapM (λ x, py_int (py_strip x)) (pretty <$> zs) = Some zs.
Proof.
  induction zs as [|z zs IH]; [done|].
  rewrite fmap_cons. simpl.
  rewrite number_string_strip, py_int_pretty by apply pretty_Z_chars.
  simpl. by rewrite IH.
Qed.

(** X19.  The value of an inclusion filter names its tracks without
    ambiguity: when [final_tracks] holds a track of the type, the block of
    the type gives the inclusion flag and one value, and this value, split
    at the commas and each piece read as an integer, gives back the ids of
    the tracks of that type in the order of [final_tracks]. *)
Theorem track_selection_round_trip ty incl excl final_tracks orig :
  track_ids_of_type ty final_tracks ≠ [] →
  ∃ value,
    track_selection_args ty incl excl final_tracks orig = [incl; value]
    ∧ mapM (λ x, py_int (py_strip x)) (py_split "," value)
      = Some (track_id <$> filter (λ t, track_type t = ty) final_tracks).
Proof.
  intros Hne. eexists. split.
  - unfold track_selection_args. by rewrite bool_decide_eq_true_2.
  - assert (∀ l : list Track,
              (λ t, pretty (track_id t)) <$> l = pretty <$> (track_id <$> l))
      as Hcompose by (intros l; by rewrite <-list_fmap_compose).
    unfold track_ids_of_type in *. rewrite Hcompose in *.
    rewrite py_split_join_numbers.
    + apply parse_rendered_numbers.
    + intros Hnil. apply Hne. apply fmap_nil_inv in Hnil.
      by rewrite Hnil.
Qed.

Lemma track_selection_round_trip_witness :
  ∃ value,
    track_selection_args "audio" "--audio-tracks" "--no-audio"
      [mkTrack 1 "video" "AVC" ∅; mkTrack 12 "audio" "AAC" ∅;
       mkTrack 3 "audio" "AC3" ∅] []
    = ["--audio-tracks"; value]
    ∧ mapM (λ x, py_int (py_strip x)) (py_split "," value)
      = Some (track_id
                <$> filter (λ t, track_type t = "audio")
                      [mkTrack 1 "video" "AVC" ∅; mkTrack 12 "audio" "AAC" ∅;
                       mkTrack 3 "audio" "AC3" ∅]).
Proof.
  apply (track_selection_round_trip "audio" "--audio-tracks" "--no-audio"
           [mkTrack 1 "video" "AVC" ∅; mkTrack 12 "audio" "AAC" ∅;
            mkTrack 3 "audio" "AC3" ∅] []).
  vm_compute. discriminate.
Defined.

(** ** Selection Engine: the groups by type *)

Lemma has_track_of_type_true h all_tracks ty :
  has_track_of_type h all_tracks ty = true
  ↔ tracks_of_type h ty all_tracks ≠ [].
Proof.
  unfold has_track_of_type, tracks_of_type.
  induction all_tracks as [|t l IH]; simpl.
  - split; [done|]. intros Hne. by destruct Hne.
  - rewrite filter_cons.
    destruct (decide (track_type (h !!! t) = ty)) as [Hty|Hty].
    + rewrite bool_decide_eq_true_2 by done. simpl. by split.
    + rewrite bool_decide_eq_false_2 by done. simpl. exact IH.
Qed.

Lemma has_track_of_type_false h all_tracks ty :
  has_track_of_type h all_tracks ty = false
  ↔ tracks_of_type h ty all_tracks = [].
Proof.
  pose proof (has_track_of_type_true h all_tracks ty) as Htrue.
  destruct (has_track_of_type h all_tracks ty).
  - split; [done|]. intros Hnil. by apply Htrue in Hnil.
  - split; [|done]. intros _.
    destruct (tracks_of_type h ty all_tracks); [done|].
    by assert (false = true) by (by apply Htrue).
Qed.

Lemma occurrences_tracks_of_type h ty all_tracks (t : loc) :
  occurrences t (tracks_of_type h ty all_tracks)
  = if decide (track_type (h !!! t) = ty) then occurrences t all_tracks
    else 0%nat.
Proof.
  case_decide as Hty.
  - by apply (occurrences_filter (λ t : loc, track_type (h !!! t) = ty)).
  - by apply occurrences_not_in, not_in_tracks_of_type.
Qed.

Lemma occurrences_other_group h ty all_tracks (t : loc) (l : list loc) :
  (∀ x, x ∈ l → x ∈ tracks_of_type h ty all_tracks) →
  track_type (h !!! t) ≠ ty → occurrences t l = 0%nat.
Proof.
  intros Hl Hty. apply occurrences_not_in. intros Hin%Hl.
  revert Hin. by apply not_in_tracks_of_type.
Qed.

Lemma selection_loop_last group (m : gmap Z loc) n kept stdin kept' stdin' :
  selection_loop (number_tracks group m n).1 n (n + Z.of_nat (length group))
    kept stdin = (Ok kept', stdin') →
  ∃ junk line idxs,
    stdin = junk ++ line :: stdin'
    ∧ read_selection n (n + Z.of_nat (length group)) (py_strip line)
      = Some idxs
    ∧ kept' = kept ++ selected_tracks group n idxs.
Proof.
  induction stdin as [|l stdin IH]; [done|].
  rewrite selection_loop_cons.
  destruct (read_selection _ _ _) as [idxs|] eqn:Hread.
  - intros [= <- <-]. exists [], l, idxs. split; [done|]. split; [done|].
    rewrite append_selected_omap, omap_numbered; [done|].
    apply read_selection_in_range in Hread; [done|lia].
  - intros (junk & line & idxs & -> & ? & ?)%IH.
    by exists (l :: junk), line, idxs.
Qed.

(** The line on which the block of a non-empty group ends is the last one
    it reads, and it is the one that is acted on. *)
Lemma select_group_last group (m : gmap Z loc) n kept stdin st stdin' :
  group ≠ [] →
  select_group group m n kept stdin = (Ok st, stdin') →
  ∃ junk line idxs,
    stdin = junk ++ line :: stdin'
    ∧ read_selection n (n + Z.of_nat (length group)) (py_strip line)
      = Some idxs
    ∧ st.2 = kept ++ selected_tracks group n idxs.
Proof.
  intros Hne. unfold select_group. destruct group as [|a group]; [done|].
  pose proof (number_tracks_snd (a :: group) m n) as Hsnd.
  destruct (number_tracks _ _ _) as [m1 n1] eqn:Hnum.
  cbn [snd] in Hsnd. subst n1.
  replace m1 with (number_tracks (a :: group) m n).1 by (by rewrite Hnum).
  destruct (selection_loop _ _ _ _ _) as [[k1|?] ?] eqn:Hloop; [|done].
  intros [= <- <-]. by apply selection_loop_last in Hloop.
Qed.

Lemma keyword_selection group n line idxs :
  py_lower (py_strip line) = "all"
  ∨ py_lower (py_strip line) = "none" ∨ py_strip line = "" →
  read_selection n (n + Z.of_nat (length group)) (py_strip line)
  = Some idxs →
  selected_tracks group n idxs
  = if bool_decide (py_lower (py_strip line) = "all") then group else [].
Proof.
  intros Hkw. case_bool_decide as Hall.
  - rewrite read_selection_all by done. intros [= <-].
    replace (n + Z.of_nat (length group) - n) with (Z.of_nat (length group))
      by lia.
    apply selected_tracks_all.
  - rewrite read_selection_none by tauto. by intros [= <-].
Qed.

Lemma last_line_eq {A} (pre pre' rest : list A) (x y : A) :
  pre ++ x :: rest = pre' ++ y :: rest → x = y.
Proof.
  intros Heq.
  assert ((pre ++ [x]) ++ rest = (pre' ++ [y]) ++ rest) as Heq'
    by (by rewrite <-!app_assoc).
  apply app_inv_tail in Heq'. by apply app_inj_tail in Heq' as [_ ?].
Qed.

Lemma has_track_choice {A} h all_tracks ty (x y : A) :
  (if has_track_of_type h all_tracks ty then x else y)
  = (if tracks_of_type h ty all_tracks is [] then y else x).
Proof.
  pose proof (has_track_of_type_true h all_tracks ty) as Htrue.
  pose proof (has_track_of_type_false h all_tracks ty) as Hfalse.
  destruct (has_track_of_type h all_tracks ty).
  - destruct (tracks_of_type h ty all_tracks); [|done].
    by destruct (proj1 Htrue eq_refl).
  - by rewrite (proj1 Hfalse eq_refl).
Qed.

Lemma occurrences_choice h ty all_tracks (t : loc) (b : bool) :
  occurrences t (if b then tracks_of_type h ty all_tracks else [])
  = if b && bool_decide (track_type (h !!! t) = ty)
    then occurrences t all_tracks else 0%nat.
Proof.
  destruct b; [|done]. rewrite occurrences_tracks_of_type. simpl.
  by destruct (decide (track_type (h !!! t) = ty));
    [rewrite bool_decide_eq_true_2|rewrite bool_decide_eq_false_2].
Qed.

Lemma select_group_keyword group (m : gmap Z loc) n kept line rest :
  group ≠ [] →
  py_lower (py_strip line) = "all"
  ∨ py_lower (py_strip line) = "none" ∨ py_strip line = "" →
  select_group group m n kept (line :: rest)
  = (Ok ((number_tracks group m n).1, n + Z.of_nat (length group),
         kept ++ (if bool_decide (py_lower (py_strip line) = "all")
                  then group else [])), rest).
Proof.
  intros Hne Hline.
  assert (∃ idxs,
            read_selection n (n + Z.of_nat (length group)) (py_strip line)
            = Some idxs) as [idxs Hread].
  { destruct (decide (py_lower (py_strip line) = "all")) as [Hall|Hnall].
    - rewrite read_selection_all by done. by eexists.
    - rewrite read_selection_none; [by eexists|done|tauto]. }
  rewrite <-(keyword_selection group n line idxs) by done.
  apply select_group_answer; [done..|].
  apply read_selection_in_range in Hread; [done|lia].
Qed.

(** C6.  Whatever is typed, the list that [select_tracks_to_keep] returns is
    sorted by id and holds every video track of [all_tracks], as many times
    as [all_tracks] does.  When each prompted group is answered by [all], by
    [none] or by an empty line, the function returns having read one line
    for each type, audio and subtitles, that [all_tracks] has a track of,
    and none for video.  A group answered by [all] is kept whole, every
    track of its type as many times as [all_tracks] holds it, and a group
    answered by [none] or by an empty line contributes no track: so it is
    for the audio group answered after any number of lines that its prompt
    turns down, whatever follows, and for the group asked last (subtitles if
    [all_tracks] has a subtitles track, audio otherwise) answered by the
    last line that is read, whatever was typed before. *)
Theorem select_tracks_to_keep_all_none h all_tracks :
  let is_all line := py_lower (py_strip line) = "all" in
  let is_none line :=
    py_lower (py_strip line) = "none" ∨ py_strip line = "" in
  let has := has_track_of_type h all_tracks in
  let count ty :=
    Z.of_nat (length (filter (λ t, track_type (h !!! t) = ty) all_tracks)) in
  let of_group ty line (t : loc) (kept : list loc) :=
    track_type (h !!! t) = ty →
    occurrences t kept
    = if bool_decide (is_all line) then occurrences t all_tracks
      else 0%nat in
  (∀ stdin kept stdin',
     select_tracks_to_keep h all_tracks stdin = (Ok kept, stdin') →
     sorted_by_id h kept
     ∧ ∀ t, track_type (h !!! t) = "video" →
         occurrences t kept = occurrences t all_tracks)
  ∧ (∀ la ls rest,
       is_all la ∨ is_none la → is_all ls ∨ is_none ls →
       ∃ kept,
         select_tracks_to_keep h all_tracks
           ((if has "audio" then [la] else [])
            ++ (if has "subtitles" then [ls] else []) ++ rest)
         = (Ok kept, rest)
         ∧ ∀ t, of_group "audio" la t kept ∧ of_group "subtitles" ls t kept)
  ∧ (∀ junk la rest kept stdin',
       has "audio" = true →
       Forall (rejected_selection (1 + count "video")
                 (1 + count "video" + count "audio")) junk →
       is_all la ∨ is_none la →
       select_tracks_to_keep h all_tracks (junk ++ la :: rest)
       = (Ok kept, stdin') →
       ∀ t, of_group "audio" la t kept)
  ∧ (∀ pre line rest kept,
       is_all line ∨ is_none line →
       select_tracks_to_keep h all_tracks (pre ++ line :: rest)
       = (Ok kept, rest) →
       ∀ t, of_group (if has "subtitles" then "subtitles" else "audio")
              line t kept).
Proof.
  cbv zeta. set (key := λ t : loc, track_id (h !!! t)).
  assert (∀ line, py_lower (py_strip line) = "all"
                  ∨ py_lower (py_strip line) = "none" ∨ py_strip line = ""
                  → py_lower (py_strip line) = "all"
                    ∨ py_lower (py_strip line) = "none"
                    ∨ py_strip line = "") as Hkw by done.
  assert (∀ (t : loc) ty (b : bool) (A C : list loc),
            track_type (h !!! t) = ty →
            occurrences t A = 0%nat → occurrences t C = 0%nat →
            occurrences t
              (py_sort key
                 (A ++ (if b then tracks_of_type h ty all_tracks else [])
                  ++ C))
            = if b then occurrences t all_tracks else 0%nat) as Hcount.
  { intros t ty b A C Hty HA HC.
    rewrite (occurrences_perm _ _ _ (py_sort_perm key _)).
    rewrite !occurrences_app, HA, HC, occurrences_choice.
    rewrite bool_decide_eq_true_2 by done. destruct b; simpl; lia. }
  split; [|split; [|split]].
  - intros stdin kept stdin' Hrun. split.
    + apply select_tracks_to_keep_result in Hrun as [extra ->].
      apply py_sort_sorted.
    + intros t Hty.
      apply select_tracks_to_keep_extra in Hrun as (extra & -> & Hextra).
      rewrite (occurrences_perm _ _ _ (py_sort_perm _ _)), occurrences_app.
      rewrite occurrences_tracks_of_type, decide_True by done.
      rewrite (occurrences_not_in t extra); [lia|].
      intros Hin. by apply Hextra in Hin.
  - intros la ls rest Hla Hls.
    destruct (select_tracks_to_keep_keywords h all_tracks) as [_ Hboth].
    destruct (Hboth la ls rest Hla Hls) as (kept & Hrun & _ & Hperm).
    exists kept. split; [by rewrite !has_track_choice|].
    intros t.
    rewrite (occurrences_perm _ _ _ Hperm), !occurrences_app.
    rewrite occurrences_tracks_of_type, !occurrences_choice.
    split; intros ->; simpl; rewrite ?andb_false_r, ?andb_true_r;
      repeat case_bool_decide; lia.
  - intros junk la rest kept stdin' Haudio Hjunk Hla.
    apply has_track_of_type_true in Haudio.
    unfold select_tracks_to_keep.
    pose proof (number_tracks_snd (tracks_of_type h "video" all_tracks) ∅ 1)
      as Hn0.
    destruct (number_tracks _ ∅ 1) as [m0 n0]. cbn [snd] in Hn0. subst n0.
    assert (select_group (tracks_of_type h "audio" all_tracks) m0
              (1 + Z.of_nat (length (tracks_of_type h "video" all_tracks)))
              (tracks_of_type h "video" all_tracks) (junk ++ la :: rest)
            = select_group (tracks_of_type h "audio" all_tracks) m0
                (1 + Z.of_nat (length (tracks_of_type h "video" all_tracks)))
                (tracks_of_type h "video" all_tracks) (la :: rest)) as ->.
    { induction Hjunk as [|l junk Hl _ IH]; [done|].
      change ((l :: junk) ++ la :: rest) with (l :: (junk ++ la :: rest)).
      rewrite select_group_retry; [exact IH|done|].
      destruct Hl as (Hnall & Hnnone & Hne & tok & Htok & Hbad).
      by apply (read_selection_invalid _ _ _ tok). }
    rewrite select_group_keyword by tauto.
    destruct (select_group _ _ _ _ rest) as [[st|?] s2] eqn:Hs; [|done].
    apply select_group_from_group in Hs as (xs & Hst & Hxs).
    destruct st as [[m2 n2] k2]. simpl in Hst. subst k2.
    intros [= <- _] t Hty. rewrite <-!app_assoc.
    apply Hcount; [done| |].
    + rewrite occurrences_tracks_of_type, decide_False; [done|].
      by rewrite Hty.
    + apply (occurrences_other_group h "subtitles" all_tracks); [done|].
      by rewrite Hty.
  - intros pre line rest kept Hline.
    unfold select_tracks_to_keep.
    destruct (number_tracks _ ∅ 1) as [m0 n0].
    destruct (select_group _ m0 n0 _ _) as [[[[m1 n1] k1]|?] s1] eqn:Ha;
      [|done].
    destruct (select_group _ m1 n1 k1 s1) as [[[[m2 n2] k2]|?] s2] eqn:Hs;
      [|done].
    intros [= <- ->] t.
    pose proof (select_group_suffix _ _ _ _ _ _ _ Ha) as [ca Hca].
    destruct (has_track_of_type h all_tracks "subtitles") eqn:Hsubs.
    + apply has_track_of_type_true in Hsubs.
      apply select_group_from_group in Ha as (xa & Hk1 & Hxa).
      simpl in Hk1. subst k1.
      apply (select_group_last _ _ _ _ _ _ _ Hsubs) in Hs
        as (junk & l & idxs & Hs1 & Hread & Hk2).
      simpl in Hk2. subst k2.
      assert (line = l) as <-.
      { subst s1. rewrite app_assoc in Hca. by eapply last_line_eq. }
      rewrite (keyword_selection _ _ _ _ (Hkw line ltac:(tauto)) Hread).
      intros Hty.
      rewrite <-(app_nil_r (if bool_decide _ then _ else @nil loc)).
      apply Hcount; [done| |done].
      rewrite occurrences_app, occurrences_tracks_of_type.
      rewrite decide_False by (by rewrite Hty).
      rewrite (occurrences_other_group h "audio" all_tracks); [done|done|].
      by rewrite Hty.
    + apply has_track_of_type_false in Hsubs. rewrite Hsubs in Hs.
      rewrite select_group_nil in Hs. injection Hs as _ _ <- ->.
      assert (tracks_of_type h "audio" all_tracks ≠ []) as Haudio.
      { intros Hnil. rewrite Hnil, select_group_nil in Ha.
        injection Ha as _ _ _ Hlen. apply (f_equal length) in Hlen.
        rewrite length_app in Hlen. simpl in Hlen. lia. }
      apply (select_group_last _ _ _ _ _ _ _ Haudio) in Ha
        as (junk & l & idxs & Hs1 & Hread & Hk1).
      simpl in Hk1. subst k1.
      assert (line = l) as <- by (by eapply last_line_eq).
      rewrite (keyword_selection _ _ _ _ (Hkw line ltac:(tauto)) Hread).
      intros Hty.
      rewrite <-(app_nil_r (if bool_decide _ then _ else @nil loc)).
      apply Hcount; [done| |done].
      rewrite occurrences_tracks_of_type, decide_False; [done|].
      by rewrite Hty.
Qed.

Lemma select_tracks_to_keep_all_none_witness :
  let h := [mkTrack 0 "video" "AVC" ∅; mkTrack 1 "audio" "AAC" ∅;
            mkTrack 2 "audio" "AC3" ∅; mkTrack 3 "subtitles" "SRT" ∅] in
  let all_tracks := [0; 1; 2; 3]%nat in
  let kept := [0; 1; 2]%nat in
  select_tracks_to_keep h all_tracks ["x"; "7"; "all"; "9"; "none"]
  = (Ok kept, [])
  ∧ sorted_by_id h kept
  ∧ occurrences 0%nat kept = occurrences 0%nat all_tracks
  ∧ occurrences 1%nat kept = occurrences 1%nat all_tracks
  ∧ occurrences 3%nat kept = 0%nat.
Proof.
  intros h all_tracks kept.
  destruct (select_tracks_to_keep_all_none h all_tracks)
    as (Hany & _ & Hfirst & Hlast).
  assert (select_tracks_to_keep h all_tracks ["x"; "7"; "all"; "9"; "none"]
          = (Ok kept, [])) as Hrun by reflexivity.
  split; [exact Hrun|].
  destruct (Hany _ _ _ Hrun) as [Hsorted Hvideo].
  split; [exact Hsorted|]. split; [exact (Hvideo 0%nat eq_refl)|]. split.
  - apply (Hfirst ["x"; "7"] "all" ["9"; "none"] kept [] eq_refl);
      [|by left|exact Hrun|reflexivity].
    repeat constructor; try discriminate.
    + exists "x". split; [apply list_elem_of_here|by left].
    + exists "7". split; [apply list_elem_of_here|].
      right. exists 7. split; [reflexivity|].
      vm_compute. intros [_ Hlt]. discriminate Hlt.
  - exact (Hlast ["x"; "7"; "all"; "9"] "none" [] kept
             (or_intror (or_introl eq_refl)) Hrun 3%nat eq_refl).
Defined.

(** ** main: the two questions *)

(** X20.  The path loop of [main] lets a path through exactly as follows:
    after lines that it turns down, it reads a line whose stripped form is
    a file, and this is the path; when the name ends in [.mkv], letter case
    apart, that line is the last one read, and when it does not, one more
    line is read, which lowered is [y].  A line is turned down when its
    stripped form is not a file, or when it is a file with another ending
    and the line that follows, lowered, is not [y]. *)
Theorem read_input_path_accepts w stdin path stdin' :
  read_input_path w stdin = (Ok path, stdin')
  ↔ ∃ pre line,
      rejected_paths w pre
      ∧ path = py_strip line
      ∧ isfile w path = true
      ∧ ((py_endswith (py_lower path) ".mkv" = true
          ∧ stdin = pre ++ line :: stdin')
         ∨ (py_endswith (py_lower path) ".mkv" = false
            ∧ ∃ answer, py_lower answer = "y"
                        ∧ stdin = pre ++ line :: answer :: stdin')).
Proof.
  split.
  - assert (∀ n stdin, (length stdin < n)%nat →
              read_input_path w stdin = (Ok path, stdin') →
              ∃ pre line,
                rejected_paths w pre
                ∧ path = py_strip line
                ∧ isfile w path = true
                ∧ ((py_endswith (py_lower path) ".mkv" = true
                    ∧ stdin = pre ++ line :: stdin')
                   ∨ (py_endswith (py_lower path) ".mkv" = false
                      ∧ ∃ answer,
                          py_lower answer = "y"
                          ∧ stdin = pre ++ line :: answer :: stdin')))
      as Hind; [|apply (Hind (S (length stdin))); lia].
    clear stdin. induction n as [|n IH]; intros stdin Hn; [lia|].
    destruct stdin as [|line stdin1]; [intros Hrun; discriminate Hrun|].
    rewrite read_input_path_cons. cbv zeta. simpl in Hn.
    destruct (isfile w (py_strip line)) eqn:Hfile; cbn [negb].
    + destruct (py_endswith (py_lower (py_strip line)) ".mkv") eqn:Hmkv;
        cbn [negb].
      * intros [= <- <-]. exists [], line.
        split; [constructor|]. split; [done|]. split; [done|].
        left. by split.
      * destruct stdin1 as [|answer stdin2]; [done|].
        simpl in Hn. case_bool_decide as Hyes; cbn [negb].
        -- intros [= <- <-]. exists [], line.
           split; [constructor|]. split; [done|]. split; [done|].
           right. split; [done|]. by exists answer.
        -- intros Hrun. apply IH in Hrun; [|lia].
           destruct Hrun as (pre & l & Hrej & Hl & Hf & Hcases).
           exists (line :: answer :: pre), l.
           split; [by apply rejected_not_confirmed|].
           split; [done|]. split; [done|].
           destruct Hcases as [[? ->]|(? & a & ? & ->)]; [by left|].
           right. split; [done|]. by exists a.
    + intros Hrun. apply IH in Hrun; [|lia].
      destruct Hrun as (pre & l & Hrej & Hl & Hf & Hcases).
      exists (line :: pre), l. split; [by apply rejected_not_file|].
      split; [done|]. split; [done|].
      destruct Hcases as [[? ->]|(? & a & ? & ->)]; [by left|].
      right. split; [done|]. by exists a.
  - intros (pre & line & Hrej & -> & Hfile & Hcases).
    assert (∀ tail,
              read_input_path w (line :: tail) = (Ok (py_strip line), stdin')
              → read_input_path w (pre ++ line :: tail)
                = (Ok (py_strip line), stdin')) as Hskip.
    { clear Hcases. intros tail Hrun.
      induction Hrej as [|l rest Hl _ IH|l a rest Hl Hm Ha _ IH].
      - exact Hrun.
      - change ((l :: rest) ++ line :: tail)
          with (l :: (rest ++ line :: tail)).
        rewrite read_input_path_cons. cbv zeta. rewrite Hl. exact IH.
      - change ((l :: a :: rest) ++ line :: tail)
          with (l :: a :: (rest ++ line :: tail)).
        rewrite read_input_path_cons. cbv zeta. rewrite Hl, Hm.
        rewrite bool_decide_eq_false_2 by done. exact IH. }
    destruct Hcases as [[Hmkv ->]|(Hmkv & answer & Hy & ->)];
      apply Hskip; rewrite read_input_path_cons; cbv zeta;
      rewrite Hfile, Hmkv; [done|].
    by rewrite bool_decide_eq_true_2.
Qed.

Lemma read_input_path_accepts_witness :
  ∃ pre line,
    rejected_paths sample_world pre
    ∧ "in.mkv" = py_strip line
    ∧ isfile sample_world "in.mkv" = true
    ∧ ((py_endswith (py_lower "in.mkv") ".mkv" = true
        ∧ ["out.mkv"; " in.mkv "; "3"] = pre ++ line :: ["3"])
       ∨ (py_endswith (py_lower "in.mkv") ".mkv" = false
          ∧ ∃ answer, py_lower answer = "y"
                      ∧ ["out.mkv"; " in.mkv "; "3"]
                        = pre ++ line :: answer :: ["3"])).
Proof.
  apply (proj1 (read_input_path_accepts sample_world
                  ["out.mkv"; " in.mkv "; "3"] "in.mkv" ["3"])).
  vm_compute. reflexivity.
Defined.

(** Each step of [main] reads a prefix of the input and does the same
    whatever follows that prefix. *)
Lemma read_input_path_consumes w stdin path stdin' :
  read_input_path w stdin = (Ok path, stdin') →
  ∃ c, stdin = c ++ stdin'
       ∧ ∀ rest', read_input_path w (c ++ rest') = (Ok path, rest').
Proof.
  assert (∀ n stdin, (length stdin < n)%nat →
            read_input_path w stdin = (Ok path, stdin') →
            ∃ c, stdin = c ++ stdin'
                 ∧ ∀ rest', read_input_path w (c ++ rest')
                            = (Ok path, rest')) as Hind;
    [|apply (Hind (S (length stdin))); lia].
  clear stdin. induction n as [|n IH]; intros stdin Hn; [lia|].
  destruct stdin as [|line stdin1]; [intros Hrun; discriminate Hrun|].
  rewrite read_input_path_cons. cbv zeta. simpl in Hn.
  destruct (isfile w (py_strip line)) eqn:Hfile; cbn [negb].
  - destruct (py_endswith (py_lower (py_strip line)) ".mkv") eqn:Hmkv;
      cbn [negb].
    + intros [= <- <-]. exists [line]. split; [done|]. intros rest'.
      change ([line] ++ rest') with (line :: rest').
      rewrite read_input_path_cons. cbv zeta. by rewrite Hfile, Hmkv.
    + destruct stdin1 as [|answer stdin2]; [done|].
      simpl in Hn. case_bool_decide as Hyes; cbn [negb].
      * intros [= <- <-]. exists [line; answer]. split; [done|].
        intros rest'.
        change ([line; answer] ++ rest') with (line :: answer :: rest').
        rewrite read_input_path_cons. cbv zeta. rewrite Hfile, Hmkv.
        by rewrite bool_decide_eq_true_2.
      * intros Hrun. apply IH in Hrun as (c & -> & Hc); [|lia].
        exists (line :: answer :: c). split; [done|]. intros rest'.
        change ((line :: answer :: c) ++ rest')
          with (line :: answer :: (c ++ rest')).
        rewrite read_input_path_cons. cbv zeta. rewrite Hfile, Hmkv.
        rewrite bool_decide_eq_false_2 by done. apply Hc.
  - intros Hrun. apply IH in Hrun as (c & -> & Hc); [|lia].
    exists (line :: c). split; [done|]. intros rest'.
    change ((line :: c) ++ rest') with (line :: (c ++ rest')).
    rewrite read_input_path_cons. cbv zeta. rewrite Hfile. apply Hc.
Qed.

Lemma selection_loop_consumes (m : gmap Z loc) s e kept stdin kept' stdin' :
  selection_loop m s e kept stdin = (Ok kept', stdin') →
  ∃ c, stdin = c ++ stdin'
       ∧ ∀ rest', selection_loop m s e kept (c ++ rest') = (Ok kept', rest').
Proof.
  induction stdin as [|line stdin IH]; [done|].
  rewrite selection_loop_cons.
  destruct (read_selection _ _ _) as [idxs|] eqn:Hread.
  - intros [= <- <-]. exists [line]. split; [done|]. intros rest'.
    change ([line] ++ rest') with (line :: rest').
    by rewrite selection_loop_cons, Hread.
  - intros (c & -> & Hc)%IH. exists (line :: c). split; [done|].
    intros rest'. change ((line :: c) ++ rest') with (line :: (c ++ rest')).
    by rewrite selection_loop_cons, Hread.
Qed.

Lemma select_group_consumes group (m : gmap Z loc) n kept stdin st stdin' :
  select_group group m n kept stdin = (Ok st, stdin') →
  ∃ c, stdin = c ++ stdin'
       ∧ ∀ rest', select_group group m n kept (c ++ rest') = (Ok st, rest').
Proof.
  unfold select_group. destruct group as [|a group].
  - intros [= <- <-]. by exists [].
  - destruct (number_tracks _ _ _) as [m1 n1].
    destruct (selection_loop _ _ _ _ stdin) as [[k1|?] ?] eqn:Hloop; [|done].
    intros [= <- <-].
    apply selection_loop_consumes in Hloop as (c & -> & Hc).
    exists c. split; [done|]. intros rest'. by rewrite Hc.
Qed.

Lemma select_tracks_to_keep_consumes h all_tracks stdin kept stdin' :
  select_tracks_to_keep h all_tracks stdin = (Ok kept, stdin') →
  ∃ c, stdin = c ++ stdin'
       ∧ ∀ rest', select_tracks_to_keep h all_tracks (c ++ rest')
                  = (Ok kept, rest').
Proof.
  unfold select_tracks_to_keep.
  destruct (number_tracks _ ∅ 1) as [m0 n0].
  destruct (select_group _ m0 n0 _ stdin) as [[[[m1 n1] k1]|?] s1] eqn:Ha;
    [|done].
  destruct (select_group _ m1 n1 k1 s1) as [[[[m2 n2] k2]|?] s2] eqn:Hs;
    [|done].
  intros [= <- <-].
  apply select_group_consumes in Ha as (ca & -> & Hca).
  apply select_group_consumes in Hs as (cs & -> & Hcs).
  exists (ca ++ cs). split; [by rewrite app_assoc|]. intros rest'.
  by rewrite <-app_assoc, Hca, Hcs.
Qed.

Lemma modify_loop_consumes ws stdin :
  ∀ h h' stdin',
    modify_loop h ws stdin = (Ok (), h', stdin') →
    ∃ c, stdin = c ++ stdin'
         ∧ ∀ rest', modify_loop h ws (c ++ rest') = (Ok (), h', rest').
Proof.
  assert (∀ n stdin, (length stdin < n)%nat → ∀ h h' stdin',
            modify_loop h ws stdin = (Ok (), h', stdin') →
            ∃ c, stdin = c ++ stdin'
                 ∧ ∀ rest', modify_loop h ws (c ++ rest')
                            = (Ok (), h', rest')) as Hind;
    [|apply (Hind (S (length stdin))); lia].
  clear stdin. induction n as [|n IH]; intros stdin Hn; [lia|].
  intros h h' stdin'. rewrite modify_loop_unfold.
  destruct (display_tracks h ws) as [rows|] eqn:Hdisp; [|done].
  destruct stdin as [|line stdin1]; [done|]. cbv zeta.
  assert (∀ h0, modify_loop h0 ws [] ≠ (Ok (), h', stdin')) as Hempty.
  { intros h0. rewrite modify_loop_unfold.
    by destruct (display_tracks h0 ws). }
  assert (∀ (skipped : list string) stdin0 h0,
            (length stdin0 < n)%nat →
            (∀ rest', modify_loop h ws (skipped ++ rest')
                      = modify_loop h0 ws rest') →
            modify_loop h0 ws stdin0 = (Ok (), h', stdin') →
            ∃ c, skipped ++ stdin0 = c ++ stdin'
                 ∧ ∀ rest', modify_loop h ws (c ++ rest')
                            = (Ok (), h', rest')) as Hrec.
  { intros skipped stdin0 h0 Hlen Hskip Hrun.
    destruct (IH stdin0 Hlen _ _ _ Hrun) as (c & -> & Hc).
    exists (skipped ++ c). split; [by rewrite app_assoc|].
    intros rest'. rewrite <-app_assoc, Hskip. apply Hc. }
  simpl in Hn.
  case_bool_decide as Hf.
  { intros [= <- <-]. exists [line]. split; [done|]. intros rest'.
    change ([line] ++ rest') with (line :: rest').
    rewrite modify_loop_unfold, Hdisp. cbv zeta.
    by rewrite bool_decide_eq_true_2. }
  destruct (py_int (py_strip line)) as [num|] eqn:Hint.
  2: { apply (Hrec [line]); [lia|]. intros rest'.
       change ([line] ++ rest') with (line :: rest').
       rewrite modify_loop_unfold, Hdisp. cbv zeta.
       by rewrite bool_decide_eq_false_2, Hint. }
  destruct (negb _) eqn:Hidx.
  { apply (Hrec [line]); [lia|]. intros rest'.
    change ([line] ++ rest') with (line :: rest').
    rewrite modify_loop_unfold, Hdisp. cbv zeta.
    by rewrite bool_decide_eq_false_2, Hint, Hidx. }
  destruct stdin1 as [|line2 stdin2]; [by intros ?%Hempty|].
  simpl in Hn. case_bool_decide as Hty.
  - destruct stdin2 as [|line3 stdin3]; [by intros ?%Hempty|].
    apply (Hrec [line; line2; line3]); [simpl in *; lia|]. intros rest'.
    change ([line; line2; line3] ++ rest')
      with (line :: line2 :: line3 :: rest').
    rewrite modify_loop_unfold, Hdisp. cbv zeta.
    rewrite bool_decide_eq_false_2, Hint, Hidx by done.
    by rewrite bool_decide_eq_true_2.
  - apply (Hrec [line; line2]); [lia|]. intros rest'.
    change ([line; line2] ++ rest') with (line :: line2 :: rest').
    rewrite modify_loop_unfold, Hdisp. cbv zeta.
    rewrite bool_decide_eq_false_2, Hint, Hidx by done.
    by rewrite bool_decide_eq_false_2.
Qed.

Lemma modify_track_properties_consumes h ws stdin h' stdin' :
  modify_track_properties h ws stdin = (Ok (), h', stdin') →
  ∃ c, stdin = c ++ stdin'
       ∧ ∀ rest', modify_track_properties h ws (c ++ rest')
                  = (Ok (), h', rest').
Proof.
  unfold modify_track_properties.
  destruct ws as [|t0 ws]; [intros [= <- <-]; by exists []|].
  destruct stdin as [|line stdin]; [done|]. cbv zeta.
  destruct (negb _) eqn:Hno.
  - intros [= <- <-]. exists [line]. split; [done|]. intros rest'.
    change ([line] ++ rest') with (line :: rest'). cbv beta iota zeta.
    by rewrite Hno.
  - intros (c & -> & Hc)%modify_loop_consumes.
    exists (line :: c). split; [done|]. intros rest'.
    change ((line :: c) ++ rest') with (line :: (c ++ rest')).
    cbv beta iota zeta. by rewrite Hno.
Qed.

Lemma choose_output_path_consumes w base ext stdin :
  ∀ cur count out stdin',
    choose_output_path w base ext cur count stdin = (Ok (Some out), stdin') →
    ∃ c, stdin = c ++ stdin'
         ∧ ∀ rest', choose_output_path w base ext cur count (c ++ rest')
                    = (Ok (Some out), rest').
Proof.
  induction stdin as [|line stdin IH]; intros cur count out stdin';
    rewrite choose_output_path_unfold.
  - destruct (negb _) eqn:Hfree; [|done].
    intros [= <- <-]. exists []. split; [done|]. intros rest'.
    by rewrite choose_output_path_unfold, Hfree.
  - destruct (negb _) eqn:Hfree.
    { intros [= <- <-]. exists []. split; [done|]. intros rest'.
      by rewrite choose_output_path_unfold, Hfree. }
    cbv zeta. case_bool_decide as Ho.
    { intros [= <- <-]. exists [line]. split; [done|]. intros rest'.
      change ([line] ++ rest') with (line :: rest').
      rewrite choose_output_path_unfold, Hfree. cbv zeta.
      by rewrite bool_decide_eq_true_2. }
    case_bool_decide as Hr.
    { intros (c & -> & Hc)%IH. exists (line :: c). split; [done|].
      intros rest'. change ((line :: c) ++ rest') with (line :: (c ++ rest')).
      rewrite choose_output_path_unfold, Hfree. cbv zeta.
      rewrite bool_decide_eq_false_2 by done.
      by rewrite bool_decide_eq_true_2. }
    case_bool_decide as Hc; [done|].
    intros (c & -> & Hcs)%IH. exists (line :: c). split; [done|].
    intros rest'. change ((line :: c) ++ rest') with (line :: (c ++ rest')).
    rewrite choose_output_path_unfold, Hfree. cbv zeta.
    by rewrite !bool_decide_eq_false_2.
Qed.

(** X21.  [main] starts [mkvmerge] on a confirmation, and on that alone:
    when it runs the command, the input is some lines, then a line that
    stripped and lowered is [y], then lines that are not read; and with the
    same lines before it, any line in its place decides alone, whatever
    follows: the same command is run if that line, stripped and lowered, is
    [y], and is built but not run if it is anything else. *)
Theorem main_runs_on_confirmation w stdin cmd :
  main w stdin = Ran cmd →
  ∃ pre line rest,
    stdin = pre ++ line :: rest
    ∧ py_lower (py_strip line) = "y"
    ∧ ∀ line' rest',
        main w (pre ++ line' :: rest')
        = if bool_decide (py_lower (py_strip line') = "y")
          then Ran cmd else NotConfirmed cmd.
Proof.
  intros Hran.
  destruct (main_builds_inv w stdin cmd (or_introl Hran))
    as (path & stdin1 & data & tracks0 & kept & stdin2 & h' & stdin3 & out
        & stdin4 & Hread & Hinfo & Htracks & Hsel & Hkept & Hmod & Hout
        & Hcmd).
  destruct (kept_tracks_resorted _ _ _ _ _ _ _ _ Hsel Hmod)
    as [Hsort1 Hsort2].
  destruct (splitext w path) as [base ext] eqn:Hsplit. cbn [fst snd] in Hout.
  revert Hran. unfold main at 1.
  destruct (mkvmerge_found w) eqn:Hfound; [|done]. cbn [negb].
  rewrite Hread, Hinfo, Htracks.
  destruct tracks0 as [|t0 ts]; [done|].
  unfold main_with_tracks at 1. cbv zeta.
  destruct (display_tracks _ (seq 0 _)) as [rows1|] eqn:Hd1; [|done].
  rewrite Hsel. destruct kept as [|k0 kept]; [done|].
  rewrite Hsort1.
  destruct (display_tracks _ (k0 :: kept)) as [rows2|] eqn:Hd2; [|done].
  rewrite Hmod, Hsort2.
  destruct (display_tracks h' (k0 :: kept)) as [rows3|] eqn:Hd3; [|done].
  rewrite Hsplit, Hout.
  destruct stdin4 as [|line rest]; [done|].
  case_bool_decide as Hyes; [|done]. intros _.
  apply read_input_path_consumes in Hread as (c1 & -> & Hc1).
  apply select_tracks_to_keep_consumes in Hsel as (c2 & -> & Hc2).
  apply modify_track_properties_consumes in Hmod as (c3 & -> & Hc3).
  apply choose_output_path_consumes in Hout as (c4 & -> & Hc4).
  exists (c1 ++ c2 ++ c3 ++ c4), line, rest.
  split; [by rewrite <-!app_assoc|]. split; [done|].
  intros line' rest'. unfold main. rewrite Hfound. cbn [negb].
  rewrite <-!app_assoc, Hc1, Hinfo, Htracks.
  unfold main_with_tracks. cbv beta iota zeta.
  rewrite Hd1, Hc2. cbv beta iota zeta.
  rewrite Hsort1, Hd2, Hc3, Hsort2, Hd3, Hsplit, Hc4.
  by rewrite Hcmd.
Qed.

Lemma main_runs_on_confirmation_witness :
  ∃ pre line rest,
    [" in.mkv "; "3"; "n"; "r"; "y"] = pre ++ line :: rest
    ∧ py_lower (py_strip line) = "y"
    ∧ ∀ line' rest',
        main sample_world (pre ++ line' :: rest')
        = if bool_decide (py_lower (py_strip line') = "y")
          then Ran sample_command else NotConfirmed sample_command.
Proof.
  apply (main_runs_on_confirmation sample_world
           [" in.mkv "; "3"; "n"; "r"; "y"] sample_command).
  vm_compute. reflexivity.
Defined.
